(* ===== verification/_CoqProject ===== *)
-Q . S2P
Prelude.v
Word.v
Runtime.v
Instruction.v
Greeting.v
Processor.v
Ledger.v
Observation.v
Phases.v
Entrypoint.v
Contract.v
Independence.v
Interleaving.v
Trace.v
Tests.v
