(* ===== verification/Prelude.v ===== *)
(** * Verification of the Solana "hello world" counter program

    The program under [src/src/program-rust/src] is an on-chain program that
    keeps one [u32] counter in the data of an account and changes it by one of
    three instructions.  It has two source files:

    - [instruction.rs]: the enum [HelloInstruction] and its decoder
      [HelloInstruction::unpack], which reads a tag byte and, for tag 2, a
      four-byte little-endian payload;
    - [lib.rs]: the account state [GreetingAccount] (Borsh-serialised), the
      entry point [process_instruction], and the unit test [test_sanity].

    [process_instruction] logs a line, decodes the instruction, takes the
    first account, checks that the account is owned by the program,
    deserialises the counter from the account data, applies the instruction,
    serialises the counter back into the same buffer and logs the new value.
    Every failure returns early; the only write to account data is the final
    serialisation.

    ** Files of the development, in dependency order

    - [Prelude] (this file): the outcome of a Rust computation ([Ok], [Err],
      [Panic]) with the bind that models [?], the state-and-outcome monad
      [prog] in which the entry point is written, their notations (scopes
      [outcome_scope] and [prog_scope]), the tactics [inv_outcome],
      [simp_hello] and [zdm], the hint databases [hello] and [hello_rw],
      and lemmas on lists of a known length.
    - [Word]: machine integers as the code has them: [u8] is [Byte.byte],
      [u32] is an integer with its wrap-around written out ([wrap32]),
      [u32::from_le_bytes] and [u32::to_le_bytes] with the reference value
      [le_value] of a byte list, Rust's [+] and [-] on [u32] under either
      setting of [overflow-checks] ([u32_add], [u32_sub]), [split_first], the
      slice [s[..n]] ([slice_to], which panics out of range) and [try_into]
      to [[u8; 4]] ([try_into_array4]).
    - [Runtime]: what the program uses of the Solana SDK: [ProgramError],
      [Pubkey], [AccountInfo], whose data and lamports are references into a
      shared store (two [AccountInfo]s may name the same buffer), the machine
      state [Machine] (store, borrow state of the data cells, log), [msg],
      [borrow_data] and [borrow_data_mut] with the run-time checks of
      [RefCell], [write_data] and [next_account_info].
    - [Instruction]: [HelloInstruction] and [unpack] ([unpack_set] is its
      arm for tag 2), translated branch by branch from [instruction.rs];
      [decode] is the decoder as the specification states it and [pack] the
      encoder of the wire format.
    - [Greeting]: [GreetingAccount] and the Borsh code its [derive]
      generates; the class [BorshCodec] is the interface of an encoding
      (decode, encode, and the two round-trip laws), [BorshFixedSize] adds a
      length; [try_from_slice], [write_all] and [serialize_into] are defined
      and proved against the classes, and the instances for [u32] and
      [GreetingAccount] discharge them.
    - [Processor]: [process_instruction], statement by statement
      ([check_owner], [load_greeting], [apply_instruction],
      [store_greeting]); the relation [invocation] with one rule per path
      through the function; the specification's transition [apply]; the
      properties of one invocation.
    - [Ledger]: lists of calls ([run_calls]), the machines reachable by
      invocations ([reachable]), the counter of a buffer ([counter_at]) as
      abstraction function, the instruction a call applies to a buffer
      ([effect]), and the specification's end-to-end scenario.
    - [Observation]: machines up to their logs ([same_stores], an
      equivalence) and the statements that are blind to the log
      ([log_blind], [Proper] instances composed through the bind of the
      monad up to [process_instruction] and [run_calls]).
    - [Phases]: the entry point one statement at a time: a configuration is
      a [phase] (the statement that runs next, with its live variables) and
      a machine, [step] runs one statement with the definitions of
      [Processor], [run] iterates it with fuel, [moves] is the step relation,
      [phase_inv] the invariant of the configurations on the way,
      [phase_ok] their typing and [phase_account] the account a phase
      works on.
    - [Entrypoint]: the function that [entrypoint!(process_instruction)]
      declares, from the parsed arguments to the [u64] the runtime reads
      ([entrypoint], [returned], [ProgramError_to_u64]), and the table
      [exit_code] of the values it returns with their conditions.
    - [Contract]: the specification's own statement of the entry point:
      the collaborator interface as the class [Storage] with its laws,
      [Spec.process] over any storage, the storage of the program as the
      instance [machine_storage], and the refinement between the two.
    - [Independence]: what a call reads of its arguments ([target]), the
      footprint of a call, the cell of its first account ([footprint],
      [agree_on], [first_cell]), and lists of calls on different accounts
      ([disjoint_calls], [separate], [results]).
    - [Interleaving]: several calls on one store, run one statement at a
      time in the order a scheduler chooses: a [thread] is a call with its
      [Phases.phase], [sched_step] runs the next statement of one thread
      with [Phases.step], [run_schedule] runs a schedule, [interleaves] is
      the step relation and [pool_inv] the invariant of the interleavings
      of calls on different accounts.
    - [Trace]: the log read as a trace: a [line] is what a line of the
      log reports, [print_line] its text as the three [msg!] write it,
      [call_events] the lines of one call and [calls_events] those of a
      list of calls.
    - [Tests]: the unit test [test_sanity] of [lib.rs] as it is written.

    ** What the theorems show

    - decoder: [unpack] computes [decode] on every input
      ([unpack_refines_decode]); the result on each shape of input (empty,
      tags 0, 1, 2, other tags, payload of a wrong length); [unpack] never
      panics although it slices; [unpack] and [pack] are inverse up to the
      bytes that tags 0 and 1 ignore ([unpack_pack_inverse]);
    - serialisation: [try_from_slice] accepts exactly the buffers of four
      bytes ([greeting_try_from_slice_spec]) and round-trips with
      [serialize]; writing over a buffer that decoded cannot fail;
    - transition: [apply_instruction] in closed form
      ([apply_instruction_spec]): the specification's wrapping transition,
      or a panic when the build checks overflow and the result leaves the
      range; its laws ([apply_instruction_laws]): [Set] absorbs,
      [Increment] and [Decrement] undo each other in the wrapping build,
      and the wrap-around, or the panic of the checked build, happens
      exactly on [u32::MAX] and on 0;
    - entry point: the function computes the relation
      ([process_instruction_invocation]); the order of the checks (decoding
      error, missing account, wrong owner, malformed data, arithmetic
      panic); a failed invocation leaves every buffer unchanged; a
      successful one rewrites the buffer of the first account only, keeps
      its length and keeps it decodable; aliases of the account see the
      write; what is logged; when it can panic (an overflow in a checked
      build, or a borrow that a caller holds across the call:
      [process_panics], [process_borrowed]); the checked build
      agrees with the wrapping one wherever it does not panic;
    - sequences: the store refines one counter per buffer
      ([ledger_refines_counter]); invariants of all reachable machines
      ([reachable_invariants]); a buffer is changed only by calls that
      decode, target it first and present an account the program owns
      ([run_calls_authorized]); the calls a client packs all succeed in the
      wrapping build and leave the counter the specification's transition
      gives ([run_calls_packed], with the scenario 0, 1, 2, 10, 9 as its
      instance); repeated increments in closed form, wrapping modulo
      [2^32] or stopping at [u32::MAX] with a panic
      ([run_calls_increments]);
    - arguments: the entry point reads the decoded instruction and the
      owner and data buffer of the first account, and nothing else of what
      it is passed ([process_instruction_reads]);
    - independence: the result of a call and what it writes are decided
      by the cell of its first account ([invocation_footprint]); two
      adjacent calls on different accounts can be swapped anywhere in a
      sequence ([run_calls_swap]), so that a list of calls on different
      accounts returns the same results and leaves the same stores in
      whatever order it is run ([run_calls_commute]), each call as if it
      ran alone ([run_calls_separate]); on one account the order matters
      ([same_account_order]);
    - interleaving: every statement reads and writes at most the cell of
      the account of its phase ([step_footprint]); when the calls are on
      different accounts every interleaving of their statements, once all
      have returned, has the results and the stores of the sequential run
      ([interleaving_serializable], by the invariant [pool_inv]);
    - trace: the log is a record of the calls: each call appends its
      entry line and then the report of a wrong owner or, on success, the
      counter it stored; the three texts tell the lines apart, so the log
      determines them ([run_calls_logs], [print_line_inj]);
    - phases: the sequences of steps from [Start] to
      [Done] are the rules of [invocation] ([steps_invocation]); in every
      intermediate configuration the lamports are untouched, the log has
      only grown, and the buffers are untouched until the counter is stored
      ([steps_keep_data_until_stored], by induction over the steps);
    - typing: the model computes on unbounded integers; in every
      configuration of a call the instruction payload and the counter are
      [u32] values, and a configuration that is not [Done] can step
      ([steps_well_typed]);
    - liveness: no sequence of calls can wedge an account: from every
      reachable machine one more call sets the counter to any value
      ([reachable_can_set]);
    - contract: the guarantees of the specification's [process] hold over
      every storage that meets the interface ([process_contract]), and
      every run of [process_instruction] that does not panic is the run of
      [process] on the program's storage, up to the log
      ([process_instruction_refines_process]);
    - exported entry point: the value the runtime reads, from the
      arguments of the call: each of the five values the entry point can
      return, with the condition under which it does
      ([entrypoint_exit_code]);
    - test: [test_sanity] passes exactly with the instruction buffers that
      decode to [Increment] ([test_sanity_passes_iff]); as written it
      sends an empty buffer, and fails.

    ** Bounds and fuel

    The code has no loop and no recursion, so there is no termination to
    prove of it; [run_calls] recurses on its list.  The only fuel is that
    of [Phases.run]: the entry point has eight statements, a step lowers
    the [rank] of the phase by at least one, and eight steps from [Start]
    reach [Done] with the result of [process_instruction]
    ([Phases.run_start]).  A schedule of [Interleaving.run_schedule] is a
    list of thread numbers of any length; an entry that names no thread, or
    a thread that has returned, does nothing.  [u32] values are
    integers [0 <= v <= U32_MAX] ([Word.u32_ok]); decoding produces only
    such values and the transition preserves them.  Bytes are [Byte.byte],
    in range by construction.  The build option [overflow-checks] decides
    whether [counter += 1] wraps or panics; it is the first argument of
    [apply_instruction], [process_instruction] and [run_calls], and the
    theorems cover both settings.

    ** Not modelled

    Every line of the two source files that has behaviour is modelled:
    the lines the development does not translate are the [use]
    declarations, the comments and the blank lines.  What is left out is
    outside the repository.

    The Solana runtime that calls the entry point (account loading, rent,
    signatures, the locking of accounts, the discarding of the writes of a
    failed transaction): it is neither in the repository nor described by
    the specification, which names it out of scope.  [Interleaving] does
    not model its scheduler: it quantifies over every order in which the
    statements of the calls can run, at the granularity of the statements
    of [process_instruction], and proves what holds of all of them for
    calls on different accounts; calls that share an account are left to
    the exclusive access that the specification assumes of the runtime.
    Of the [entrypoint!] macro,
    the parsing of the raw input buffer (unsafe library code on raw memory)
    and the heap and panic handlers it installs; [Entrypoint.entrypoint]
    starts from the parsed arguments.  The [derive(Debug)] attributes of
    the two files generate formatting code that the program never calls.
    The borrow state of a data cell is modelled as far as the program can
    observe it: every borrow in [process_instruction] is a temporary
    released at the end of its statement, so a statement checks the state
    and leaves it as it was; the lamports cell is never borrowed by the
    program and has no borrow state.  A reference that names no cell of the
    store cannot exist in Rust; the model returns [Panic DanglingReference]
    for it and the theorems on panics assume the account's buffer exists
    and is not borrowed ([account_valid]).  [ProgramError] (the four
    variants the program can return), [Pubkey], [AccountInfo],
    [next_account_info], [RefCell], the numbers of the errors and Borsh's
    [u32] encoder are library code outside [src/], modelled from their
    documented behaviour; an
    encoder is modelled by the bytes it writes, which is exact for the one
    [write_all] call of [GreetingAccount]. *)

From Stdlib Require Import ZArith Lia List String Strings.Byte.
From stdpp Require Import base tactics option list.

(** ** Outcomes of Rust computations *)

(** A Rust panic, by its cause.  A panic is not an [Err]: no caller of the
    program can match on it, the invocation aborts.  [DanglingReference] is
    not a panic of Rust, whose references are always valid: it is what the
    model returns when a reference names no cell of the (finite) store.
    [AlreadyBorrowed] and [AlreadyMutablyBorrowed] are the panics of
    [RefCell::borrow_mut] and [RefCell::borrow]. *)
Inductive panic : Type :=
| SliceIndexOutOfRange
| ArithmeticOverflow
| UnwrapOnErr
| AssertionFailed
| DanglingReference
| AlreadyBorrowed
| AlreadyMutablyBorrowed.

#[export] Instance panic_eq_dec : EqDecision panic.
Proof. solve_decision. Defined.

(** The result of running a Rust expression of type [Result<A, E>]. *)
Inductive outcome (E A : Type) : Type :=
| Ok (a : A)
| Err (e : E)
| Panic (p : panic).

Arguments Ok {E A} a.
Arguments Err {E A} e.
Arguments Panic {E A} p.

#[export] Instance outcome_eq_dec {E A} `{EqDecision E, EqDecision A} :
  EqDecision (outcome E A).
Proof. solve_decision. Defined.

(** Rust's [?] operator followed by the rest of the block. *)
Definition obind {E A B} (m : outcome E A) (k : A -> outcome E B) : outcome E B :=
  match m with
  | Ok a => k a
  | Err e => Err e
  | Panic p => Panic p
  end.

(** [opt.ok_or(e)]. *)
Definition ok_or {E A} (o : option A) (e : E) : outcome E A :=
  match o with
  | Some a => Ok a
  | None => Err e
  end.

(** The [From] conversion that [?] applies to the error. *)
Definition map_err {E E' A} (f : E -> E') (m : outcome E A) : outcome E' A :=
  match m with
  | Ok a => Ok a
  | Err e => Err (f e)
  | Panic p => Panic p
  end.

Definition is_ok {E A} (m : outcome E A) : bool :=
  match m with Ok _ => true | _ => false end.

Definition is_panic {E A} (m : outcome E A) : bool :=
  match m with Panic _ => true | _ => false end.

Declare Scope outcome_scope.
Delimit Scope outcome_scope with outcome.

Notation "'let?' x ':=' m 'in' k" := (obind m (fun x => k))
  (at level 10, x pattern, m at level 100, k at level 200) : outcome_scope.

(** ** State and outcome

    A statement of the entry point runs on a machine state [S]; it returns
    the state as it is when the statement ends, whether it ends normally,
    with an early [return Err(..)] or with a panic. *)
Definition prog (S E A : Type) : Type := S -> S * outcome E A.

Definition pret {S E A} (a : A) : prog S E A := fun s => (s, Ok a).

Definition pbind {S E A B} (m : prog S E A) (k : A -> prog S E B) : prog S E B :=
  fun s =>
    match m s with
    | (s', Ok a) => k a s'
    | (s', Err e) => (s', Err e)
    | (s', Panic p) => (s', Panic p)
    end.

(** A pure fallible expression used as a statement. *)
Definition plift {S E A} (m : outcome E A) : prog S E A := fun s => (s, m).

(** [return Err(e)]. *)
Definition pfail {S E A} (e : E) : prog S E A := fun s => (s, Err e).

Definition pmodify {S E} (f : S -> S) : prog S E unit := fun s => (f s, Ok tt).

Declare Scope prog_scope.
Delimit Scope prog_scope with prog.

Notation "'do?' x '<-' m ';;' k" := (pbind m (fun x => k))
  (at level 10, x pattern, m at level 99, k at level 200) : prog_scope.
Notation "m ';;;' k" := (pbind m (fun _ => k))
  (at level 100, k at level 200, right associativity) : prog_scope.

(** ** Tactics and hints *)

Create HintDb hello discriminated.
Create Rewrite HintDb hello_rw.

(** Linear arithmetic with [/] and [mod] by constants. *)
Ltac zdm := Z.div_mod_to_equations; lia.

(** Normalises with the rewrite rules the components register: round trips
    of encodings, list identities, the monad laws. *)
Ltac simp_hello := autorewrite with hello_rw; try reflexivity.

(** Inverts equations between outcomes in the context. *)
Ltac inv_outcome :=
  repeat match goal with
  | H : Ok _ = Ok _ |- _ => injection H as H; subst
  | H : Err _ = Err _ |- _ => injection H as H; subst
  | H : Panic _ = Panic _ |- _ => injection H as H; subst
  | H : Ok _ = Err _ |- _ => discriminate H
  | H : Ok _ = Panic _ |- _ => discriminate H
  | H : Err _ = Ok _ |- _ => discriminate H
  | H : Err _ = Panic _ |- _ => discriminate H
  | H : Panic _ = Ok _ |- _ => discriminate H
  | H : Panic _ = Err _ |- _ => discriminate H
  | H : (_, _) = (_, _) |- _ => injection H as ? ?; subst
  end.

(** ** Laws of the two binds *)

Section Outcome.
Context {E A B C : Type}.

Lemma obind_ret_l (a : A) (k : A -> outcome E B) : obind (Ok a) k = k a.
Proof. reflexivity. Qed.

Lemma obind_assoc (m : outcome E A) (k : A -> outcome E B) (h : B -> outcome E C) :
  obind (obind m k) h = obind m (fun a => obind (k a) h).
Proof. destruct m; reflexivity. Qed.

Lemma obind_ret_r (m : outcome E A) : obind m Ok = m.
Proof. destruct m; reflexivity. Qed.

End Outcome.

#[export] Hint Rewrite @obind_ret_l @obind_assoc @obind_ret_r : hello_rw.

Section Prog.
Context {S E A B C : Type}.

Lemma pbind_pret_l (a : A) (k : A -> prog S E B) (s : S) :
  pbind (pret a) k s = k a s.
Proof. reflexivity. Qed.

Lemma pbind_pret_r (m : prog S E A) (s : S) : pbind m pret s = m s.
Proof. unfold pbind, pret. destruct (m s) as [s' [a|e|p]]; reflexivity. Qed.

Lemma pbind_assoc (m : prog S E A) (k : A -> prog S E B) (h : B -> prog S E C) (s : S) :
  pbind (pbind m k) h s = pbind m (fun a => pbind (k a) h) s.
Proof. unfold pbind. destruct (m s) as [s' [a|e|p]]; reflexivity. Qed.

(** A block runs its first statement and goes on from where it ended, or
    stops with it. *)
Lemma pbind_ok (m : prog S E A) (k : A -> prog S E B) (s s' : S) (a : A) :
  m s = (s', Ok a) -> pbind m k s = k a s'.
Proof. intros H. unfold pbind. rewrite H. reflexivity. Qed.

Lemma pbind_err (m : prog S E A) (k : A -> prog S E B) (s s' : S) (e : E) :
  m s = (s', Err e) -> pbind m k s = (s', Err e).
Proof. intros H. unfold pbind. rewrite H. reflexivity. Qed.

Lemma pbind_panic (m : prog S E A) (k : A -> prog S E B) (s s' : S) (p : panic) :
  m s = (s', Panic p) -> pbind m k s = (s', Panic p).
Proof. intros H. unfold pbind. rewrite H. reflexivity. Qed.

End Prog.

#[export] Hint Rewrite @pbind_pret_l @pbind_pret_r @pbind_assoc : hello_rw.

(** ** Lists of a known length *)

Section Lists.
Context {A : Type}.

Lemma length_4_inv (l : list A) :
  length l = 4%nat <-> exists a b c d, l = [a; b; c; d].
Proof.
  split.
  - destruct l as [|a [|b [|c [|d [|? ?]]]]]; simpl; intros; try discriminate.
    eauto.
  - intros (a & b & c & d & ->). reflexivity.
Qed.

Lemma take_all_eq (n : nat) (l : list A) : length l = n -> take n l = l.
Proof. intros <-. apply firstn_all. Qed.

Lemma take_app_length_eq (l k : list A) : take (length l) (l ++ k) = l.
Proof. induction l; simpl; [by destruct k | by f_equal]. Qed.

Lemma drop_app_length_eq (l k : list A) : drop (length l) (l ++ k) = k.
Proof. induction l; simpl; auto. Qed.

End Lists.

#[export] Hint Rewrite @take_app_length_eq @drop_app_length_eq @app_nil_r : hello_rw.
