(* ===== verification/Word.v ===== *)
(** * Machine integers, byte arrays and slices

    The integer types the program computes with, as Rust defines them:
    [u8] is [Byte.byte] (every value is a byte by construction), [u32] is an
    integer of [Z] in [0, 2^32) with the wrap-around written out.  The file
    gives [u32::from_le_bytes] and [u32::to_le_bytes] with a reference
    definition of the little-endian value of a byte list, the operators [+]
    and [-] on [u32] under either setting of the build option
    [overflow-checks], the range slice [s[..n]] (which panics out of range)
    and the conversion [try_into] from a slice to [[u8; 4]]. *)

From Stdlib Require Import ZArith Lia List String Strings.Byte.
From stdpp Require Import base tactics option list.
From S2P Require Import Prelude.

#[local] Open Scope Z_scope.

(** ** Bytes *)

Definition u8_to_Z (b : byte) : Z := Z.of_N (Byte.to_N b).

(** The truncating cast [z as u8]. *)
Definition u8_of_Z (z : Z) : byte :=
  match Byte.of_N (Z.to_N (z mod 256)) with
  | Some b => b
  | None => x00
  end.

#[export] Instance byte_eq_dec : EqDecision byte := Byte.byte_eq_dec.

(** ** [u32] *)

Definition U32_MAX : Z := 4294967295.

Definition u32_ok (v : Z) : Prop := 0 <= v <= U32_MAX.

#[export] Instance u32_ok_dec (v : Z) : Decision (u32_ok v).
Proof. unfold u32_ok. apply _. Defined.

Definition wrap32 (z : Z) : Z := z mod 2 ^ 32.

(** [a + b] on [u32]: the exact sum when it fits; otherwise a panic when the
    build has [overflow-checks], the sum modulo [2^32] when it has not. *)
Definition u32_add {E} (overflow_checks : bool) (a b : Z) : outcome E Z :=
  if a + b <=? U32_MAX then Ok (a + b)
  else if overflow_checks then Panic ArithmeticOverflow
  else Ok (wrap32 (a + b)).

(** [a - b] on [u32]. *)
Definition u32_sub {E} (overflow_checks : bool) (a b : Z) : outcome E Z :=
  if b <=? a then Ok (a - b)
  else if overflow_checks then Panic ArithmeticOverflow
  else Ok (wrap32 (a - b)).

(** ** Arrays of four bytes and little-endian encoding *)

(** The array type [[u8; 4]]. *)
Record array4 : Type := Array4 { a0 : byte; a1 : byte; a2 : byte; a3 : byte }.

#[export] Instance array4_eq_dec : EqDecision array4.
Proof. solve_decision. Defined.

Definition array4_to_list (a : array4) : list byte := [a0 a; a1 a; a2 a; a3 a].

(** [<[u8; 4]>::try_from(s)]: succeeds exactly on slices of length four. *)
Definition try_into_array4 (s : list byte) : option array4 :=
  match s with
  | [b0; b1; b2; b3] => Some (Array4 b0 b1 b2 b3)
  | _ => None
  end.

(** [s.split_first()]: the first element and the rest, [None] on the empty
    slice. *)
Definition split_first {A} (s : list A) : option (A * list A) :=
  match s with
  | [] => None
  | x :: rest => Some (x, rest)
  end.

(** The range slice [s[..n]]: panics when [n] exceeds the length. *)
Definition slice_to {E A} (n : nat) (s : list A) : outcome E (list A) :=
  if decide (n <= length s)%nat then Ok (take n s)
  else Panic SliceIndexOutOfRange.

(** [u32::from_le_bytes]. *)
Definition u32_from_le_bytes (a : array4) : Z :=
  Z.lor (Z.lor (Z.lor (u8_to_Z (a0 a))
                      (Z.shiftl (u8_to_Z (a1 a)) 8))
               (Z.shiftl (u8_to_Z (a2 a)) 16))
        (Z.shiftl (u8_to_Z (a3 a)) 24).

(** [u32::to_le_bytes]. *)
Definition u32_to_le_bytes (v : Z) : array4 :=
  Array4 (u8_of_Z v)
         (u8_of_Z (Z.shiftr v 8))
         (u8_of_Z (Z.shiftr v 16))
         (u8_of_Z (Z.shiftr v 24)).

(** Reference definition: the number a byte list denotes, least significant
    byte first. *)
Fixpoint le_value (bs : list byte) : Z :=
  match bs with
  | [] => 0
  | b :: bs' => u8_to_Z b + 256 * le_value bs'
  end.

(** ** Bytes: range and casts *)

Lemma u8_to_Z_range (b : byte) : 0 <= u8_to_Z b < 256.
Proof.
  unfold u8_to_Z. pose proof (Byte.to_N_bounded b). lia.
Qed.

Lemma u8_of_to_Z (b : byte) : u8_of_Z (u8_to_Z b) = b.
Proof.
  unfold u8_of_Z. rewrite Z.mod_small by apply u8_to_Z_range.
  unfold u8_to_Z. rewrite N2Z.id, Byte.of_to_N. reflexivity.
Qed.

Lemma u8_to_of_Z (z : Z) : u8_to_Z (u8_of_Z z) = z mod 256.
Proof.
  unfold u8_of_Z, u8_to_Z.
  assert (Hr : 0 <= z mod 256 < 256) by (apply Z.mod_pos_bound; lia).
  destruct (Byte.of_N (Z.to_N (z mod 256))) as [b|] eqn:Hb.
  - apply Byte.to_of_N in Hb. rewrite Hb. lia.
  - apply Byte.of_N_None_iff in Hb. lia.
Qed.

Lemma u8_to_Z_inj (b c : byte) : u8_to_Z b = u8_to_Z c -> b = c.
Proof.
  intros H. rewrite <- (u8_of_to_Z b), <- (u8_of_to_Z c), H. reflexivity.
Qed.

#[export] Hint Rewrite u8_of_to_Z u8_to_of_Z : hello_rw.
#[export] Hint Resolve u8_to_Z_range : hello.

(** ** Bitwise or of disjoint ranges is addition *)

Lemma land_shiftl_small (a b n : Z) :
  0 <= n -> 0 <= a < 2 ^ n -> Z.land a (Z.shiftl b n) = 0.
Proof.
  intros Hn Ha. apply Z.bits_inj'. intros m Hm.
  rewrite Z.land_spec, Z.bits_0.
  destruct (Z.lt_ge_cases m n) as [Hlt | Hge].
  - rewrite Z.shiftl_spec_low by assumption. apply andb_false_r.
  - rewrite (proj1 (Z.bounded_iff_bits_nonneg' n a Hn (proj1 Ha)) Ha m Hge).
    reflexivity.
Qed.

Lemma lor_shiftl_add (a b n : Z) :
  0 <= n -> 0 <= a < 2 ^ n -> Z.lor a (Z.shiftl b n) = a + b * 2 ^ n.
Proof.
  intros Hn Ha.
  rewrite <- Z.add_nocarry_lor by (apply land_shiftl_small; assumption).
  rewrite Z.shiftl_mul_pow2 by assumption. reflexivity.
Qed.

(** ** Little-endian encoding *)

(** [from_le_bytes] as a sum of weighted bytes. *)
Lemma u32_from_le_bytes_sum (a : array4) :
  u32_from_le_bytes a =
  u8_to_Z (a0 a) + 256 * u8_to_Z (a1 a) + 65536 * u8_to_Z (a2 a)
  + 16777216 * u8_to_Z (a3 a).
Proof.
  unfold u32_from_le_bytes.
  pose proof (u8_to_Z_range (a0 a)). pose proof (u8_to_Z_range (a1 a)).
  pose proof (u8_to_Z_range (a2 a)). pose proof (u8_to_Z_range (a3 a)).
  rewrite (lor_shiftl_add (u8_to_Z (a0 a)) _ 8) by lia.
  rewrite (lor_shiftl_add _ _ 16) by lia.
  rewrite (lor_shiftl_add _ _ 24) by lia.
  lia.
Qed.

Lemma u32_to_le_bytes_div (v : Z) :
  u32_to_le_bytes v =
  Array4 (u8_of_Z v) (u8_of_Z (v / 256)) (u8_of_Z (v / 65536))
         (u8_of_Z (v / 16777216)).
Proof.
  unfold u32_to_le_bytes. rewrite !Z.shiftr_div_pow2 by lia. reflexivity.
Qed.

Lemma u32_from_le_bytes_ok (a : array4) : u32_ok (u32_from_le_bytes a).
Proof.
  rewrite u32_from_le_bytes_sum. unfold u32_ok, U32_MAX.
  pose proof (u8_to_Z_range (a0 a)). pose proof (u8_to_Z_range (a1 a)).
  pose proof (u8_to_Z_range (a2 a)). pose proof (u8_to_Z_range (a3 a)).
  lia.
Qed.

Lemma u32_from_le_bytes_le_value (a : array4) :
  u32_from_le_bytes a = le_value (array4_to_list a).
Proof. rewrite u32_from_le_bytes_sum. simpl. lia. Qed.

Lemma u32_from_to_le_bytes_wrap (v : Z) :
  u32_from_le_bytes (u32_to_le_bytes v) = wrap32 v.
Proof.
  rewrite u32_from_le_bytes_sum, u32_to_le_bytes_div. simpl.
  rewrite !u8_to_of_Z. unfold wrap32. zdm.
Qed.

Lemma u32_from_to_le_bytes (v : Z) :
  u32_ok v -> u32_from_le_bytes (u32_to_le_bytes v) = v.
Proof.
  intros Hv. rewrite u32_from_to_le_bytes_wrap. unfold wrap32.
  apply Z.mod_small. unfold u32_ok, U32_MAX in Hv. lia.
Qed.

Lemma u32_to_from_le_bytes (a : array4) :
  u32_to_le_bytes (u32_from_le_bytes a) = a.
Proof.
  rewrite u32_to_le_bytes_div, u32_from_le_bytes_sum. destruct a as [b0 b1 b2 b3].
  simpl.
  pose proof (u8_to_Z_range b0). pose proof (u8_to_Z_range b1).
  pose proof (u8_to_Z_range b2). pose proof (u8_to_Z_range b3).
  f_equal; apply u8_to_Z_inj; rewrite u8_to_of_Z; zdm.
Qed.

Lemma u32_from_le_bytes_inj (a b : array4) :
  u32_from_le_bytes a = u32_from_le_bytes b -> a = b.
Proof.
  intros H. rewrite <- (u32_to_from_le_bytes a), <- (u32_to_from_le_bytes b), H.
  reflexivity.
Qed.

#[export] Hint Rewrite u32_to_from_le_bytes u32_from_to_le_bytes_wrap : hello_rw.
#[export] Hint Resolve u32_from_le_bytes_ok : hello.

(** ** Arrays and slices *)

Lemma try_into_array4_some (s : list byte) (a : array4) :
  try_into_array4 s = Some a <-> s = array4_to_list a.
Proof.
  destruct a as [b0 b1 b2 b3]. unfold array4_to_list. simpl. split.
  - destruct s as [|c0 [|c1 [|c2 [|c3 [|? ?]]]]]; simpl; intros; simplify_eq.
    reflexivity.
  - intros ->. reflexivity.
Qed.

Lemma try_into_array4_is_some (s : list byte) :
  is_Some (try_into_array4 s) <-> length s = 4%nat.
Proof.
  rewrite length_4_inv. split.
  - intros [[b0 b1 b2 b3] Ha]. apply try_into_array4_some in Ha. eauto.
  - intros (b0 & b1 & b2 & b3 & ->). eexists. reflexivity.
Qed.

Lemma try_into_array4_to_list (a : array4) :
  try_into_array4 (array4_to_list a) = Some a.
Proof. destruct a. reflexivity. Qed.

Lemma length_array4_to_list (a : array4) : length (array4_to_list a) = 4%nat.
Proof. reflexivity. Qed.

Lemma split_first_some {A} (s rest : list A) (x : A) :
  split_first s = Some (x, rest) <-> s = x :: rest.
Proof. destruct s; simpl; split; intros; simplify_eq; reflexivity. Qed.

Lemma split_first_none {A} (s : list A) : split_first s = None <-> s = [].
Proof. destruct s; simpl; split; intros; simplify_eq; reflexivity. Qed.

Lemma slice_to_in_range {E A} (n : nat) (s : list A) :
  (n <= length s)%nat -> slice_to (E := E) n s = Ok (take n s).
Proof. intros H. unfold slice_to. rewrite decide_True by assumption. reflexivity. Qed.

Lemma slice_to_out_of_range {E A} (n : nat) (s : list A) :
  (length s < n)%nat -> slice_to (E := E) n s = Panic SliceIndexOutOfRange.
Proof. intros H. unfold slice_to. rewrite decide_False by lia. reflexivity. Qed.

#[export] Hint Rewrite try_into_array4_to_list : hello_rw.

(** ** Arithmetic *)

Section Arith.
Context {E : Type}.

Lemma wrap32_ok (z : Z) : u32_ok (wrap32 z).
Proof. unfold u32_ok, wrap32, U32_MAX. zdm. Qed.

Lemma wrap32_id (v : Z) : u32_ok v -> wrap32 v = v.
Proof. unfold u32_ok, wrap32, U32_MAX. intros. apply Z.mod_small. lia. Qed.

(** Whatever the build setting, a result of [+] is the sum modulo [2^32]. *)
Lemma u32_add_ok_wrap (oc : bool) (a b r : Z) :
  u32_ok a -> u32_ok b ->
  u32_add (E := E) oc a b = Ok r -> r = wrap32 (a + b) /\ u32_ok r.
Proof.
  unfold u32_add, u32_ok, U32_MAX. intros Ha Hb.
  destruct (Z.leb_spec (a + b) 4294967295); [|destruct oc]; intros Hr;
    inv_outcome; (split; [|try apply wrap32_ok; lia]);
    unfold wrap32; [symmetry; apply Z.mod_small; lia | reflexivity].
Qed.

Lemma u32_sub_ok_wrap (oc : bool) (a b r : Z) :
  u32_ok a -> u32_ok b ->
  u32_sub (E := E) oc a b = Ok r -> r = wrap32 (a - b) /\ u32_ok r.
Proof.
  unfold u32_sub, u32_ok, U32_MAX. intros Ha Hb.
  destruct (Z.leb_spec b a); [|destruct oc]; intros Hr;
    inv_outcome; (split; [|try apply wrap32_ok; lia]);
    unfold wrap32; [symmetry; apply Z.mod_small; lia | reflexivity].
Qed.

(** Without [overflow-checks] the operators are total. *)
Lemma u32_add_wrapping (a b : Z) :
  u32_ok a -> u32_ok b -> u32_add (E := E) false a b = Ok (wrap32 (a + b)).
Proof.
  unfold u32_add, u32_ok, U32_MAX, wrap32. intros Ha Hb.
  destruct (Z.leb_spec (a + b) 4294967295); [|reflexivity].
  rewrite Z.mod_small by lia. reflexivity.
Qed.

Lemma u32_sub_wrapping (a b : Z) :
  u32_ok a -> u32_ok b -> u32_sub (E := E) false a b = Ok (wrap32 (a - b)).
Proof.
  unfold u32_sub, u32_ok, U32_MAX, wrap32. intros Ha Hb.
  destruct (Z.leb_spec b a); [|reflexivity].
  rewrite Z.mod_small by lia. reflexivity.
Qed.

(** With [overflow-checks] they panic exactly when the exact result does not
    fit. *)
Lemma u32_add_checked_panics (a b : Z) :
  u32_add (E := E) true a b = Panic ArithmeticOverflow <-> U32_MAX < a + b.
Proof.
  unfold u32_add. destruct (Z.leb_spec (a + b) U32_MAX); split; intros;
    inv_outcome; try lia; reflexivity.
Qed.

Lemma u32_sub_checked_panics (a b : Z) :
  u32_sub (E := E) true a b = Panic ArithmeticOverflow <-> a < b.
Proof.
  unfold u32_sub. destruct (Z.leb_spec b a); split; intros;
    inv_outcome; try lia; reflexivity.
Qed.

Lemma u32_add_never_errs (oc : bool) (a b : Z) (e : E) : u32_add oc a b <> Err e.
Proof.
  unfold u32_add. destruct (a + b <=? U32_MAX), oc; discriminate.
Qed.

Lemma u32_sub_never_errs (oc : bool) (a b : Z) (e : E) : u32_sub oc a b <> Err e.
Proof.
  unfold u32_sub. destruct (b <=? a), oc; discriminate.
Qed.

End Arith.

#[export] Hint Resolve wrap32_ok : hello.
