(* ===== verification/Runtime.v ===== *)
(** * The Solana SDK types the program uses

    [ProgramError], [Pubkey], [AccountInfo], the log written by [msg!] and
    [next_account_info] are library code (crate [solana_program]); they are
    modelled here from their documented behaviour, to the extent the program
    uses them.  The data and the lamports of an account are behind
    [Rc<RefCell<..>>]: an [AccountInfo] holds references into a shared store,
    so two [AccountInfo]s of one slice may name the same buffer and a write
    through one is seen through the other.  A [RefCell] checks its borrows
    when the program runs: the store keeps the borrow state of each data
    cell, [borrow_data] and [borrow_data_mut] panic as [RefCell::borrow] and
    [RefCell::borrow_mut] do, and a caller that holds a borrow across the
    call is a machine whose flag is not [Unused]. *)

From Stdlib Require Import ZArith Lia List String Strings.Byte.
From stdpp Require Import base tactics option list gmap strings.
From S2P Require Import Prelude Word.

(** The causes of the [std::io::Error]s that Borsh returns and that [?]
    converts into [ProgramError::BorshIoError]. *)
Inductive io_error : Type :=
| UnexpectedLengthOfInput
| NotAllBytesRead
| WriteZero.

#[export] Instance io_error_eq_dec : EqDecision io_error.
Proof. solve_decision. Defined.

(** The variants of [ProgramError] that the program can return. *)
Inductive ProgramError : Type :=
| InvalidInstructionData
| IncorrectProgramId
| NotEnoughAccountKeys
| BorshIoError (e : io_error).

#[export] Instance ProgramError_eq_dec : EqDecision ProgramError.
Proof. solve_decision. Defined.

(** [Pubkey([u8; 32])]; the program only compares public keys. *)
Record Pubkey : Type := mkPubkey { pubkey_bytes : list byte }.

#[export] Instance Pubkey_eq_dec : EqDecision Pubkey.
Proof. solve_decision. Defined.

Definition Pubkey_default : Pubkey := mkPubkey (replicate 32 x00).

(** A reference to a cell of the store. *)
Definition loc : Type := positive.

Record AccountInfo : Type := mkAccountInfo {
  key : Pubkey;
  is_signer : bool;
  is_writable : bool;
  lamports : loc;
  data : loc;
  owner : Pubkey;
  executable : bool;
  rent_epoch : Z
}.

(** The borrow state of a [RefCell]: not borrowed, shared by [n] readers, or
    held by one writer. *)
Inductive borrow_flag : Type :=
| Unused
| Reading (n : positive)
| Writing.

#[export] Instance borrow_flag_eq_dec : EqDecision borrow_flag.
Proof. solve_decision. Defined.

(** The state an invocation runs on: the byte buffers and lamport balances
    that [AccountInfo]s refer to, the borrow state of the buffers' [RefCell]s
    (a cell without an entry is not borrowed), and the program log. *)
Record Machine : Type := mkMachine {
  data_store : gmap loc (list byte);
  lamports_store : gmap loc Z;
  borrow_flags : gmap loc borrow_flag;
  log : list string
}.

Definition Prog (A : Type) : Type := prog Machine ProgramError A.

(** The borrow state of the cell [l]. *)
Definition flag_of (m : Machine) (l : loc) : borrow_flag :=
  default Unused (borrow_flags m !! l).

(** The machine after one more line of log. *)
Definition logged (s : string) (m : Machine) : Machine :=
  mkMachine (data_store m) (lamports_store m) (borrow_flags m) (log m ++ [s]).

(** The machine after the buffer of [a] is replaced by [buf]. *)
Definition stored (a : AccountInfo) (buf : list byte) (m : Machine) : Machine :=
  mkMachine (<[data a := buf]> (data_store m)) (lamports_store m) (borrow_flags m)
    (log m).

(** [msg!(s)]: appends a line to the log. *)
Definition msg (s : string) : Prog unit := pmodify (logged s).

(** [account.data.borrow()] as a temporary: the current contents of the
    buffer; panics when the cell is mutably borrowed.  The guard is dropped
    at the end of the statement, so the borrow state is as before. *)
Definition borrow_data (a : AccountInfo) : Prog (list byte) :=
  fun m =>
    match data_store m !! data a with
    | Some buf =>
        if decide (flag_of m (data a) = Writing)
        then (m, Panic AlreadyMutablyBorrowed)
        else (m, Ok buf)
    | None => (m, Panic DanglingReference)
    end.

(** [account.data.borrow_mut()] as a temporary: the current contents of the
    buffer, to be overwritten by [write_data]; panics when the cell is
    borrowed in any way. *)
Definition borrow_data_mut (a : AccountInfo) : Prog (list byte) :=
  fun m =>
    match data_store m !! data a with
    | Some buf =>
        if decide (flag_of m (data a) = Unused)
        then (m, Ok buf)
        else (m, Panic AlreadyBorrowed)
    | None => (m, Panic DanglingReference)
    end.

(** Assignment through the guard of [borrow_data_mut]: replaces the contents
    of the buffer. *)
Definition write_data (a : AccountInfo) (buf : list byte) : Prog unit :=
  pmodify (stored a buf).

(** [next_account_info(iter)]: the next element of the iterator, with the
    iterator advanced. *)
Definition next_account_info (iter : list AccountInfo)
  : outcome ProgramError (AccountInfo * list AccountInfo) :=
  match iter with
  | a :: rest => Ok (a, rest)
  | [] => Err NotEnoughAccountKeys
  end.

(** The account's buffer exists in the store and nothing borrows it: the
    state of an account the runtime passes to the entry point. *)
Definition account_valid (m : Machine) (a : AccountInfo) : Prop :=
  is_Some (data_store m !! data a) /\ flag_of m (data a) = Unused.

#[export] Instance account_valid_dec m a : Decision (account_valid m a).
Proof. unfold account_valid. apply _. Defined.

(** ** Lemmas *)

Lemma msg_data_store (s : string) (m : Machine) :
  data_store (fst (msg s m)) = data_store m.
Proof. reflexivity. Qed.

Lemma msg_log (s : string) (m : Machine) : log (fst (msg s m)) = log m ++ [s].
Proof. reflexivity. Qed.

Lemma flag_of_logged (s : string) (m : Machine) (l : loc) :
  flag_of (logged s m) l = flag_of m l.
Proof. reflexivity. Qed.

Lemma flag_of_stored (a : AccountInfo) (buf : list byte) (m : Machine) (l : loc) :
  flag_of (stored a buf m) l = flag_of m l.
Proof. reflexivity. Qed.

(** A shared borrow succeeds unless a writer holds the cell. *)
Lemma borrow_data_valid (a : AccountInfo) (m : Machine) (buf : list byte) :
  data_store m !! data a = Some buf -> flag_of m (data a) <> Writing ->
  borrow_data a m = (m, Ok buf).
Proof. intros H Hf. unfold borrow_data. rewrite H, decide_False by exact Hf. reflexivity. Qed.

Lemma borrow_data_writing (a : AccountInfo) (m : Machine) (buf : list byte) :
  data_store m !! data a = Some buf -> flag_of m (data a) = Writing ->
  borrow_data a m = (m, Panic AlreadyMutablyBorrowed).
Proof. intros H Hf. unfold borrow_data. rewrite H, decide_True by exact Hf. reflexivity. Qed.

(** A mutable borrow succeeds only on a cell that nothing borrows. *)
Lemma borrow_data_mut_valid (a : AccountInfo) (m : Machine) (buf : list byte) :
  data_store m !! data a = Some buf -> flag_of m (data a) = Unused ->
  borrow_data_mut a m = (m, Ok buf).
Proof.
  intros H Hf. unfold borrow_data_mut. rewrite H, decide_True by exact Hf. reflexivity.
Qed.

Lemma borrow_data_mut_borrowed (a : AccountInfo) (m : Machine) (buf : list byte) :
  data_store m !! data a = Some buf -> flag_of m (data a) <> Unused ->
  borrow_data_mut a m = (m, Panic AlreadyBorrowed).
Proof.
  intros H Hf. unfold borrow_data_mut. rewrite H, decide_False by exact Hf. reflexivity.
Qed.

Lemma borrow_data_state (a : AccountInfo) (m : Machine) :
  fst (borrow_data a m) = m.
Proof.
  unfold borrow_data. destruct (data_store m !! data a); [case_decide|]; reflexivity.
Qed.

Lemma borrow_data_mut_state (a : AccountInfo) (m : Machine) :
  fst (borrow_data_mut a m) = m.
Proof.
  unfold borrow_data_mut. destruct (data_store m !! data a); [case_decide|]; reflexivity.
Qed.

(** A write through one [AccountInfo] is read through every alias of it and
    through no other account. *)
Lemma write_data_read (a b : AccountInfo) (buf : list byte) (m : Machine) :
  data_store (fst (write_data a buf m)) !! data b =
  if decide (data a = data b) then Some buf else data_store m !! data b.
Proof. simpl. apply lookup_insert. Qed.

Lemma write_data_valid (a b : AccountInfo) (buf : list byte) (m : Machine) :
  account_valid m b -> account_valid (fst (write_data a buf m)) b.
Proof.
  unfold account_valid. rewrite write_data_read. intros [Hd Hf].
  split; [case_decide; eauto | exact Hf].
Qed.

Lemma next_account_info_ok (iter rest : list AccountInfo) (a : AccountInfo) :
  next_account_info iter = Ok (a, rest) <-> iter = a :: rest.
Proof.
  destruct iter; simpl; split; intros; inv_outcome; simplify_eq; reflexivity.
Qed.

#[export] Hint Rewrite msg_data_store msg_log borrow_data_state borrow_data_mut_state
  flag_of_logged flag_of_stored : hello_rw.
#[export] Hint Resolve write_data_valid : hello.
