(* ===== verification/Instruction.v ===== *)
(** * The instruction decoder ([instruction.rs])

    [HelloInstruction] and [HelloInstruction::unpack], translated statement
    by statement: the tag is split off with [split_first], tags 0 and 1
    return at once whatever follows, tag 2 checks that exactly four bytes
    follow, slices them, converts the slice to an array and reads it as a
    little-endian [u32].  [pack] is the encoder a client uses; it is not in
    the repository and is written from the wire format, as the reference
    inverse of [unpack].

    The constructor [Set] of the source is [Set_] here ([Set] is a sort of
    the logic). *)

From Stdlib Require Import ZArith Lia List String Strings.Byte.
From stdpp Require Import base tactics option list.
From S2P Require Import Prelude Word Runtime.

#[local] Open Scope outcome_scope.

Inductive HelloInstruction : Type :=
| Increment
| Decrement
| Set_ (value : Z).

#[export] Instance HelloInstruction_eq_dec : EqDecision HelloInstruction.
Proof. solve_decision. Defined.

(** The payload of an instruction is a [u32]. *)
Definition instruction_ok (i : HelloInstruction) : Prop :=
  match i with
  | Set_ value => u32_ok value
  | _ => True
  end.

#[export] Instance instruction_ok_dec i : Decision (instruction_ok i).
Proof. destruct i; simpl; apply _. Defined.

(** The arm [2 => { .. }] of [unpack]: [rest] is what follows the tag. *)
Definition unpack_set (rest : list byte) : outcome ProgramError HelloInstruction :=
  if decide (length rest <> 4%nat) then Err InvalidInstructionData
  else
    let? s := slice_to 4 rest in
    match try_into_array4 s with
    | Some value => Ok (Set_ (u32_from_le_bytes value))
    | None => Err InvalidInstructionData
    end.

(** [HelloInstruction::unpack]. *)
Definition unpack (input : list byte) : outcome ProgramError HelloInstruction :=
  let? (tag, rest) := ok_or (split_first input) InvalidInstructionData in
  match tag with
  | x00 => Ok Increment
  | x01 => Ok Decrement
  | x02 => unpack_set rest
  | _ => Err InvalidInstructionData
  end.

(** The wire format, as a client writes it. *)
Definition pack (i : HelloInstruction) : list byte :=
  match i with
  | Increment => [x00]
  | Decrement => [x01]
  | Set_ value => x02 :: array4_to_list (u32_to_le_bytes value)
  end.

(** ** The arm of tag 2 *)

Lemma unpack_set_exact (a : array4) :
  unpack_set (array4_to_list a) = Ok (Set_ (u32_from_le_bytes a)).
Proof.
  unfold unpack_set. rewrite decide_False by (rewrite length_array4_to_list; auto).
  rewrite slice_to_in_range by (rewrite length_array4_to_list; lia).
  cbn [obind]. rewrite take_all_eq by apply length_array4_to_list.
  rewrite try_into_array4_to_list. reflexivity.
Qed.

Lemma unpack_set_length_4 (rest : list byte) :
  length rest = 4%nat ->
  exists a, rest = array4_to_list a /\ unpack_set rest = Ok (Set_ (u32_from_le_bytes a)).
Proof.
  intros (b0 & b1 & b2 & b3 & ->)%length_4_inv.
  exists (Array4 b0 b1 b2 b3). split; [reflexivity|].
  apply (unpack_set_exact (Array4 b0 b1 b2 b3)).
Qed.

Lemma unpack_set_bad_length (rest : list byte) :
  length rest <> 4%nat -> unpack_set rest = Err InvalidInstructionData.
Proof. intros H. unfold unpack_set. rewrite decide_True by assumption. reflexivity. Qed.

(** The three possible shapes of a result of the arm. *)
Lemma unpack_set_cases (rest : list byte) :
  (length rest <> 4%nat /\ unpack_set rest = Err InvalidInstructionData) \/
  (exists a, rest = array4_to_list a /\
             unpack_set rest = Ok (Set_ (u32_from_le_bytes a))).
Proof.
  destruct (decide (length rest = 4%nat)) as [H4 | H4].
  - right. apply unpack_set_length_4, H4.
  - left. split; [assumption | apply unpack_set_bad_length, H4].
Qed.

(** ** [unpack] on every shape of input *)

Lemma unpack_empty : unpack [] = Err InvalidInstructionData.
Proof. reflexivity. Qed.

Lemma unpack_increment (rest : list byte) : unpack (x00 :: rest) = Ok Increment.
Proof. reflexivity. Qed.

Lemma unpack_decrement (rest : list byte) : unpack (x01 :: rest) = Ok Decrement.
Proof. reflexivity. Qed.

Lemma unpack_tag_2 (rest : list byte) : unpack (x02 :: rest) = unpack_set rest.
Proof. reflexivity. Qed.

Lemma unpack_unknown_tag (tag : byte) (rest : list byte) :
  tag <> x00 -> tag <> x01 -> tag <> x02 ->
  unpack (tag :: rest) = Err InvalidInstructionData.
Proof. intros H0 H1 H2. destruct tag; try reflexivity; congruence. Qed.

(** Case analysis on an instance [H] of [unpack_cases], with the result of
    [unpack] rewritten everywhere. *)
Ltac case_unpack H :=
  let Hu := fresh "Hunpack" in
  destruct H
    as [[_ Hu] | [(? & _ & Hu) | [(? & _ & Hu) | [(? & _ & Hu) | (? & ? & _ & _ & _ & _ & Hu)]]]];
  rewrite ?Hu in *.

(** Every input falls in one of five classes, and the class decides the
    result. *)
Lemma unpack_cases (input : list byte) :
  (input = [] /\ unpack input = Err InvalidInstructionData) \/
  (exists rest, input = x00 :: rest /\ unpack input = Ok Increment) \/
  (exists rest, input = x01 :: rest /\ unpack input = Ok Decrement) \/
  (exists a, input = x02 :: array4_to_list a /\
             unpack input = Ok (Set_ (u32_from_le_bytes a))) \/
  (exists tag rest, input = tag :: rest /\
     (tag = x02 -> length rest <> 4%nat) /\ tag <> x00 /\ tag <> x01 /\
     unpack input = Err InvalidInstructionData).
Proof.
  destruct input as [|tag rest]; [left; auto|right].
  destruct (decide (tag = x00)) as [-> | H0]; [left; eauto|right].
  destruct (decide (tag = x01)) as [-> | H1]; [left; eauto|right].
  destruct (decide (tag = x02)) as [-> | H2].
  - rewrite unpack_tag_2.
    destruct (unpack_set_cases rest) as [[Hl He] | (a & -> & Ho)].
    + right. exists x02, rest. rewrite He. auto.
    + left. eauto.
  - right. exists tag, rest. rewrite unpack_unknown_tag by assumption. tauto.
Qed.

Lemma unpack_not_panic (input : list byte) (p : panic) : unpack input <> Panic p.
Proof. case_unpack (unpack_cases input); discriminate. Qed.

Lemma unpack_ok_instruction_ok (input : list byte) (i : HelloInstruction) :
  unpack input = Ok i -> instruction_ok i.
Proof.
  case_unpack (unpack_cases input); intros; inv_outcome; simpl; auto.
  apply u32_from_le_bytes_ok.
Qed.

(** ** The decoder's contract

    [decode] is the decoder as the specification states it: a function from
    byte sequences to an optional operation, with no slicing, no conversion
    and no early return. *)
Definition decode (bytes : list byte) : option HelloInstruction :=
  match bytes with
  | x00 :: _ => Some Increment
  | x01 :: _ => Some Decrement
  | [x02; b0; b1; b2; b3] => Some (Set_ (le_value [b0; b1; b2; b3]))
  | _ => None
  end.

Lemma decode_set (rest : list byte) :
  decode (x02 :: rest) =
  if decide (length rest = 4%nat) then Some (Set_ (le_value rest)) else None.
Proof.
  destruct rest as [|b0 [|b1 [|b2 [|b3 [|b4 rest]]]]]; reflexivity.
Qed.

Lemma unpack_set_le_value (rest : list byte) :
  unpack_set rest =
  if decide (length rest = 4%nat) then Ok (Set_ (le_value rest))
  else Err InvalidInstructionData.
Proof.
  destruct (unpack_set_cases rest) as [[Hl ->] | (a & -> & ->)].
  - rewrite decide_False by assumption. reflexivity.
  - rewrite decide_True by apply length_array4_to_list.
    rewrite u32_from_le_bytes_le_value. reflexivity.
Qed.

Lemma unpack_decode (input : list byte) :
  unpack input = ok_or (decode input) InvalidInstructionData.
Proof.
  destruct input as [|tag rest]; [reflexivity|].
  destruct (decide (tag = x02)) as [-> | H2].
  - rewrite unpack_tag_2, unpack_set_le_value, decode_set.
    case_decide; reflexivity.
  - destruct tag; try reflexivity; congruence.
Qed.

(** A decoding error is [InvalidInstructionData]. *)
Lemma unpack_err (input : list byte) (e : ProgramError) :
  unpack input = Err e -> e = InvalidInstructionData /\ decode input = None.
Proof.
  rewrite unpack_decode. destruct (decode input); simpl; intros; inv_outcome. auto.
Qed.

Lemma unpack_ok_decode (input : list byte) (i : HelloInstruction) :
  unpack input = Ok i <-> decode input = Some i.
Proof.
  rewrite unpack_decode. destruct (decode input); simpl; split; intros;
    inv_outcome; simplify_eq; reflexivity.
Qed.

(** C5: [unpack] implements the decoder of the wire format: on every input
    it returns what [decode] returns, with [InvalidInstructionData] for the
    inputs [decode] rejects. *)
Theorem unpack_refines_decode (input : list byte) :
  unpack input = ok_or (decode input) InvalidInstructionData.
Proof. exact (unpack_decode input). Qed.

(** C8: [unpack] never panics, although it slices [rest[..4]]: the length
    test before the slice keeps the index in range. *)
Theorem unpack_never_panics (input : list byte) :
  is_panic (unpack input) = false /\
  forall rest, is_panic (unpack_set rest) = false.
Proof.
  split; [case_unpack (unpack_cases input); reflexivity|].
  intros rest. destruct (unpack_set_cases rest) as [[_ ->] | (a & _ & ->)]; reflexivity.
Qed.

(** With tag 2, [unpack] succeeds exactly when four bytes follow, and the
    value is those bytes read as a little-endian [u32]. *)
Lemma unpack_set_exactly (rest : list byte) (i : HelloInstruction) :
  unpack (x02 :: rest) = Ok i <->
  exists a, rest = array4_to_list a /\ i = Set_ (u32_from_le_bytes a).
Proof.
  rewrite unpack_tag_2. split.
  - destruct (unpack_set_cases rest) as [[_ ->] | (a & -> & ->)];
      intros; inv_outcome. eauto.
  - intros (a & -> & ->). apply unpack_set_exact.
Qed.

(** C6: with tag 2, a payload whose length is not four (shorter or longer)
    is rejected with [InvalidInstructionData]: nothing is truncated or
    padded. *)
Theorem unpack_set_rejects_length (rest : list byte) :
  length rest <> 4%nat -> unpack (x02 :: rest) = Err InvalidInstructionData.
Proof. intros H. rewrite unpack_tag_2. apply unpack_set_bad_length, H. Qed.

Lemma unpack_set_rejects_length_witness :
  unpack [x02; x0a; x00; x00; x00; x00] = Err InvalidInstructionData /\
  unpack [x02; x0a; x00; x00] = Err InvalidInstructionData.
Proof.
  split; apply unpack_set_rejects_length; simpl; lia.
Defined.

(** C36: the wire format, row by row: the empty input is rejected; tags 0
    and 1 decode to [Increment] and [Decrement] whatever bytes follow; tag 2
    decodes exactly when four bytes follow, to [Set_] of those bytes read as
    a little-endian [u32]; every other tag is rejected with
    [InvalidInstructionData]. *)
Theorem unpack_wire_format (tag : byte) (rest : list byte) (i : HelloInstruction) :
  unpack [] = Err InvalidInstructionData /\
  unpack (x00 :: rest) = Ok Increment /\
  unpack (x01 :: rest) = Ok Decrement /\
  (unpack (x02 :: rest) = Ok i <->
   exists a, rest = array4_to_list a /\ i = Set_ (u32_from_le_bytes a)) /\
  (tag <> x00 -> tag <> x01 -> tag <> x02 ->
   unpack (tag :: rest) = Err InvalidInstructionData).
Proof.
  repeat apply conj; [apply unpack_empty | apply unpack_increment | apply unpack_decrement
                     | apply unpack_set_exactly.. | apply unpack_unknown_tag].
Qed.

(** Every result of [unpack] is either [Err InvalidInstructionData] or
    an instruction whose payload is a [u32]; no other error is produced. *)
Theorem unpack_total (input : list byte) :
  unpack input = Err InvalidInstructionData \/
  exists i, unpack input = Ok i /\ instruction_ok i.
Proof.
  destruct (unpack_cases input)
    as [[_ H] | [(r & _ & H) | [(r & _ & H) | [(a & _ & H) | (t & r & _ & _ & _ & _ & H)]]]];
    rewrite H; eauto; right; eexists; (split; [reflexivity|]); simpl; auto.
  apply u32_from_le_bytes_ok.
Qed.

Lemma unpack_pack_set (v : Z) : u32_ok v -> unpack (pack (Set_ v)) = Ok (Set_ v).
Proof.
  intros Hv. cbn [pack].
  rewrite unpack_tag_2, unpack_set_exact, u32_from_to_le_bytes by assumption.
  reflexivity.
Qed.

(** What a client packs, the program unpacks. *)
Lemma unpack_pack (i : HelloInstruction) : instruction_ok i -> unpack (pack i) = Ok i.
Proof. destruct i as [| |v]; [reflexivity..|exact (unpack_pack_set v)]. Qed.

(** C31: [unpack] and [pack] are inverse up to the bytes [unpack] ignores:
    decoding the encoding of an instruction whose payload is a [u32] gives
    the instruction back, and an input that decodes to [i] starts with
    [pack i], and is [pack i] exactly when [i] carries a value. *)
Theorem unpack_pack_inverse (input : list byte) (i : HelloInstruction) :
  (instruction_ok i -> unpack (pack i) = Ok i) /\
  (unpack input = Ok i ->
   exists trailing, input = pack i ++ trailing /\
     (forall v, i = Set_ v -> trailing = [])).
Proof.
  split; [exact (unpack_pack i)|].
  destruct (unpack_cases input)
      as [[_ H] | [(r & -> & H) | [(r & -> & H) | [(a & -> & H) | (t & r & _ & _ & _ & _ & H)]]]];
    rewrite H; intros; inv_outcome.
  - exists r. split; [reflexivity | discriminate].
  - exists r. split; [reflexivity | discriminate].
  - exists []. cbn [pack]. simp_hello. auto.
Qed.

Lemma unpack_pack_inverse_witness :
  unpack (pack (Set_ 10)) = Ok (Set_ 10) /\
  exists trailing, [x00; x07; x08] = pack Increment ++ trailing /\
    (forall v, Increment = Set_ v -> trailing = []).
Proof.
  split.
  - apply (unpack_pack_inverse []). simpl. unfold u32_ok, U32_MAX. lia.
  - by apply (unpack_pack_inverse [x00; x07; x08] Increment).
Defined.

#[export] Hint Resolve unpack_ok_instruction_ok : hello.
