(* ===== verification/Greeting.v ===== *)
(** * The account state and its Borsh encoding ([lib.rs], [GreetingAccount])

    [GreetingAccount] derives [BorshSerialize] and [BorshDeserialize].  The
    class [BorshCodec] states what a Borsh encoding promises (the encoding is
    canonical: decoding inverts encoding and encoding inverts decoding); the
    generic [try_from_slice] and the writing of an encoding into a mutable
    slice are defined and proved against the class, and the instances for
    [u32] and for [GreetingAccount] discharge it.

    An encoder is modelled by the bytes it hands to the writer.  The derived
    encoder of [GreetingAccount] makes one call of [write_all], so this is
    exact for it, partial writes of a failing call included. *)

From Stdlib Require Import ZArith Lia List String Strings.Byte.
From stdpp Require Import base tactics option list.
From S2P Require Import Prelude Word Runtime.

#[local] Open Scope outcome_scope.

(** ** The interface of an encoding *)

Class BorshCodec (A : Type) : Type := {
  (** the values of the Rust type *)
  codec_ok : A -> Prop;
  (** [BorshDeserialize::deserialize]: reads a value from the front of the
      buffer and returns the rest *)
  deserialize : list byte -> outcome io_error (A * list byte);
  (** the bytes [BorshSerialize::serialize] writes *)
  serialize : A -> list byte;
  deserialize_serialize x rest :
    codec_ok x -> deserialize (serialize x ++ rest) = Ok (x, rest);
  serialize_deserialize buf x rest :
    deserialize buf = Ok (x, rest) -> buf = serialize x ++ rest /\ codec_ok x;
  deserialize_never_panics buf : is_panic (deserialize buf) = false
}.

(** [BorshDeserialize::try_from_slice]: the whole slice must be consumed. *)
Definition try_from_slice {A} `{BorshCodec A} (v : list byte) : outcome io_error A :=
  let? (result, rest) := deserialize v in
  match rest with
  | [] => Ok result
  | _ :: _ => Err NotAllBytesRead
  end.

(** [impl Write for &mut [u8]], [write_all]: copies as much of [data] as the
    slice has room for, and fails when that is not all of it.  The first
    component is the slice's contents afterwards. *)
Definition write_all (data buf : list byte) : list byte * outcome io_error unit :=
  let amt := Nat.min (length data) (length buf) in
  (take amt data ++ drop amt buf,
   if decide (amt = length data) then Ok tt else Err WriteZero).

(** [x.serialize(&mut &mut buf[..])]. *)
Definition serialize_into {A} `{BorshCodec A} (x : A) (buf : list byte)
  : list byte * outcome io_error unit :=
  write_all (serialize x) buf.

(** ** [u32] *)

(** Borsh's [deserialize] for [u32]. *)
Definition u32_deserialize (buf : list byte) : outcome io_error (Z * list byte) :=
  if decide (length buf < 4)%nat then Err UnexpectedLengthOfInput
  else
    let? s := slice_to 4 buf in
    match try_into_array4 s with
    | Some a => Ok (u32_from_le_bytes a, drop 4 buf)
    | None => Panic UnwrapOnErr
    end.

(** Borsh's [serialize] for [u32]: [writer.write_all(&self.to_le_bytes())]. *)
Definition u32_serialize (v : Z) : list byte := array4_to_list (u32_to_le_bytes v).

(** ** [GreetingAccount] *)

Record GreetingAccount : Type := mkGreetingAccount { counter : Z }.

#[export] Instance GreetingAccount_eq_dec : EqDecision GreetingAccount.
Proof. solve_decision. Defined.

Definition greeting_ok (g : GreetingAccount) : Prop := u32_ok (counter g).

#[export] Instance greeting_ok_dec g : Decision (greeting_ok g).
Proof. unfold greeting_ok. apply _. Defined.

(** The derived [deserialize]: the fields in declaration order. *)
Definition GreetingAccount_deserialize (buf : list byte)
  : outcome io_error (GreetingAccount * list byte) :=
  let? (c, rest) := u32_deserialize buf in
  Ok (mkGreetingAccount c, rest).

(** The derived [serialize]. *)
Definition GreetingAccount_serialize (g : GreetingAccount) : list byte :=
  u32_serialize (counter g).

(** ** The [u32] encoding is canonical *)

Lemma u32_deserialize_short (buf : list byte) :
  (length buf < 4)%nat -> u32_deserialize buf = Err UnexpectedLengthOfInput.
Proof. intros H. unfold u32_deserialize. rewrite decide_True by assumption. reflexivity. Qed.

Lemma u32_deserialize_app (a : array4) (rest : list byte) :
  u32_deserialize (array4_to_list a ++ rest) = Ok (u32_from_le_bytes a, rest).
Proof. destruct a. reflexivity. Qed.

(** A buffer of at least four bytes starts with an array. *)
Lemma length_ge_4_inv (buf : list byte) :
  (4 <= length buf)%nat -> exists a rest, buf = array4_to_list a ++ rest.
Proof.
  destruct buf as [|b0 [|b1 [|b2 [|b3 rest]]]]; simpl; intros; try lia.
  exists (Array4 b0 b1 b2 b3), rest. reflexivity.
Qed.

Lemma u32_deserialize_cases (buf : list byte) :
  ((length buf < 4)%nat /\ u32_deserialize buf = Err UnexpectedLengthOfInput) \/
  (exists a rest, buf = array4_to_list a ++ rest /\
                  u32_deserialize buf = Ok (u32_from_le_bytes a, rest)).
Proof.
  destruct (decide (length buf < 4)%nat) as [Hs | Hl].
  - left. split; [assumption | apply u32_deserialize_short, Hs].
  - right. destruct (length_ge_4_inv buf) as (a & rest & ->); [lia|].
    exists a, rest. split; [reflexivity | apply u32_deserialize_app].
Qed.

Lemma u32_deserialize_serialize (v : Z) (rest : list byte) :
  u32_ok v -> u32_deserialize (u32_serialize v ++ rest) = Ok (v, rest).
Proof.
  intros Hv. unfold u32_serialize.
  rewrite u32_deserialize_app, u32_from_to_le_bytes by assumption. reflexivity.
Qed.

Lemma u32_serialize_deserialize (buf : list byte) (v : Z) (rest : list byte) :
  u32_deserialize buf = Ok (v, rest) -> buf = u32_serialize v ++ rest /\ u32_ok v.
Proof.
  destruct (u32_deserialize_cases buf) as [[_ ->] | (a & r & -> & ->)];
    intros; inv_outcome.
  unfold u32_serialize. simp_hello. split; [reflexivity | auto with hello].
Qed.

Lemma u32_deserialize_never_panics (buf : list byte) :
  is_panic (u32_deserialize buf) = false.
Proof.
  destruct (u32_deserialize_cases buf) as [[_ ->] | (a & r & -> & ->)]; reflexivity.
Qed.

#[export] Instance u32_codec : BorshCodec Z := {|
  codec_ok := u32_ok;
  deserialize := u32_deserialize;
  serialize := u32_serialize;
  deserialize_serialize := u32_deserialize_serialize;
  serialize_deserialize := u32_serialize_deserialize;
  deserialize_never_panics := u32_deserialize_never_panics
|}.

Lemma GreetingAccount_deserialize_serialize (g : GreetingAccount) (rest : list byte) :
  greeting_ok g ->
  GreetingAccount_deserialize (GreetingAccount_serialize g ++ rest) = Ok (g, rest).
Proof.
  destruct g as [c]. intros Hc.
  unfold GreetingAccount_deserialize, GreetingAccount_serialize.
  cbn [counter]. rewrite u32_deserialize_serialize by exact Hc. reflexivity.
Qed.

Lemma GreetingAccount_serialize_deserialize buf (g : GreetingAccount) rest :
  GreetingAccount_deserialize buf = Ok (g, rest) ->
  buf = GreetingAccount_serialize g ++ rest /\ greeting_ok g.
Proof.
  unfold GreetingAccount_deserialize, GreetingAccount_serialize, greeting_ok.
  destruct (u32_deserialize buf) as [[c r]| |] eqn:Hd; cbn [obind]; intros; inv_outcome.
  apply u32_serialize_deserialize, Hd.
Qed.

Lemma GreetingAccount_deserialize_never_panics (buf : list byte) :
  is_panic (GreetingAccount_deserialize buf) = false.
Proof.
  unfold GreetingAccount_deserialize.
  pose proof (u32_deserialize_never_panics buf) as Hp.
  destruct (u32_deserialize buf) as [[c r]| |]; simpl in *; congruence.
Qed.

#[export] Instance GreetingAccount_codec : BorshCodec GreetingAccount := {|
  codec_ok := greeting_ok;
  deserialize := GreetingAccount_deserialize;
  serialize := GreetingAccount_serialize;
  deserialize_serialize := GreetingAccount_deserialize_serialize;
  serialize_deserialize := GreetingAccount_serialize_deserialize;
  deserialize_never_panics := GreetingAccount_deserialize_never_panics
|}.

(** An encoding whose length does not depend on the value. *)
Class BorshFixedSize (A : Type) `{BorshCodec A} : Type := {
  encoded_len : nat;
  length_serialize x : length (serialize x) = encoded_len
}.

#[export] Instance u32_fixed_size : BorshFixedSize Z :=
  @Build_BorshFixedSize Z u32_codec 4 (fun v => eq_refl).

#[export] Instance GreetingAccount_fixed_size : BorshFixedSize GreetingAccount :=
  @Build_BorshFixedSize GreetingAccount GreetingAccount_codec 4 (fun g => eq_refl).

(** ** Writing into a slice *)

Lemma write_all_length (data buf : list byte) :
  length (fst (write_all data buf)) = length buf.
Proof.
  unfold write_all. simpl. rewrite length_app, length_take, length_drop. lia.
Qed.

Lemma write_all_fits (data buf : list byte) :
  (length data <= length buf)%nat ->
  write_all data buf = (data ++ drop (length data) buf, Ok tt).
Proof.
  intros H. unfold write_all. rewrite Nat.min_l by assumption.
  rewrite firstn_all, decide_True by reflexivity. reflexivity.
Qed.

Lemma write_all_exact (data buf : list byte) :
  length data = length buf -> write_all data buf = (data, Ok tt).
Proof.
  intros H. rewrite write_all_fits by lia.
  rewrite H, drop_all, app_nil_r. reflexivity.
Qed.

(** When the data does not fit, the slice is filled with its beginning and
    the call fails. *)
Lemma write_all_overflow (data buf : list byte) :
  (length buf < length data)%nat ->
  write_all data buf = (take (length buf) data, Err WriteZero).
Proof.
  intros H. unfold write_all. rewrite Nat.min_r by lia.
  rewrite drop_all, app_nil_r, decide_False by lia. reflexivity.
Qed.

(** ** Laws that hold for every encoding *)

Section Codec.
Context {A : Type} `{BorshCodec A}.

Lemma try_from_slice_ok_iff (buf : list byte) (x : A) :
  try_from_slice buf = Ok x <-> buf = serialize x /\ codec_ok x.
Proof.
  unfold try_from_slice. split.
  - destruct (deserialize buf) as [[y [|b rest]]| |] eqn:Hd; simpl; intros;
      inv_outcome.
    apply serialize_deserialize in Hd. rewrite app_nil_r in Hd. exact Hd.
  - intros [-> Hx]. rewrite <- (app_nil_r (serialize x)).
    rewrite deserialize_serialize by assumption. reflexivity.
Qed.

Lemma try_from_slice_serialize (x : A) :
  codec_ok x -> try_from_slice (serialize x) = Ok x.
Proof. intros Hx. apply try_from_slice_ok_iff. auto. Qed.

Lemma try_from_slice_never_panics (buf : list byte) :
  is_panic (try_from_slice buf) = false.
Proof.
  unfold try_from_slice. pose proof (deserialize_never_panics buf) as Hp.
  destruct (deserialize buf) as [[y [|b rest]]| |]; simpl in *; congruence.
Qed.

Lemma try_from_slice_trailing (x : A) (rest : list byte) :
  codec_ok x -> rest <> [] ->
  try_from_slice (serialize x ++ rest) = Err NotAllBytesRead.
Proof.
  intros Hx Hr. unfold try_from_slice. rewrite deserialize_serialize by assumption.
  destruct rest; [congruence | reflexivity].
Qed.

Context `{!BorshFixedSize A}.

Lemma try_from_slice_length (buf : list byte) (x : A) :
  try_from_slice buf = Ok x -> length buf = encoded_len.
Proof. intros [-> _]%try_from_slice_ok_iff. apply length_serialize. Qed.

(** Writing a value over a buffer that decoded cannot fail, and replaces the
    buffer by the value's encoding. *)
Lemma serialize_into_decoded (buf : list byte) (x y : A) :
  try_from_slice buf = Ok x -> serialize_into y buf = (serialize y, Ok tt).
Proof.
  intros Hx%try_from_slice_length. unfold serialize_into.
  apply write_all_exact. rewrite length_serialize, Hx. reflexivity.
Qed.

Lemma serialize_into_read_back (buf : list byte) (x y : A) :
  try_from_slice buf = Ok x -> codec_ok y ->
  try_from_slice (fst (serialize_into y buf)) = Ok y.
Proof.
  intros Hx Hy. rewrite (serialize_into_decoded buf x y Hx).
  apply try_from_slice_serialize, Hy.
Qed.

End Codec.

(** ** [GreetingAccount]: the buffers that decode *)

#[local] Ltac unfold_greeting :=
  unfold try_from_slice; cbn [deserialize GreetingAccount_codec];
  unfold GreetingAccount_deserialize.

Lemma u32_deserialize_length_4 (buf : list byte) :
  length buf = 4%nat -> u32_deserialize buf = Ok (le_value buf, []).
Proof.
  intros (b0 & b1 & b2 & b3 & ->)%length_4_inv.
  change [b0; b1; b2; b3] with (array4_to_list (Array4 b0 b1 b2 b3)).
  rewrite <- u32_from_le_bytes_le_value. reflexivity.
Qed.

Lemma greeting_try_from_slice_short (buf : list byte) :
  (length buf < 4)%nat ->
  try_from_slice (A := GreetingAccount) buf = Err UnexpectedLengthOfInput.
Proof.
  intros Hl. unfold_greeting.
  rewrite u32_deserialize_short by assumption. reflexivity.
Qed.

Lemma greeting_try_from_slice_long (buf : list byte) :
  (4 < length buf)%nat ->
  try_from_slice (A := GreetingAccount) buf = Err NotAllBytesRead.
Proof.
  intros Hl. destruct (length_ge_4_inv buf) as (a & rest & ->); [lia|].
  unfold_greeting.
  rewrite u32_deserialize_app. cbn [obind].
  destruct rest; [simpl in Hl; lia | reflexivity].
Qed.

(** Any other length is an error. *)
Lemma greeting_try_from_slice_bad_length (buf : list byte) :
  length buf <> 4%nat -> exists e, try_from_slice (A := GreetingAccount) buf = Err e.
Proof.
  intros Hl. destruct (decide (length buf < 4)%nat).
  - eexists. by apply greeting_try_from_slice_short.
  - eexists. apply greeting_try_from_slice_long. lia.
Qed.

Lemma greeting_try_from_slice_exact (buf : list byte) :
  length buf = 4%nat ->
  try_from_slice buf = Ok (mkGreetingAccount (le_value buf)).
Proof.
  intros Hl. unfold_greeting.
  rewrite u32_deserialize_length_4 by assumption. reflexivity.
Qed.

Lemma greeting_decoded_ok (buf : list byte) (g : GreetingAccount) :
  try_from_slice buf = Ok g -> greeting_ok g.
Proof. intros Hg. exact (proj2 (proj1 (try_from_slice_ok_iff buf g) Hg)). Qed.

Lemma greeting_decoded_length (buf : list byte) (g : GreetingAccount) :
  try_from_slice buf = Ok g -> length buf = 4%nat.
Proof. exact (try_from_slice_length buf g). Qed.

(** C29: [GreetingAccount::try_from_slice] accepts exactly the buffers of
    four bytes, reads them as a little-endian counter, and reports shorter
    and longer buffers with different errors. *)
Theorem greeting_try_from_slice_spec (buf : list byte) :
  try_from_slice (A := GreetingAccount) buf =
  match Nat.compare (length buf) 4 with
  | Lt => Err UnexpectedLengthOfInput
  | Eq => Ok (mkGreetingAccount (le_value buf))
  | Gt => Err NotAllBytesRead
  end.
Proof.
  destruct (Nat.compare_spec (length buf) 4).
  - apply greeting_try_from_slice_exact; assumption.
  - apply greeting_try_from_slice_short; assumption.
  - apply greeting_try_from_slice_long; assumption.
Qed.

(** C30: Borsh's encoding of [GreetingAccount] round-trips: decoding the
    encoding of a counter in range gives the counter back, and a buffer that
    decodes is the encoding of what it decodes to. *)
Theorem greeting_codec_roundtrip (g : GreetingAccount) (buf : list byte) :
  (greeting_ok g -> try_from_slice (serialize g) = Ok g) /\
  (try_from_slice buf = Ok g -> buf = serialize g /\ greeting_ok g).
Proof.
  split.
  - exact (try_from_slice_serialize g).
  - exact (proj1 (try_from_slice_ok_iff buf g)).
Qed.

Lemma greeting_codec_roundtrip_witness :
  try_from_slice (serialize (mkGreetingAccount 258)) = Ok (mkGreetingAccount 258) /\
  [x02; x01; x00; x00] = serialize (mkGreetingAccount 258) /\
  greeting_ok (mkGreetingAccount 258).
Proof.
  pose proof (greeting_codec_roundtrip (mkGreetingAccount 258) [x02; x01; x00; x00])
    as [H1 H2].
  split; [apply H1; unfold greeting_ok, u32_ok, U32_MAX; simpl; lia|].
  apply H2. reflexivity.
Defined.

#[export] Hint Resolve greeting_decoded_ok greeting_decoded_length : hello.
