(* ===== verification/Processor.v ===== *)
(** * The entry point ([lib.rs], [process_instruction])

    [process_instruction] statement by statement, in the state monad over the
    machine: it logs, decodes the instruction, takes the first account,
    checks its owner, loads the counter, applies the instruction, stores the
    counter and logs the new value.  [overflow_checks] is the build option
    that decides whether [counter += 1] and [counter -= 1] wrap or panic.

    [invocation] is the same behaviour as a relation with one rule per path
    through the function; [process_instruction_invocation] shows that the
    function computes the relation, and the properties of the entry point
    are proved by inversion on it: which error is returned when, that a
    failed invocation leaves every account buffer as it was, that a
    successful one rewrites the buffer of the first account only and keeps
    its length, what it logs, and when it can panic. *)

From Stdlib Require Import ZArith Lia List String Strings.Byte.
From stdpp Require Import base tactics option list gmap strings pretty.
From S2P Require Import Prelude Word Runtime Instruction Greeting.

#[local] Open Scope prog_scope.

Definition MSG_ENTRYPOINT : string := "Hello World Rust program entrypoint".

Definition MSG_WRONG_OWNER : string :=
  "Greeted account does not have the correct program id".

(** [format!("Greeted {} time(s)!", counter)]. *)
Definition greeted_message (counter : Z) : string :=
  String.append "Greeted " (String.append (pretty counter) " time(s)!").

(** [if account.owner != program_id { msg!(..); return Err(..) }]. *)
Definition check_owner (program_id : Pubkey) (account : AccountInfo) : Prog unit :=
  if decide (owner account <> program_id)
  then msg MSG_WRONG_OWNER ;;; pfail IncorrectProgramId
  else pret tt.

(** [GreetingAccount::try_from_slice(&account.data.borrow())?]. *)
Definition load_greeting (account : AccountInfo) : Prog GreetingAccount :=
  do? buf <- borrow_data account ;;
  plift (map_err BorshIoError (try_from_slice buf)).

(** [greeting_account.serialize(&mut &mut account.data.borrow_mut()[..])?]:
    the bytes that fit are written even when the call fails. *)
Definition store_greeting (account : AccountInfo) (g : GreetingAccount) : Prog unit :=
  do? buf <- borrow_data_mut account ;;
  write_data account (fst (serialize_into g buf)) ;;;
  plift (map_err BorshIoError (snd (serialize_into g buf))).

Section Processor.
Context (overflow_checks : bool).

(** [match instruction { .. }] on the loaded counter. *)
Definition apply_instruction (instruction : HelloInstruction) (g : GreetingAccount)
  : outcome ProgramError GreetingAccount :=
  match instruction with
  | Increment =>
      obind (u32_add overflow_checks (counter g) 1) (fun c => Ok (mkGreetingAccount c))
  | Decrement =>
      obind (u32_sub overflow_checks (counter g) 1) (fun c => Ok (mkGreetingAccount c))
  | Set_ value => Ok (mkGreetingAccount value)
  end.

Definition process_instruction (program_id : Pubkey) (accounts : list AccountInfo)
    (instruction_data : list byte) : Prog unit :=
  msg MSG_ENTRYPOINT ;;;
  do? instruction <- plift (unpack instruction_data) ;;
  do? (account, accounts_iter) <- plift (next_account_info accounts) ;;
  check_owner program_id account ;;;
  do? greeting_account <- load_greeting account ;;
  do? greeting_account <- plift (apply_instruction instruction greeting_account) ;;
  store_greeting account greeting_account ;;;
  msg (greeted_message (counter greeting_account)) ;;;
  pret tt.

End Processor.

(** ** A run on concrete data *)

Definition example_account : AccountInfo :=
  mkAccountInfo (mkPubkey [x01]) false true 1%positive 2%positive Pubkey_default false 0.

Definition example_machine (buf : list byte) : Machine :=
  mkMachine {[ 2%positive := buf ]} {[ 1%positive := 0%Z ]} ∅ [].

Example process_increment_runs :
  process_instruction false Pubkey_default [example_account] [x00]
    (example_machine [xff; x00; x00; x00]) =
  (mkMachine {[ 2%positive := [x00; x01; x00; x00] ]} {[ 1%positive := 0%Z ]} ∅
     [MSG_ENTRYPOINT; "Greeted 256 time(s)!"%string],
   Ok tt).
Proof. vm_compute. reflexivity. Qed.

(** ** The paths through the entry point

    One rule per way an invocation can end: the machine left behind and the
    result returned.  The rules follow the order of the statements, so a rule
    assumes that every earlier check passed. *)
Inductive invocation (oc : bool) (program_id : Pubkey) (accounts : list AccountInfo)
    (instruction_data : list byte) (m : Machine)
  : Machine -> outcome ProgramError unit -> Prop :=
| inv_decode_error e :
    unpack instruction_data = Err e ->
    invocation oc program_id accounts instruction_data m
      (logged MSG_ENTRYPOINT m) (Err e)
| inv_no_account i :
    unpack instruction_data = Ok i ->
    accounts = [] ->
    invocation oc program_id accounts instruction_data m
      (logged MSG_ENTRYPOINT m) (Err NotEnoughAccountKeys)
| inv_wrong_owner i a rest :
    unpack instruction_data = Ok i ->
    accounts = a :: rest ->
    owner a <> program_id ->
    invocation oc program_id accounts instruction_data m
      (logged MSG_WRONG_OWNER (logged MSG_ENTRYPOINT m)) (Err IncorrectProgramId)
| inv_dangling i a rest :
    unpack instruction_data = Ok i ->
    accounts = a :: rest ->
    owner a = program_id ->
    data_store m !! data a = None ->
    invocation oc program_id accounts instruction_data m
      (logged MSG_ENTRYPOINT m) (Panic DanglingReference)
| inv_borrowed i a rest buf :
    unpack instruction_data = Ok i ->
    accounts = a :: rest ->
    owner a = program_id ->
    data_store m !! data a = Some buf ->
    flag_of m (data a) = Writing ->
    invocation oc program_id accounts instruction_data m
      (logged MSG_ENTRYPOINT m) (Panic AlreadyMutablyBorrowed)
| inv_bad_data i a rest buf e :
    unpack instruction_data = Ok i ->
    accounts = a :: rest ->
    owner a = program_id ->
    data_store m !! data a = Some buf ->
    flag_of m (data a) <> Writing ->
    try_from_slice (A := GreetingAccount) buf = Err e ->
    invocation oc program_id accounts instruction_data m
      (logged MSG_ENTRYPOINT m) (Err (BorshIoError e))
| inv_overflow i a rest buf g p :
    unpack instruction_data = Ok i ->
    accounts = a :: rest ->
    owner a = program_id ->
    data_store m !! data a = Some buf ->
    flag_of m (data a) <> Writing ->
    try_from_slice buf = Ok g ->
    apply_instruction oc i g = Panic p ->
    invocation oc program_id accounts instruction_data m
      (logged MSG_ENTRYPOINT m) (Panic p)
| inv_borrowed_mut i a rest buf g g' n :
    unpack instruction_data = Ok i ->
    accounts = a :: rest ->
    owner a = program_id ->
    data_store m !! data a = Some buf ->
    flag_of m (data a) = Reading n ->
    try_from_slice buf = Ok g ->
    apply_instruction oc i g = Ok g' ->
    invocation oc program_id accounts instruction_data m
      (logged MSG_ENTRYPOINT m) (Panic AlreadyBorrowed)
| inv_done i a rest buf g g' :
    unpack instruction_data = Ok i ->
    accounts = a :: rest ->
    owner a = program_id ->
    data_store m !! data a = Some buf ->
    flag_of m (data a) = Unused ->
    try_from_slice buf = Ok g ->
    apply_instruction oc i g = Ok g' ->
    invocation oc program_id accounts instruction_data m
      (logged (greeted_message (counter g'))
         (stored a (serialize g') (logged MSG_ENTRYPOINT m)))
      (Ok tt).

#[export] Hint Constructors invocation : hello.

(** Rewrites with the hypothesis that gives the result of [f]. *)
Ltac rewrite_hyp f :=
  match goal with H : context [f] |- _ => rewrite H end.

(** Solves a condition on the borrow state of a cell from a hypothesis on
    the same cell, through [logged] and [stored]. *)
Ltac solve_flag :=
  first [ eassumption
        | unfold flag_of in *; cbn [logged stored borrow_flags]; congruence ].

(** ** The statements, one by one *)

Section Steps.
Context (oc : bool).

Lemma apply_instruction_never_errs i g e : apply_instruction oc i g <> Err e.
Proof.
  destruct i; simpl; [| |discriminate].
  - destruct (u32_add oc (counter g) 1) as [c|e'|p] eqn:Hu; simpl; try discriminate.
    exfalso. exact (u32_add_never_errs _ _ _ _ Hu).
  - destruct (u32_sub oc (counter g) 1) as [c|e'|p] eqn:Hu; simpl; try discriminate.
    exfalso. exact (u32_sub_never_errs _ _ _ _ Hu).
Qed.

Lemma check_owner_pass program_id a m :
  owner a = program_id -> check_owner program_id a m = (m, Ok tt).
Proof. intros H. unfold check_owner. rewrite decide_False by auto. reflexivity. Qed.

Lemma check_owner_fail program_id a m :
  owner a <> program_id ->
  check_owner program_id a m = (logged MSG_WRONG_OWNER m, Err IncorrectProgramId).
Proof. intros H. unfold check_owner. rewrite decide_True by auto. reflexivity. Qed.

Lemma load_greeting_eq a m buf :
  data_store m !! data a = Some buf -> flag_of m (data a) <> Writing ->
  load_greeting a m = (m, map_err BorshIoError (try_from_slice buf)).
Proof.
  intros H Hf. unfold load_greeting, pbind. rewrite (borrow_data_valid a m buf H Hf).
  reflexivity.
Qed.

Lemma load_greeting_dangling a m :
  data_store m !! data a = None -> load_greeting a m = (m, Panic DanglingReference).
Proof. intros H. unfold load_greeting, pbind, borrow_data. rewrite H. reflexivity. Qed.

Lemma load_greeting_borrowed a m buf :
  data_store m !! data a = Some buf -> flag_of m (data a) = Writing ->
  load_greeting a m = (m, Panic AlreadyMutablyBorrowed).
Proof.
  intros H Hf. unfold load_greeting, pbind. rewrite (borrow_data_writing a m buf H Hf).
  reflexivity.
Qed.

Lemma load_greeting_state (a : AccountInfo) (m : Machine) :
  fst (load_greeting a m) = m.
Proof.
  unfold load_greeting, pbind, borrow_data.
  destruct (data_store m !! data a); [case_decide|]; reflexivity.
Qed.

(** A load that succeeds read a buffer that exists, that no writer holds
    and that decodes. *)
Lemma load_greeting_ok (a : AccountInfo) (m : Machine) (g : GreetingAccount) :
  snd (load_greeting a m) = Ok g <->
  exists buf, data_store m !! data a = Some buf /\ try_from_slice buf = Ok g /\
              flag_of m (data a) <> Writing.
Proof.
  split.
  - unfold load_greeting, pbind, borrow_data.
    destruct (data_store m !! data a) as [buf|]; [|discriminate].
    case_decide; [discriminate|]. simpl.
    destruct (try_from_slice buf) eqn:Hg; simpl; intros; inv_outcome. eauto.
  - intros (buf & Hb & Hg & Hf). rewrite (load_greeting_eq a m buf Hb Hf), Hg.
    reflexivity.
Qed.

(** A store that succeeds wrote to a buffer that exists and that nothing
    borrows. *)
Lemma store_greeting_ok (a : AccountInfo) (m : Machine) (g : GreetingAccount) :
  snd (store_greeting a g m) = Ok tt ->
  exists buf, data_store m !! data a = Some buf /\ flag_of m (data a) = Unused.
Proof.
  unfold store_greeting, pbind, borrow_data_mut.
  destruct (data_store m !! data a) as [buf|]; [|discriminate].
  case_decide; [eauto|discriminate].
Qed.

(** Storing over a buffer that decoded and that nothing borrows cannot
    fail. *)
Lemma store_greeting_decoded a m buf (g g' : GreetingAccount) :
  data_store m !! data a = Some buf -> flag_of m (data a) = Unused ->
  try_from_slice buf = Ok g ->
  store_greeting a g' m = (stored a (serialize g') m, Ok tt).
Proof.
  intros Hb Hf Hg. unfold store_greeting, pbind.
  rewrite (borrow_data_mut_valid a m buf Hb Hf).
  rewrite (serialize_into_decoded buf g g' Hg). reflexivity.
Qed.

(** Storing into a buffer that a reader holds panics before it writes. *)
Lemma store_greeting_borrowed a m buf (g' : GreetingAccount) :
  data_store m !! data a = Some buf -> flag_of m (data a) <> Unused ->
  store_greeting a g' m = (m, Panic AlreadyBorrowed).
Proof.
  intros Hb Hf. unfold store_greeting, pbind.
  rewrite (borrow_data_mut_borrowed a m buf Hb Hf). reflexivity.
Qed.

End Steps.

(** ** The function computes the relation *)

Lemma invocation_sound oc program_id accounts instruction_data m m' r :
  invocation oc program_id accounts instruction_data m m' r ->
  process_instruction oc program_id accounts instruction_data m = (m', r).
Proof.
  unfold process_instruction.
  destruct 1; try subst accounts;
    unfold pbind at 1 2; cbn [msg pmodify plift]; rewrite_hyp unpack; try reflexivity;
    unfold pbind at 1 2; cbn [next_account_info plift]; try reflexivity;
    first [ rewrite check_owner_fail by assumption; reflexivity
          | rewrite check_owner_pass by assumption ];
    unfold pbind at 1;
    first [ rewrite load_greeting_dangling by assumption; reflexivity
          | erewrite load_greeting_borrowed by eassumption; reflexivity
          | erewrite load_greeting_eq by solve_flag ];
    rewrite_hyp @try_from_slice; try reflexivity;
    cbn [map_err]; unfold pbind at 1; cbn [plift];
    rewrite_hyp apply_instruction; try reflexivity;
    unfold pbind at 1;
    first [ erewrite store_greeting_borrowed by solve_flag
          | erewrite store_greeting_decoded by solve_flag ];
    reflexivity.
Qed.

Lemma invocation_total oc program_id accounts instruction_data m :
  exists m' r, invocation oc program_id accounts instruction_data m m' r.
Proof.
  destruct (unpack instruction_data) as [i|e|p] eqn:Hi; [|eauto with hello|].
  2: { exfalso. exact (unpack_not_panic _ _ Hi). }
  destruct accounts as [|a rest]; [eauto with hello|].
  destruct (decide (owner a = program_id)) as [Ho|Ho]; [|eauto with hello].
  destruct (data_store m !! data a) as [buf|] eqn:Hd; [|eauto with hello].
  destruct (decide (flag_of m (data a) = Writing)) as [Hw|Hw]; [eauto with hello|].
  destruct (try_from_slice (A := GreetingAccount) buf) as [g|e|p] eqn:Hg;
    [|eauto with hello|].
  2: { pose proof (try_from_slice_never_panics (A := GreetingAccount) buf) as Hp.
       rewrite Hg in Hp. discriminate. }
  destruct (apply_instruction oc i g) as [g'|e|p] eqn:Ha; [| |eauto with hello].
  2: { exfalso. exact (apply_instruction_never_errs _ _ _ _ Ha). }
  destruct (flag_of m (data a)) as [|n|] eqn:Hf; [eauto with hello ..| congruence].
Qed.

Lemma invocation_complete oc program_id accounts instruction_data m m' r :
  process_instruction oc program_id accounts instruction_data m = (m', r) ->
  invocation oc program_id accounts instruction_data m m' r.
Proof.
  intros Hp.
  destruct (invocation_total oc program_id accounts instruction_data m)
    as (m2 & r2 & Hinv).
  rewrite (invocation_sound _ _ _ _ _ _ _ Hinv) in Hp. inv_outcome. exact Hinv.
Qed.

(** The entry point looks at the instruction bytes through [unpack] only. *)
Lemma process_instruction_decoded oc program_id accounts data1 data2 :
  unpack data1 = unpack data2 ->
  process_instruction oc program_id accounts data1 =
  process_instruction oc program_id accounts data2.
Proof. intros H. unfold process_instruction. rewrite H. reflexivity. Qed.

(** The rule that produced a run. *)
Lemma run_invocation oc program_id accounts instruction_data m :
  invocation oc program_id accounts instruction_data m
    (fst (process_instruction oc program_id accounts instruction_data m))
    (snd (process_instruction oc program_id accounts instruction_data m)).
Proof.
  apply invocation_complete.
  destruct (process_instruction oc program_id accounts instruction_data m).
  reflexivity.
Qed.

(** Two runs from the same inputs follow the same rule. *)
Lemma invocation_functional oc program_id accounts instruction_data m m1 r1 m2 r2 :
  invocation oc program_id accounts instruction_data m m1 r1 ->
  invocation oc program_id accounts instruction_data m m2 r2 ->
  m1 = m2 /\ r1 = r2.
Proof.
  intros H1%invocation_sound H2%invocation_sound. rewrite H1 in H2.
  inv_outcome. auto.
Qed.

(** C1: [process_instruction] ends in exactly the ways the rules of
    [invocation] list, in the order of its statements: a decoding error
    before a missing account, before a wrong owner, before a failed borrow
    for reading, before malformed account data, before an arithmetic panic,
    before a failed borrow for writing; otherwise it stores and logs. *)
Theorem process_instruction_invocation oc program_id accounts instruction_data m m' r :
  process_instruction oc program_id accounts instruction_data m = (m', r) <->
  invocation oc program_id accounts instruction_data m m' r.
Proof. split; [apply invocation_complete | apply invocation_sound]. Qed.

(** ** The state transition *)

(** The transition of the specification: total, with arithmetic modulo
    [2^32]. *)
Definition apply (record : GreetingAccount) (op : HelloInstruction) : GreetingAccount :=
  match op with
  | Increment => mkGreetingAccount (wrap32 (counter record + 1))
  | Decrement => mkGreetingAccount (wrap32 (counter record - 1))
  | Set_ value => mkGreetingAccount value
  end.

Lemma apply_ok record op :
  instruction_ok op -> greeting_ok (apply record op).
Proof. destruct op; simpl; intros; auto; apply wrap32_ok. Qed.

(** Whatever the build, a result of [match instruction { .. }] is the
    transition of the specification. *)
Lemma apply_instruction_ok_apply oc i g g' :
  greeting_ok g -> apply_instruction oc i g = Ok g' -> g' = apply g i.
Proof.
  unfold greeting_ok. intros Hg. destruct i as [| |v]; simpl.
  - destruct (u32_add oc (counter g) 1) as [c| |] eqn:Hu; simpl; intros; inv_outcome.
    apply u32_add_ok_wrap in Hu as [-> _]; [reflexivity | assumption | by compute].
  - destruct (u32_sub oc (counter g) 1) as [c| |] eqn:Hu; simpl; intros; inv_outcome.
    apply u32_sub_ok_wrap in Hu as [-> _]; [reflexivity | assumption | by compute].
  - intros; inv_outcome. reflexivity.
Qed.

(** The arithmetic keeps the counter a [u32]. *)
Lemma apply_instruction_greeting_ok oc i g g' :
  greeting_ok g -> instruction_ok i -> apply_instruction oc i g = Ok g' -> greeting_ok g'.
Proof. intros Hg Hi ->%apply_instruction_ok_apply; [by apply apply_ok | exact Hg]. Qed.

Lemma apply_instruction_wrapping i g :
  greeting_ok g -> apply_instruction false i g = Ok (apply g i).
Proof.
  unfold greeting_ok. intros Hg. destruct i as [| |v]; simpl; [| |reflexivity].
  - rewrite u32_add_wrapping by (assumption || by compute). reflexivity.
  - rewrite u32_sub_wrapping by (assumption || by compute). reflexivity.
Qed.

Lemma apply_instruction_panic oc i g p :
  apply_instruction oc i g = Panic p ->
  oc = true /\ p = ArithmeticOverflow /\
  ((i = Increment /\ (U32_MAX < counter g + 1)%Z) \/
   (i = Decrement /\ (counter g < 1)%Z)).
Proof.
  destruct i as [| |v]; simpl; [| |discriminate].
  - unfold u32_add. destruct (Z.leb_spec (counter g + 1) U32_MAX), oc; simpl;
      intros; inv_outcome. auto.
  - unfold u32_sub. destruct (Z.leb_spec 1 (counter g)), oc; simpl;
      intros; inv_outcome. auto 6.
Qed.

(** Whether [match instruction { .. }] leaves the range of [u32]. *)
Definition overflows (i : HelloInstruction) (g : GreetingAccount) : bool :=
  match i with
  | Increment => bool_decide (counter g = U32_MAX)
  | Decrement => bool_decide (counter g = 0%Z)
  | Set_ _ => false
  end.

Lemma apply_instruction_eq oc i g :
  greeting_ok g ->
  apply_instruction oc i g =
  if oc && overflows i g then Panic ArithmeticOverflow else Ok (apply g i).
Proof.
  unfold greeting_ok, u32_ok, U32_MAX. intros Hg.
  destruct i as [| |v]; simpl; [| |rewrite andb_false_r; reflexivity].
  - unfold u32_add, wrap32, U32_MAX. case_bool_decide as Hc.
    + rewrite Hc. destruct oc; reflexivity.
    + rewrite andb_false_r. destruct (Z.leb_spec (counter g + 1) 4294967295); [|lia].
      simpl. rewrite Z.mod_small by lia. reflexivity.
  - unfold u32_sub, wrap32. case_bool_decide as Hc.
    + rewrite Hc. destruct oc; reflexivity.
    + rewrite andb_false_r. destruct (Z.leb_spec 1 (counter g)); [|lia].
      simpl. rewrite Z.mod_small by lia. reflexivity.
Qed.

(** What a rule leaves in the data store: nothing new on a failure, the
    encoding of the new counter in the first account's buffer on success. *)
Lemma invocation_data_store oc program_id accounts instruction_data m m' r :
  invocation oc program_id accounts instruction_data m m' r ->
  lamports_store m' = lamports_store m /\
  ((is_ok r = false /\ data_store m' = data_store m) \/
   (exists i a rest buf g,
      r = Ok tt /\ unpack instruction_data = Ok i /\ accounts = a :: rest /\
      owner a = program_id /\ data_store m !! data a = Some buf /\
      try_from_slice buf = Ok g /\
      data_store m' = <[data a := serialize (apply g i)]> (data_store m))).
Proof.
  destruct 1 as [ | | | | | | | |i a rest buf g g' Hi -> Ho Hd Hf Hg Ha];
    (split; [reflexivity|]); try (left; split; reflexivity).
  right. exists i, a, rest, buf, g.
  assert (g' = apply g i) as ->.
  { eapply apply_instruction_ok_apply; [|exact Ha]. eauto with hello. }
  auto 10.
Qed.

(** A call that succeeds found the buffer of its first account unborrowed. *)
Lemma invocation_ok_unused oc program_id accounts instruction_data m m' a rest :
  invocation oc program_id accounts instruction_data m m' (Ok tt) ->
  accounts = a :: rest -> flag_of m (data a) = Unused.
Proof. inversion 1; intros; simplify_eq; assumption. Qed.

(** No rule changes the borrow state of a cell: every borrow of the entry
    point is released at the end of its statement. *)
Lemma invocation_borrow_flags oc program_id accounts instruction_data m m' r :
  invocation oc program_id accounts instruction_data m m' r ->
  borrow_flags m' = borrow_flags m.
Proof. destruct 1; reflexivity. Qed.

(** ** What every rule preserves *)

(** A buffer that holds a counter: four bytes that decode. *)
Definition greeting_cell (m : Machine) (l : loc) : Prop :=
  exists buf g, data_store m !! l = Some buf /\ try_from_slice buf = Ok g.

Section Rules.
Context {oc : bool} {program_id : Pubkey} {accounts : list AccountInfo}
  {instruction_data : list byte} {m m' : Machine} {r : outcome ProgramError unit}.
Context (Hrule : invocation oc program_id accounts instruction_data m m' r).

Lemma invocation_lengths (l : loc) :
  length <$> (data_store m' !! l) = length <$> (data_store m !! l).
Proof.
  destruct (invocation_data_store _ _ _ _ _ _ _ Hrule)
    as [_ [[_ Hs] | (i & a & rest & buf & g & _ & _ & _ & _ & Hd & Hg & Hs)]];
    rewrite Hs; [reflexivity|].
  destruct (decide (data a = l)) as [<- | Hne].
  - rewrite lookup_insert_eq, Hd. simpl. f_equal.
    rewrite (greeting_decoded_length buf g Hg). reflexivity.
  - rewrite lookup_insert_ne by assumption. reflexivity.
Qed.

Lemma invocation_greeting_cell (l : loc) : greeting_cell m l -> greeting_cell m' l.
Proof.
  intros (buf0 & g0 & Hl & Hg0). unfold greeting_cell.
  destruct (invocation_data_store _ _ _ _ _ _ _ Hrule)
    as [_ [[_ Hs] | (i & a & rest & buf & g & _ & Hi & _ & _ & Hd & Hg & Hs)]];
    rewrite Hs; [eauto|].
  destruct (decide (data a = l)) as [<- | Hne].
  - rewrite lookup_insert_eq. eexists _, (apply g i). split; [reflexivity|].
    apply try_from_slice_serialize, apply_ok. eauto with hello.
  - rewrite lookup_insert_ne by assumption. eauto.
Qed.

Lemma invocation_log :
  exists lines, log m' = log m ++ MSG_ENTRYPOINT :: lines /\ (length lines <= 1)%nat.
Proof.
  destruct Hrule; cbn [logged stored log]; rewrite <- ?app_assoc;
    eexists; (split; [reflexivity | simpl; lia]).
Qed.

Lemma invocation_frame (l : loc) :
  (forall a rest, accounts = a :: rest -> data a <> l) ->
  data_store m' !! l = data_store m !! l.
Proof.
  intros Hl.
  destruct (invocation_data_store _ _ _ _ _ _ _ Hrule)
    as [_ [[_ Hs] | (i & a & rest & buf & g & _ & _ & Ha & _ & _ & _ & Hs)]];
    rewrite Hs; [reflexivity|].
  apply lookup_insert_ne. eauto.
Qed.

End Rules.

(** ** Properties of one invocation *)

Section Invocation.
Context (oc : bool) (program_id : Pubkey) (accounts : list AccountInfo)
  (instruction_data : list byte) (m : Machine).

(** What the run leaves in the data store. *)
Lemma run_rule :
  lamports_store (fst (process_instruction oc program_id accounts instruction_data m))
  = lamports_store m /\
  ((is_ok (snd (process_instruction oc program_id accounts instruction_data m)) = false /\
    data_store (fst (process_instruction oc program_id accounts instruction_data m))
    = data_store m) \/
   (exists i a rest buf g,
      snd (process_instruction oc program_id accounts instruction_data m) = Ok tt /\
      unpack instruction_data = Ok i /\ accounts = a :: rest /\
      owner a = program_id /\ data_store m !! data a = Some buf /\
      try_from_slice buf = Ok g /\
      data_store (fst (process_instruction oc program_id accounts instruction_data m))
      = <[data a := serialize (apply g i)]> (data_store m))).
Proof. exact (invocation_data_store _ _ _ _ _ _ _ (run_invocation _ _ _ _ _)). Qed.

(** C4: a failed invocation (an error or a panic) leaves every account
    buffer as it was: no partial mutation is observable. *)
Theorem process_failure_keeps_data :
  is_ok (snd (process_instruction oc program_id accounts instruction_data m)) = false ->
  data_store (fst (process_instruction oc program_id accounts instruction_data m))
  = data_store m.
Proof.
  destruct run_rule as [_ [[_ Hs] | (? & ? & ? & ? & ? & Hr & _)]].
  - intros _. exact Hs.
  - rewrite Hr. discriminate.
Qed.

(** No invocation changes a lamport balance. *)
Theorem process_keeps_lamports :
  lamports_store (fst (process_instruction oc program_id accounts instruction_data m))
  = lamports_store m.
Proof. exact (proj1 run_rule). Qed.

(** C23: what an invocation leaves as it was: every lamport balance, the
    borrow state of every cell, the length of every buffer (the program
    never grows, shrinks, creates or removes account data), and the contents
    of every buffer other than the one the first account refers to. *)
Theorem process_frame (l : loc) :
  lamports_store (fst (process_instruction oc program_id accounts instruction_data m))
  = lamports_store m /\
  borrow_flags (fst (process_instruction oc program_id accounts instruction_data m))
  = borrow_flags m /\
  length <$>
    (data_store (fst (process_instruction oc program_id accounts instruction_data m)) !! l)
  = length <$> (data_store m !! l) /\
  ((forall a rest, accounts = a :: rest -> data a <> l) ->
   data_store (fst (process_instruction oc program_id accounts instruction_data m)) !! l
   = data_store m !! l).
Proof.
  pose proof (run_invocation oc program_id accounts instruction_data m) as Hr.
  split_and!; [exact (proj1 run_rule) | exact (invocation_borrow_flags _ _ _ _ _ _ _ Hr)
              | exact (invocation_lengths Hr l) | exact (invocation_frame Hr l)].
Qed.

(** C3: the ownership gate: when the instruction decodes and the first
    account is not owned by the program, the invocation fails with
    [IncorrectProgramId], whatever the account holds, having logged the
    reason and written nothing. *)
Theorem process_wrong_owner (i : HelloInstruction) (a : AccountInfo)
    (rest : list AccountInfo) :
  unpack instruction_data = Ok i -> accounts = a :: rest -> owner a <> program_id ->
  process_instruction oc program_id accounts instruction_data m =
  (logged MSG_WRONG_OWNER (logged MSG_ENTRYPOINT m), Err IncorrectProgramId).
Proof. intros. apply invocation_sound. eauto with hello. Qed.

(** C33: the errors other than the owner check, in the order of the
    statements: a decoding error is returned whatever the accounts are;
    after it [NotEnoughAccountKeys] when the account list is empty; and,
    after the owner check, account data that is not exactly four bytes is
    rejected with the Borsh error for its length (too short, or bytes left
    over).  All three have only logged the entry line. *)
Theorem process_errors :
  (forall e, unpack instruction_data = Err e ->
     process_instruction oc program_id accounts instruction_data m =
     (logged MSG_ENTRYPOINT m, Err e)) /\
  (forall i, unpack instruction_data = Ok i -> accounts = [] ->
     process_instruction oc program_id accounts instruction_data m =
     (logged MSG_ENTRYPOINT m, Err NotEnoughAccountKeys)) /\
  (forall i a rest buf,
     unpack instruction_data = Ok i -> accounts = a :: rest -> owner a = program_id ->
     data_store m !! data a = Some buf -> flag_of m (data a) <> Writing ->
     length buf <> 4%nat ->
     process_instruction oc program_id accounts instruction_data m =
     (logged MSG_ENTRYPOINT m,
      Err (BorshIoError (if decide (length buf < 4)%nat
                         then UnexpectedLengthOfInput else NotAllBytesRead)))).
Proof.
  split_and!; intros; apply invocation_sound; eauto with hello.
  eapply inv_bad_data; eauto. case_decide.
  - by apply greeting_try_from_slice_short.
  - apply greeting_try_from_slice_long. lia.
Qed.

(** The successful path, for the lemmas of the other files. *)
Lemma process_stores (i : HelloInstruction) (a : AccountInfo)
    (rest : list AccountInfo) (buf : list byte) :
  oc && overflows i (mkGreetingAccount (le_value buf)) = false ->
  unpack instruction_data = Ok i -> accounts = a :: rest -> owner a = program_id ->
  data_store m !! data a = Some buf -> flag_of m (data a) = Unused ->
  length buf = 4%nat ->
  let g' := apply (mkGreetingAccount (le_value buf)) i in
  process_instruction oc program_id accounts instruction_data m =
  (logged (greeted_message (counter g'))
           (stored a (serialize g') (logged MSG_ENTRYPOINT m)),
         Ok tt).
Proof.
  intros Hov Hi Ha Ho Hd Hf Hl g'. apply invocation_sound.
  pose proof (greeting_try_from_slice_exact buf Hl) as Hg.
  eapply inv_done; eauto.
  rewrite apply_instruction_eq, Hov by eauto with hello. reflexivity.
Qed.

(** C2: the successful path: with a well-formed instruction, a first
    account owned by the program and four bytes of data that nothing
    borrows, and unless the build checks overflow and the arithmetic
    overflows, the invocation returns [Ok], replaces the buffer by the
    encoding of the new counter and logs that counter. *)
Theorem process_success (i : HelloInstruction) (a : AccountInfo)
    (rest : list AccountInfo) (buf : list byte) :
  oc && overflows i (mkGreetingAccount (le_value buf)) = false ->
  unpack instruction_data = Ok i -> accounts = a :: rest -> owner a = program_id ->
  data_store m !! data a = Some buf -> flag_of m (data a) = Unused ->
  length buf = 4%nat ->
  let g' := apply (mkGreetingAccount (le_value buf)) i in
  process_instruction oc program_id accounts instruction_data m =
  (logged (greeted_message (counter g'))
           (stored a (serialize g') (logged MSG_ENTRYPOINT m)),
         Ok tt).
Proof. exact (process_stores i a rest buf). Qed.

(** An invocation keeps every buffer that holds a counter a buffer that
    holds a counter (in range and four bytes long), whether it succeeds or
    fails. *)
Theorem process_preserves_greeting_cell (l : loc) :
  greeting_cell m l ->
  greeting_cell (fst (process_instruction oc program_id accounts instruction_data m)) l.
Proof. exact (invocation_greeting_cell (run_invocation _ _ _ _ _) l). Qed.

(** What the invocation logs: always the entry line first, then at
    most one more line, and nothing that was in the log is lost. *)
Theorem process_log :
  exists lines,
    log (fst (process_instruction oc program_id accounts instruction_data m))
    = log m ++ MSG_ENTRYPOINT :: lines /\ (length lines <= 1)%nat.
Proof. exact (invocation_log (run_invocation _ _ _ _ _)). Qed.

(** C24: when the first account's buffer exists and nothing borrows it, the
    entry point panics exactly on an arithmetic overflow in a build with
    [overflow-checks]: incrementing a counter of [u32::MAX] or decrementing
    a counter of 0, in a buffer of four bytes of an account the program
    owns.  No slice, conversion, unwrap or borrow of the code panics, and
    the panic comes with only the entry line logged and nothing written. *)
Theorem process_panics (p : panic) :
  (forall a rest, accounts = a :: rest -> account_valid m a) ->
  (snd (process_instruction oc program_id accounts instruction_data m) = Panic p <->
   oc = true /\ p = ArithmeticOverflow /\
   exists i a rest buf,
     unpack instruction_data = Ok i /\ accounts = a :: rest /\ owner a = program_id /\
     data_store m !! data a = Some buf /\ length buf = 4%nat /\
     overflows i (mkGreetingAccount (le_value buf)) = true) /\
  (snd (process_instruction oc program_id accounts instruction_data m) = Panic p ->
   fst (process_instruction oc program_id accounts instruction_data m)
   = logged MSG_ENTRYPOINT m).
Proof.
  intros Hv. split; [split|].
  - destruct (run_invocation oc program_id accounts instruction_data m)
      as [ | | | i a rest Hi Ha Ho Hd | i a rest buf Hi Ha Ho Hd Hf |
         | i a rest buf g q Hi Ha Ho Hd Hf Hg Hq
         | i a rest buf g g' n Hi Ha Ho Hd Hf Hg Hq | ];
      cbn [snd]; intros; inv_outcome;
      try (destruct (Hv a rest eq_refl) as [[buf' Hb] Hu]; congruence).
    pose proof (try_from_slice_length _ _ Hg) as Hl.
    assert (Hok : greeting_ok g) by eauto with hello.
    rewrite (greeting_try_from_slice_exact buf Hl) in Hg. inv_outcome.
    pose proof Hq as (-> & -> & _)%apply_instruction_panic.
    rewrite apply_instruction_eq in Hq by exact Hok.
    destruct (overflows i _) eqn:Hov; [|discriminate]. eauto 12.
  - intros (-> & -> & i & a & rest & buf & Hi & Ha & Ho & Hd & Hl & Hov).
    destruct (Hv a rest Ha) as [_ Hu].
    pose proof (greeting_try_from_slice_exact buf Hl) as Hg.
    erewrite invocation_sound; [reflexivity|].
    eapply inv_overflow; eauto; [congruence|].
    rewrite apply_instruction_eq, Hov by eauto with hello. reflexivity.
  - destruct (run_invocation oc program_id accounts instruction_data m);
      cbn [fst snd]; intros; inv_outcome; reflexivity.
Qed.

(** C28: the borrows of the entry point are checked when it runs: when a
    caller holds a borrow of the first account's data across a call that
    decodes, on an account the program owns with four bytes of data, the
    invocation panics before anything is written.  The panics come in the
    order of the statements: that of [RefCell::borrow] at the load when the
    cell is mutably borrowed; with readers, the arithmetic overflow of a
    build that checks it, and otherwise that of [RefCell::borrow_mut] at
    the store. *)
Theorem process_borrowed (i : HelloInstruction) (a : AccountInfo)
    (rest : list AccountInfo) (buf : list byte) :
  unpack instruction_data = Ok i -> accounts = a :: rest -> owner a = program_id ->
  data_store m !! data a = Some buf -> length buf = 4%nat ->
  flag_of m (data a) <> Unused ->
  process_instruction oc program_id accounts instruction_data m =
  (logged MSG_ENTRYPOINT m,
   Panic (if decide (flag_of m (data a) = Writing) then AlreadyMutablyBorrowed
          else if oc && overflows i (mkGreetingAccount (le_value buf))
               then ArithmeticOverflow else AlreadyBorrowed)).
Proof.
  intros Hi Ha Ho Hd Hl Hf. apply invocation_sound.
  pose proof (greeting_try_from_slice_exact buf Hl) as Hg.
  pose proof (apply_instruction_eq oc i _ (greeting_decoded_ok _ _ Hg)) as Hp.
  case_decide as Hw; [eauto with hello|].
  destruct (flag_of m (data a)) as [|n|] eqn:Hn; [done| |done].
  destruct (oc && overflows i _);
    [eapply inv_overflow | eapply inv_borrowed_mut]; eauto; congruence.
Qed.

(** C34: two [AccountInfo]s that refer to the same buffer see the same
    counter: after a successful invocation, loading through any alias of the
    first account gives the counter that was stored. *)
Theorem process_alias (b : AccountInfo) (i : HelloInstruction) (a : AccountInfo)
    (rest : list AccountInfo) (buf : list byte) (g : GreetingAccount) :
  snd (process_instruction oc program_id accounts instruction_data m) = Ok tt ->
  unpack instruction_data = Ok i -> accounts = a :: rest ->
  data_store m !! data a = Some buf -> try_from_slice buf = Ok g ->
  data b = data a ->
  snd (load_greeting b (fst (process_instruction oc program_id accounts instruction_data m)))
  = Ok (apply g i).
Proof.
  intros Hok Hi Ha Hd Hg Hb.
  pose proof (run_invocation oc program_id accounts instruction_data m) as Hr.
  rewrite Hok in Hr.
  pose proof (invocation_ok_unused _ _ _ _ _ _ _ _ Hr Ha) as Hu.
  pose proof (invocation_borrow_flags _ _ _ _ _ _ _ Hr) as Hfl.
  destruct run_rule
    as [_ [[Hf _] | (i' & a' & rest' & buf' & g' & _ & Hi' & Ha' & _ & Hd' & Hg' & Hs)]].
  { rewrite Hok in Hf. discriminate. }
  assert (i' = i) as -> by congruence. simplify_eq.
  assert (g' = g) as -> by congruence.
  erewrite load_greeting_eq;
    [| rewrite Hs, Hb; apply lookup_insert_eq
     | unfold flag_of in *; rewrite Hb, Hfl; congruence].
  rewrite try_from_slice_serialize; [reflexivity|].
  apply apply_ok. eauto with hello.
Qed.

End Invocation.


(** C35: the laws of the transition, on every counter in range.  [Set]
    replaces the counter whatever it was.  Without [overflow-checks]
    [Increment] and [Decrement] undo each other, [Increment] gives 0 exactly
    on [u32::MAX] and [Decrement] gives [u32::MAX] exactly on 0; with
    [overflow-checks] they panic exactly there. *)
Theorem apply_instruction_laws (oc : bool) (g : GreetingAccount) (v : Z) :
  greeting_ok g ->
  apply_instruction oc (Set_ v) g = Ok (mkGreetingAccount v) /\
  obind (apply_instruction false Increment g) (apply_instruction false Decrement) = Ok g /\
  obind (apply_instruction false Decrement g) (apply_instruction false Increment) = Ok g /\
  (apply_instruction false Increment g = Ok (mkGreetingAccount 0)
   <-> counter g = U32_MAX) /\
  (apply_instruction false Decrement g = Ok (mkGreetingAccount U32_MAX)
   <-> counter g = 0%Z) /\
  (apply_instruction true Increment g = Panic ArithmeticOverflow
   <-> counter g = U32_MAX) /\
  (apply_instruction true Decrement g = Panic ArithmeticOverflow
   <-> counter g = 0%Z).
Proof.
  intros Hg. split; [reflexivity|].
  rewrite !(apply_instruction_wrapping _ g Hg). cbn [obind].
  rewrite !apply_instruction_wrapping by (by apply apply_ok).
  rewrite !(apply_instruction_eq true _ g Hg). cbn [andb overflows].
  destruct g as [c]. unfold greeting_ok, u32_ok, U32_MAX in Hg.
  unfold apply, wrap32, U32_MAX. cbn [counter] in *.
  split_and!; try (f_equal; f_equal; zdm);
    (split; [try case_bool_decide; intros; inv_outcome; try done; zdm
            | intros ->; try rewrite bool_decide_eq_true_2 by done; reflexivity]).
Qed.

(** C7: [match instruction { .. }] in closed form: on a counter in range it
    panics exactly when the build checks overflow and the result leaves the
    range, and otherwise returns the specification's wrapping transition,
    which is in range. *)
Theorem apply_instruction_spec (oc : bool) (i : HelloInstruction) (g : GreetingAccount) :
  greeting_ok g -> instruction_ok i ->
  apply_instruction oc i g =
    (if oc && overflows i g then Panic ArithmeticOverflow else Ok (apply g i)) /\
  greeting_ok (apply g i).
Proof.
  intros Hg Hi. split; [apply apply_instruction_eq, Hg | apply apply_ok, Hi].
Qed.

Lemma apply_instruction_laws_witness :
  apply_instruction false Increment (mkGreetingAccount U32_MAX) = Ok (mkGreetingAccount 0) /\
  apply_instruction false Decrement (mkGreetingAccount 0) = Ok (mkGreetingAccount U32_MAX) /\
  apply_instruction true Increment (mkGreetingAccount U32_MAX) = Panic ArithmeticOverflow /\
  apply_instruction true Decrement (mkGreetingAccount 0) = Panic ArithmeticOverflow.
Proof.
  destruct (apply_instruction_laws true (mkGreetingAccount U32_MAX) 0)
    as (_ & _ & _ & Hi & _ & Hp & _); [by compute|].
  destruct (apply_instruction_laws true (mkGreetingAccount 0) 0)
    as (_ & _ & _ & _ & Hd & _ & Hq); [by compute|].
  split_and!; [apply Hi | apply Hd | apply Hp | apply Hq]; reflexivity.
Defined.

Lemma apply_instruction_spec_witness :
  apply_instruction true Decrement (mkGreetingAccount 7) =
    (if true && overflows Decrement (mkGreetingAccount 7)
     then Panic ArithmeticOverflow else Ok (apply (mkGreetingAccount 7) Decrement)) /\
  greeting_ok (apply (mkGreetingAccount 7) Decrement).
Proof.
  apply apply_instruction_spec; [|exact I].
  unfold greeting_ok, u32_ok, U32_MAX. simpl. lia.
Defined.

Lemma process_preserves_greeting_cell_witness :
  greeting_cell
    (fst (process_instruction false Pubkey_default [example_account] [x00]
            (example_machine [xff; xff; xff; xff]))) 2%positive.
Proof.
  apply process_preserves_greeting_cell.
  exists [xff; xff; xff; xff], (mkGreetingAccount U32_MAX). split; reflexivity.
Defined.

Lemma process_panics_witness :
  snd (process_instruction true Pubkey_default [example_account] [x01]
         (example_machine [x00; x00; x00; x00])) = Panic ArithmeticOverflow /\
  fst (process_instruction true Pubkey_default [example_account] [x01]
         (example_machine [x00; x00; x00; x00]))
  = logged MSG_ENTRYPOINT (example_machine [x00; x00; x00; x00]).
Proof.
  destruct (process_panics true Pubkey_default [example_account] [x01]
              (example_machine [x00; x00; x00; x00]) ArithmeticOverflow) as [Hiff Hm].
  { intros a rest [= <- <-]. split; [eexists|]; reflexivity. }
  split; [|apply Hm]; apply Hiff; split_and!; try reflexivity;
    exists Decrement, example_account, [], [x00; x00; x00; x00];
    split_and!; reflexivity.
Defined.

Lemma process_alias_witness :
  snd (load_greeting (mkAccountInfo (mkPubkey [x02]) true false 1%positive 2%positive
                        (mkPubkey [x05]) false 0)
         (fst (process_instruction false Pubkey_default [example_account]
                 [x02; x0a; x00; x00; x00] (example_machine [x07; x00; x00; x00]))))
  = Ok (apply (mkGreetingAccount 7) (Set_ 10)).
Proof.
  apply (process_alias _ _ _ _ _ _ (Set_ 10) example_account []
           [x07; x00; x00; x00] (mkGreetingAccount 7)); reflexivity.
Defined.


Lemma process_failure_keeps_data_witness :
  data_store (fst (process_instruction true Pubkey_default [example_account] []
                     (example_machine [x07; x00; x00; x00]))) =
  data_store (example_machine [x07; x00; x00; x00]).
Proof. apply process_failure_keeps_data. vm_compute. reflexivity. Defined.

(** A successful call on the first of two accounts leaves the buffer of the
    second, although the second is passed to it. *)
Lemma process_frame_witness :
  let b := mkAccountInfo (mkPubkey [x02]) false true 3%positive 4%positive
             Pubkey_default false 0 in
  let m := mkMachine {[ 2%positive := [x07; x00; x00; x00];
                        4%positive := [x05; x00; x00; x00] ]}
             {[ 1%positive := 0%Z; 3%positive := 0%Z ]} ∅ [] in
  snd (process_instruction false Pubkey_default [example_account; b] [x00] m) = Ok tt /\
  data_store (fst (process_instruction false Pubkey_default [example_account; b] [x00] m))
    !! data b = Some [x05; x00; x00; x00].
Proof.
  intros b m. split; [reflexivity|].
  etrans; [|exact (eq_refl : data_store m !! data b = Some [x05; x00; x00; x00])].
  apply (process_frame false Pubkey_default [example_account; b] [x00] m (data b)).
  intros a rest [= <- <-]. discriminate.
Defined.

Lemma process_wrong_owner_witness :
  process_instruction false (mkPubkey [x09]) [example_account] [x00]
    (example_machine [x07; x00; x00; x00]) =
  (logged MSG_WRONG_OWNER (logged MSG_ENTRYPOINT (example_machine [x07; x00; x00; x00])),
   Err IncorrectProgramId).
Proof.
  apply (process_wrong_owner _ _ _ _ _ Increment example_account []);
    [reflexivity | reflexivity | discriminate].
Defined.

Lemma process_errors_witness :
  process_instruction false Pubkey_default [example_account] [x00]
    (example_machine [x07; x00; x00; x00; x00]) =
  (logged MSG_ENTRYPOINT (example_machine [x07; x00; x00; x00; x00]),
   Err (BorshIoError NotAllBytesRead)).
Proof.
  apply (proj2 (proj2 (process_errors false Pubkey_default [example_account] [x00]
                         (example_machine [x07; x00; x00; x00; x00])))
           Increment example_account [] [x07; x00; x00; x00; x00]);
    try reflexivity; [by vm_compute | simpl; lia].
Defined.

Lemma process_success_witness :
  process_instruction false Pubkey_default [example_account] [x01]
    (example_machine [x00; x00; x00; x00]) =
  (logged "Greeted 4294967295 time(s)!"
     (stored example_account [xff; xff; xff; xff]
        (logged MSG_ENTRYPOINT (example_machine [x00; x00; x00; x00]))),
   Ok tt).
Proof.
  apply (process_success _ _ _ _ _ Decrement example_account []
           [x00; x00; x00; x00]); reflexivity.
Defined.

Lemma process_borrowed_witness :
  let m := mkMachine {[ 2%positive := [xff; xff; xff; xff] ]} {[ 1%positive := 0%Z ]}
             {[ 2%positive := Reading 1 ]} [] in
  process_instruction false Pubkey_default [example_account] [x00] m
  = (logged MSG_ENTRYPOINT m, Panic AlreadyBorrowed) /\
  process_instruction true Pubkey_default [example_account] [x00] m
  = (logged MSG_ENTRYPOINT m, Panic ArithmeticOverflow).
Proof.
  intros m. assert (Hf : flag_of m (data example_account) <> Unused) by (by vm_compute).
  split.
  - exact (process_borrowed false Pubkey_default [example_account] [x00] m Increment
             example_account [] [xff; xff; xff; xff]
             eq_refl eq_refl eq_refl eq_refl eq_refl Hf).
  - exact (process_borrowed true Pubkey_default [example_account] [x00] m Increment
             example_account [] [xff; xff; xff; xff]
             eq_refl eq_refl eq_refl eq_refl eq_refl Hf).
Defined.
