(* ===== verification/Ledger.v ===== *)
(** * Sequences of invocations

    The runtime calls the entry point once per instruction of a transaction;
    the only state that survives a call is the store of account buffers (and
    the log).  This file runs lists of calls, defines the machines reachable
    from a start machine, proves by induction over reachability the
    invariants that single invocations preserve, and shows that the counter
    in a buffer follows the specification's transition [apply], call after
    call: the store refines a counter per buffer.  A buffer is changed only
    by the calls that pass the ownership gate on it
    ([run_calls_authorized]); the calls that a client packs with [pack]
    all succeed in the wrapping build ([run_calls_packed]); and repeated
    increments have a closed form in both builds ([run_calls_increments]). *)

From Stdlib Require Import ZArith Lia List String Strings.Byte.
From stdpp Require Import base tactics option list gmap strings.
From S2P Require Import Prelude Word Runtime Instruction Greeting Processor.

(** One call of the entry point: the accounts passed and the instruction
    bytes. *)
Record Call : Type := mkCall {
  call_accounts : list AccountInfo;
  call_data : list byte
}.

Section Ledger.
Context (oc : bool) (program_id : Pubkey).

Definition invoke (c : Call) (m : Machine) : Machine * outcome ProgramError unit :=
  process_instruction oc program_id (call_accounts c) (call_data c) m.

(** Runs the calls in order; the results are returned in the same order. *)
Fixpoint run_calls (cs : list Call) (m : Machine)
  : Machine * list (outcome ProgramError unit) :=
  match cs with
  | [] => (m, [])
  | c :: cs' =>
      let r := invoke c m in
      let rs := run_calls cs' (fst r) in
      (fst rs, snd r :: snd rs)
  end.

(** The machines the program can leave behind, starting from [m0]. *)
Inductive reachable (m0 : Machine) : Machine -> Prop :=
| reach_start : reachable m0 m0
| reach_invoke m c : reachable m0 m -> reachable m0 (fst (invoke c m)).

(** The counter a buffer holds, when it holds one. *)
Definition counter_at (m : Machine) (l : loc) : option Z :=
  match data_store m !! l with
  | Some buf =>
      match try_from_slice (A := GreetingAccount) buf with
      | Ok g => Some (counter g)
      | _ => None
      end
  | None => None
  end.

(** The instruction a call applies to the buffer [l]: the decoded
    instruction when the first account refers to [l] and is owned by the
    program, none otherwise. *)
Definition effect (c : Call) (l : loc) : option HelloInstruction :=
  match unpack (call_data c), call_accounts c with
  | Ok i, a :: _ =>
      if decide (owner a = program_id /\ data a = l) then Some i else None
  | _, _ => None
  end.

(** The specification's counter after one call: the transition [apply] of
    the instruction the call applies, and no change when the call applies
    none or when a build with [overflow-checks] panics. *)
Definition counter_step (l : loc) (v : Z) (c : Call) : Z :=
  match effect c l with
  | Some i =>
      if oc && overflows i (mkGreetingAccount v) then v
      else counter (apply (mkGreetingAccount v) i)
  | None => v
  end.

Lemma run_calls_app (cs1 cs2 : list Call) (m : Machine) :
  run_calls (cs1 ++ cs2) m =
  (fst (run_calls cs2 (fst (run_calls cs1 m))),
   snd (run_calls cs1 m) ++ snd (run_calls cs2 (fst (run_calls cs1 m)))).
Proof.
  revert m. induction cs1 as [|c cs1 IH]; intros m; simpl.
  - destruct (run_calls cs2 m). reflexivity.
  - rewrite IH. reflexivity.
Qed.

Lemma run_calls_length (cs : list Call) (m : Machine) :
  length (snd (run_calls cs m)) = length cs.
Proof. revert m. induction cs; intros; simpl; auto. Qed.

Lemma run_calls_reachable (cs : list Call) (m0 m : Machine) :
  reachable m0 m -> reachable m0 (fst (run_calls cs m)).
Proof.
  revert m. induction cs as [|c cs IH]; intros m Hm; simpl; [assumption|].
  apply IH. constructor. assumption.
Qed.

Lemma reachable_trans (m0 m1 m2 : Machine) :
  reachable m0 m1 -> reachable m1 m2 -> reachable m0 m2.
Proof. induction 2; [assumption | constructor; assumption]. Qed.

(** Every reachable machine is reached by a list of calls. *)
Lemma reachable_run_calls (m0 m : Machine) :
  reachable m0 m -> exists cs, m = fst (run_calls cs m0).
Proof.
  induction 1 as [|m c _ [cs ->]]; [exists []; reflexivity|].
  exists (cs ++ [c]). rewrite run_calls_app. reflexivity.
Qed.

(** ** The counter of a buffer *)

Lemma counter_at_some (m : Machine) (l : loc) (v : Z) :
  counter_at m l = Some v <->
  exists buf, data_store m !! l = Some buf /\
              try_from_slice buf = Ok (mkGreetingAccount v).
Proof.
  unfold counter_at. split.
  - destruct (data_store m !! l) as [buf|]; [|discriminate].
    destruct (try_from_slice buf) as [[c]| |] eqn:Hg; intros; simplify_eq.
    eauto.
  - intros (buf & -> & ->). reflexivity.
Qed.

Lemma counter_at_logged (s : string) (m : Machine) (l : loc) :
  counter_at (logged s m) l = counter_at m l.
Proof. reflexivity. Qed.

Lemma counter_at_stored_ne (a : AccountInfo) (buf : list byte) (m : Machine) (l : loc) :
  data a <> l -> counter_at (stored a buf m) l = counter_at m l.
Proof.
  intros H. unfold counter_at, stored. cbn [data_store].
  rewrite lookup_insert_ne by exact H. reflexivity.
Qed.

Lemma counter_at_stored_eq (a : AccountInfo) (g : GreetingAccount) (m : Machine) :
  greeting_ok g -> counter_at (stored a (serialize g) m) (data a) = Some (counter g).
Proof.
  intros Hg. unfold counter_at, stored. cbn [data_store]. rewrite lookup_insert_eq.
  rewrite try_from_slice_serialize by exact Hg. reflexivity.
Qed.

Lemma effect_none_owner (c : Call) (l : loc) (a : AccountInfo) (rest : list AccountInfo) :
  call_accounts c = a :: rest -> owner a <> program_id \/ data a <> l ->
  effect c l = None.
Proof.
  intros Ha Hn. unfold effect. rewrite Ha.
  destruct (unpack (call_data c)); [|reflexivity..].
  rewrite decide_False by tauto. reflexivity.
Qed.

Lemma effect_some (c : Call) (a : AccountInfo) (rest : list AccountInfo)
    (i : HelloInstruction) :
  unpack (call_data c) = Ok i -> call_accounts c = a :: rest -> owner a = program_id ->
  effect c (data a) = Some i.
Proof.
  intros Hi Ha Ho. unfold effect. rewrite Hi, Ha, decide_True by auto. reflexivity.
Qed.

Lemma counter_step_none (c : Call) (l : loc) (v : Z) :
  effect c l = None -> counter_step l v c = v.
Proof. intros H. unfold counter_step. rewrite H. reflexivity. Qed.

(** A call leaves the borrow state of every cell as it was. *)
Lemma invoke_borrow_flags (c : Call) (m : Machine) :
  borrow_flags (fst (invoke c m)) = borrow_flags m.
Proof. exact (invocation_borrow_flags _ _ _ _ _ _ _ (run_invocation _ _ _ _ _)). Qed.

Lemma invoke_flag_of (c : Call) (m : Machine) (l : loc) :
  flag_of (fst (invoke c m)) l = flag_of m l.
Proof. unfold flag_of. rewrite invoke_borrow_flags. reflexivity. Qed.

(** The counter of [l] when the first account of the call is the buffer [l]
    and the arithmetic has been done. *)
Lemma counter_step_some (c : Call) (a : AccountInfo) (rest : list AccountInfo)
    (i : HelloInstruction) (v : Z) :
  unpack (call_data c) = Ok i -> call_accounts c = a :: rest -> owner a = program_id ->
  counter_step (data a) v c =
  if oc && overflows i (mkGreetingAccount v) then v
  else counter (apply (mkGreetingAccount v) i).
Proof.
  intros Hi Ha Ho. unfold counter_step.
  rewrite (effect_some c a rest i) by assumption. reflexivity.
Qed.

(** One call moves the counter of every buffer that nothing borrows by the
    specification's step. *)
Lemma invoke_counter_at (c : Call) (m : Machine) (l : loc) (v : Z) :
  counter_at m l = Some v -> flag_of m l = Unused ->
  counter_at (fst (invoke c m)) l = Some (counter_step l v c).
Proof.
  intros Hv Hu. pose proof Hv as (buf0 & Hl & Hg0)%counter_at_some. unfold invoke.
  destruct (run_invocation oc program_id (call_accounts c) (call_data c) m)
    as [e Hi | i Hi Ha | i a rest Hi Ha Ho | i a rest Hi Ha Ho Hd
       | i a rest buf Hi Ha Ho Hd Hf
       | i a rest buf e Hi Ha Ho Hd Hf Hg | i a rest buf g p Hi Ha Ho Hd Hf Hg Hp
       | i a rest buf g g' n Hi Ha Ho Hd Hf Hg Hp
       | i a rest buf g g' Hi Ha Ho Hd Hf Hg Hp];
    rewrite ?counter_at_logged;
    try (rewrite counter_step_none;
         [assumption
         |first [ unfold effect; rewrite Hi, ?Ha; reflexivity
                | eapply effect_none_owner; eauto; right; congruence ]]);
    (destruct (decide (data a = l)) as [<- | Hne];
     [ assert (g = mkGreetingAccount v) as -> by congruence;
       rewrite (counter_step_some c a rest i) by assumption;
       rewrite apply_instruction_eq in Hp by eauto with hello;
       destruct (oc && overflows i _); try discriminate
     | rewrite ?counter_at_stored_ne, ?counter_at_logged by assumption;
       rewrite counter_step_none; [assumption|]; eapply effect_none_owner; eauto ]).
  - assumption.
  - inv_outcome. apply counter_at_stored_eq, apply_ok. eauto with hello.
Qed.

(** C9: the store refines one counter per buffer: after any list of calls,
    the counter a buffer holds is the specification's transition folded over
    the calls, where a call contributes its instruction when it decodes and
    its first account is that buffer, owned by the program, and contributes
    nothing when it fails; the buffer is one that no caller keeps
    borrowed. *)
Theorem ledger_refines_counter (cs : list Call) (m : Machine) (l : loc) (v : Z) :
  counter_at m l = Some v -> flag_of m l = Unused ->
  counter_at (fst (run_calls cs m)) l = Some (fold_left (counter_step l) cs v).
Proof.
  revert m v. induction cs as [|c cs IH]; intros m v Hv Hu; simpl; [assumption|].
  apply IH; [by apply invoke_counter_at | by rewrite invoke_flag_of].
Qed.

(** What every call preserves, over any number of calls. *)
Lemma reachable_preserved (m0 m : Machine) :
  reachable m0 m ->
  (forall l, length <$> (data_store m !! l) = length <$> (data_store m0 !! l)) /\
  lamports_store m = lamports_store m0 /\
  borrow_flags m = borrow_flags m0 /\
  (forall l, greeting_cell m0 l -> greeting_cell m l) /\
  log m0 `prefix_of` log m.
Proof.
  induction 1 as [|m c _ (IHlen & IHlam & IHfl & IHcell & IHlog)].
  { repeat split; auto. }
  pose proof (run_invocation oc program_id (call_accounts c) (call_data c) m) as Hr.
  fold (invoke c m) in Hr. repeat split.
  - intros l. rewrite (invocation_lengths Hr l). apply IHlen.
  - rewrite (proj1 (invocation_data_store _ _ _ _ _ _ _ Hr)). exact IHlam.
  - rewrite invoke_borrow_flags. exact IHfl.
  - intros l Hl. apply (invocation_greeting_cell Hr), IHcell, Hl.
  - destruct (invocation_log Hr) as (lines & -> & _).
    etrans; [exact IHlog | apply prefix_app_r; reflexivity].
Qed.

(** C12: invariants of every machine the program can reach: buffers keep
    their lengths, lamport balances and the borrow state of the cells are
    untouched, a buffer that holds a counter holds one for ever, and the log
    only grows. *)
Theorem reachable_invariants (m0 m : Machine) :
  reachable m0 m ->
  (forall l, length <$> (data_store m !! l) = length <$> (data_store m0 !! l)) /\
  lamports_store m = lamports_store m0 /\
  borrow_flags m = borrow_flags m0 /\
  (forall l, greeting_cell m0 l -> greeting_cell m l) /\
  log m0 `prefix_of` log m.
Proof. exact (reachable_preserved m0 m). Qed.

(** On a buffer that holds a counter and that nothing borrows, a call that
    sets the counter succeeds, in either build. *)
Lemma invoke_set (m : Machine) (a : AccountInfo) (v : Z) :
  greeting_cell m (data a) -> flag_of m (data a) = Unused -> owner a = program_id ->
  u32_ok v ->
  snd (invoke (mkCall [a] (pack (Set_ v))) m) = Ok tt /\
  counter_at (fst (invoke (mkCall [a] (pack (Set_ v))) m)) (data a) = Some v.
Proof.
  intros (buf & g & Hd & Hg) Hf Ho Hv. unfold invoke. cbn [call_accounts call_data].
  rewrite (process_stores oc program_id [a] (pack (Set_ v)) m (Set_ v) a [] buf);
    [|apply andb_false_r|by apply unpack_pack_set|done..|exact (greeting_decoded_length _ _ Hg)].
  split; [reflexivity|]. cbn [fst apply counter].
  rewrite counter_at_logged. exact (counter_at_stored_eq a (mkGreetingAccount v) _ Hv).
Qed.

(** C15: no sequence of calls can wedge an account: from every machine the
    program can reach, a buffer that held a counter at the start and that
    nothing borrows can still be set to any [u32] value by one more call,
    in either build, whatever the calls before did (failed, overflowed,
    wrapped). *)
Theorem reachable_can_set (m0 m : Machine) (a : AccountInfo) (v : Z) :
  reachable m0 m ->
  greeting_cell m0 (data a) -> flag_of m0 (data a) = Unused -> owner a = program_id ->
  u32_ok v ->
  exists c, reachable m0 (fst (invoke c m)) /\ snd (invoke c m) = Ok tt /\
            counter_at (fst (invoke c m)) (data a) = Some v.
Proof.
  intros Hr Hc Hf Ho Hv. exists (mkCall [a] (pack (Set_ v))).
  destruct (reachable_preserved m0 m Hr) as (_ & _ & Hfl & Hcell & _).
  split; [by constructor|]. apply invoke_set; auto.
  unfold flag_of. rewrite Hfl. exact Hf.
Qed.

(** ** Who can change a buffer *)

(** A call that applies nothing to the buffer [l] leaves it as it was,
    whatever it holds and whoever borrows it. *)
Lemma invoke_effect_none (c : Call) (m : Machine) (l : loc) :
  effect c l = None -> data_store (fst (invoke c m)) !! l = data_store m !! l.
Proof.
  unfold effect, invoke. intros He.
  destruct (run_rule oc program_id (call_accounts c) (call_data c) m)
    as [_ [[_ ->] | (i & a & rest & buf & g & _ & Hi & Ha & Ho & _ & _ & ->)]]; [done|].
  rewrite Hi, Ha in He. case_decide as Hd; [done|].
  apply lookup_insert_ne. tauto.
Qed.

(** C17: the ownership gate, over any number of calls.  A buffer is changed
    only by a call whose instruction decodes and whose first account refers
    to the buffer and is owned by the program ([effect]): when no call of a
    list is such a call, the list leaves the bytes of the buffer as they
    were, whatever they are (a counter or not) and whoever borrows them.
    In particular no list of calls changes the data of an account that the
    program does not own. *)
Theorem run_calls_authorized (cs : list Call) (m : Machine) (l : loc) :
  Forall (fun c => effect c l = None) cs ->
  data_store (fst (run_calls cs m)) !! l = data_store m !! l.
Proof.
  intros Hcs. revert m. induction Hcs as [|c cs Hc _ IH]; intros m; simpl; [done|].
  rewrite IH. by apply invoke_effect_none.
Qed.

(** ** Calls that a client packs *)

(** A counter read from a buffer is a [u32]. *)
Lemma counter_at_u32 (m : Machine) (l : loc) (v : Z) : counter_at m l = Some v -> u32_ok v.
Proof. by intros (buf & _ & Hv%greeting_decoded_ok)%counter_at_some. Qed.

(** The call packed from a well-formed instruction, on an account the
    program owns whose buffer holds a counter that nothing borrows: it
    stores the new counter, or panics on an overflow that the build
    checks. *)
Lemma invoke_packed (m : Machine) (a : AccountInfo) (i : HelloInstruction)
    (g : GreetingAccount) :
  owner a = program_id -> counter_at m (data a) = Some (counter g) ->
  flag_of m (data a) = Unused -> instruction_ok i ->
  invoke (mkCall [a] (pack i)) m =
  if oc && overflows i g
  then (logged MSG_ENTRYPOINT m, Panic ArithmeticOverflow)
  else (logged (greeted_message (counter (apply g i)))
          (stored a (serialize (apply g i)) (logged MSG_ENTRYPOINT m)), Ok tt).
Proof.
  intros Ho (buf & Hd & Hg)%counter_at_some Hf Hi. destruct g as [v]. cbn [counter] in *.
  pose proof (unpack_pack i Hi) as Hu.
  pose proof (apply_instruction_eq oc i _ (greeting_decoded_ok _ _ Hg)) as Ha.
  unfold invoke. cbn [call_accounts call_data].
  destruct (oc && overflows i _); apply invocation_sound;
    [eapply inv_overflow | eapply inv_done]; eauto.
  congruence.
Qed.

(** The counter it leaves. *)
Lemma invoke_packed_counter (m : Machine) (a : AccountInfo) (i : HelloInstruction)
    (g : GreetingAccount) :
  owner a = program_id -> counter_at m (data a) = Some (counter g) ->
  flag_of m (data a) = Unused -> instruction_ok i ->
  counter_at (fst (invoke (mkCall [a] (pack i)) m)) (data a)
  = Some (counter (if oc && overflows i g then g else apply g i)).
Proof.
  intros Ho Hc Hf Hi. rewrite (invoke_packed m a i g) by assumption.
  destruct (oc && overflows i g); cbn [fst]; rewrite ?counter_at_logged; [done|].
  by apply counter_at_stored_eq, apply_ok.
Qed.

(** C26: the counter over repeated increments, in closed form.  After [n]
    calls of the packed [Increment] on an account the program owns, from a
    counter of [v]: a build that wraps leaves [v + n] modulo [2^32] and
    every call returns [Ok]; a build that checks overflow leaves the least
    of [v + n] and [u32::MAX], and the calls panic from the one that finds
    the counter at [u32::MAX] on: a counter that has reached [u32::MAX] stays
    there under [Increment]. *)
Theorem run_calls_increments (a : AccountInfo) (n : nat) (m : Machine) (v : Z) :
  owner a = program_id -> counter_at m (data a) = Some v -> flag_of m (data a) = Unused ->
  let r := run_calls (replicate n (mkCall [a] (pack Increment))) m in
  counter_at (fst r) (data a)
  = Some (if oc then Z.min (v + Z.of_nat n) U32_MAX else wrap32 (v + Z.of_nat n)) /\
  snd r = (fun k : nat => if oc && bool_decide (U32_MAX <= v + Z.of_nat k)%Z
                          then Panic ArithmeticOverflow else Ok tt) <$> seq 0 n.
Proof.
  intros Ho. revert m v. induction n as [|n IH]; intros m v Hc Hf;
    pose proof (counter_at_u32 m _ v Hc) as Hv; unfold u32_ok in Hv.
  { cbn. rewrite Hc, Z.add_0_r, wrap32_id by done.
    split; [|done]. destruct oc; do 2 f_equal. lia. }
  pose proof (invoke_packed_counter m a Increment (mkGreetingAccount v) Ho Hc Hf I) as Hc'.
  destruct (IH _ _ Hc') as [Hv' Hr]; [by rewrite invoke_flag_of|].
  cbn [replicate run_calls fst snd]. rewrite Hv', Hr.
  rewrite (invoke_packed m a Increment (mkGreetingAccount v)) by done.
  cbn [overflows counter apply seq fmap list_fmap].
  rewrite <- fmap_S_seq, <- list_fmap_compose. unfold wrap32, U32_MAX in *.
  destruct oc; cbn [andb]; repeat case_bool_decide; cbn [snd counter]; try lia;
    rewrite ?(Z.mod_small (v + 1)), ?Zplus_mod_idemp_l by lia;
    (split; [f_equal; first [lia | f_equal; lia]
            |f_equal; apply list_fmap_ext; intros k ? _; unfold compose]);
    repeat case_bool_decide; try done; lia.
Qed.

End Ledger.

(** ** The end-to-end scenario of the specification *)

(** The four calls of the scenario, all on the account [example_account]:
    [Increment], [Increment], [Set 10], [Decrement]. *)
Definition scenario_calls : list Call :=
  [mkCall [example_account] [x00];
   mkCall [example_account] [x00];
   mkCall [example_account] [x02; x0a; x00; x00; x00];
   mkCall [example_account] [x01]].

(** C18: end to end, in the build that wraps as the specification asks:
    the calls a client packs from any list of well-formed instructions, run
    in order on an account the program owns whose buffer holds a counter
    that nothing borrows, all return [Ok], and leave in the buffer the
    counter that the specification's transition gives, folded over the
    list.  The scenario of the specification is one such list. *)
Theorem run_calls_packed (program_id : Pubkey) (a : AccountInfo)
    (ops : list HelloInstruction) (m : Machine) (g : GreetingAccount) :
  owner a = program_id -> counter_at m (data a) = Some (counter g) ->
  flag_of m (data a) = Unused -> Forall instruction_ok ops ->
  let r := run_calls false program_id ((fun i => mkCall [a] (pack i)) <$> ops) m in
  snd r = replicate (length ops) (Ok tt) /\
  counter_at (fst r) (data a) = Some (counter (fold_left apply ops g)).
Proof.
  intros Ho Hc Hf Hops. revert m g Hc Hf.
  induction Hops as [|i ops Hi _ IH]; intros m g Hc Hf; [by split|]. csimpl.
  pose proof (invoke_packed_counter false program_id m a i g Ho Hc Hf Hi) as Hc'.
  destruct (IH _ _ Hc') as [Hr Hv]; [by rewrite invoke_flag_of|].
  rewrite Hr, Hv, (invoke_packed false program_id m a i g) by assumption. done.
Qed.

(** The scenario: from 0, [Increment], [Increment], [Set 10], [Decrement]
    succeed and leave 9. *)
Lemma run_calls_packed_witness :
  let r := run_calls false Pubkey_default scenario_calls
             (example_machine [x00; x00; x00; x00]) in
  snd r = [Ok tt; Ok tt; Ok tt; Ok tt] /\
  counter_at (fst r) (data example_account) = Some 9%Z.
Proof.
  apply (run_calls_packed Pubkey_default example_account
           [Increment; Increment; Set_ 10; Decrement]
           (example_machine [x00; x00; x00; x00]) (mkGreetingAccount 0));
    [reflexivity..|]. repeat constructor; by vm_compute.
Defined.

(** Calls that are refused, or that are on another account, leave the
    buffer of [example_account]: the scenario run for another program, a
    call that does not decode, a call without accounts. *)
Lemma run_calls_authorized_witness :
  let m := example_machine [x07; x00; x00; x00] in
  let cs := scenario_calls ++ [mkCall [example_account] [x03]; mkCall [] [x00]] in
  data_store (fst (run_calls true (mkPubkey [x09]) cs m)) !! data example_account
  = data_store m !! data example_account.
Proof. apply run_calls_authorized. repeat constructor. Defined.

(** Three increments from [u32::MAX - 1] in a build that checks overflow:
    the first succeeds, the others panic and the counter stays. *)
Lemma run_calls_increments_witness :
  let r := run_calls true Pubkey_default
             (replicate 3 (mkCall [example_account] (pack Increment)))
             (example_machine [xfe; xff; xff; xff]) in
  counter_at (fst r) (data example_account) = Some U32_MAX /\
  snd r = [Ok tt; Panic ArithmeticOverflow; Panic ArithmeticOverflow].
Proof.
  apply (run_calls_increments true Pubkey_default example_account 3
           (example_machine [xfe; xff; xff; xff]) (U32_MAX - 1)); reflexivity.
Defined.

Lemma ledger_refines_counter_witness :
  counter_at
    (fst (run_calls true Pubkey_default scenario_calls
            (example_machine [xff; xff; xff; xff]))) 2%positive
  = Some (fold_left (counter_step true Pubkey_default 2%positive) scenario_calls U32_MAX).
Proof. apply ledger_refines_counter; reflexivity. Defined.

Lemma reachable_invariants_witness :
  let m0 := example_machine [xff; xff; xff; xff] in
  let m := fst (run_calls false Pubkey_default scenario_calls m0) in
  (forall l, length <$> (data_store m !! l) = length <$> (data_store m0 !! l)) /\
  lamports_store m = lamports_store m0 /\
  borrow_flags m = borrow_flags m0 /\
  (forall l, greeting_cell m0 l -> greeting_cell m l) /\
  log m0 `prefix_of` log m.
Proof.
  apply (reachable_invariants false Pubkey_default).
  apply run_calls_reachable. constructor.
Defined.

#[export] Hint Constructors reachable : hello.

Lemma reachable_can_set_witness :
  let m0 := example_machine [xff; xff; xff; xff] in
  let m := fst (run_calls true Pubkey_default scenario_calls m0) in
  exists c, reachable true Pubkey_default m0 (fst (invoke true Pubkey_default c m)) /\
            snd (invoke true Pubkey_default c m) = Ok tt /\
            counter_at (fst (invoke true Pubkey_default c m)) (data example_account) = Some 7%Z.
Proof.
  apply (reachable_can_set true Pubkey_default).
  - apply run_calls_reachable. constructor.
  - exists [xff; xff; xff; xff], (mkGreetingAccount U32_MAX). split; reflexivity.
  - reflexivity.
  - reflexivity.
  - by vm_compute.
Defined.
