(* ===== verification/Observation.v ===== *)
(** * Machines up to their logs

    The log is write-only: [process_instruction] appends to it with [msg!]
    and never reads it.  This file makes that precise.  Two machines are
    [same_stores] when their account buffers and lamports agree, whatever
    their logs hold; a statement is blind to the log when it maps machines
    with the same stores to machines with the same stores and returns the
    same result on both ([log_blind], a [Proper] instance).  Blindness is
    proved statement by statement and composed through the bind of the
    monad, up to the entry point and to lists of calls, and the counter that
    [counter_at] reads respects the equivalence.  The other files use the
    equivalence to state results up to the log and the instances to rewrite
    with it. *)

From Stdlib Require Import ZArith List String Strings.Byte Morphisms.
From stdpp Require Import base tactics option list gmap.
From S2P Require Import Prelude Word Runtime Instruction Greeting Processor Ledger.

#[local] Open Scope prog_scope.

(** The stores of the two machines agree (buffers, lamports and the borrow
    state of the cells); their logs may differ. *)
Definition same_stores (m1 m2 : Machine) : Prop :=
  data_store m1 = data_store m2 /\ lamports_store m1 = lamports_store m2 /\
  borrow_flags m1 = borrow_flags m2.

(** The machine with its log emptied: the representative of its class. *)
Definition erase_log (m : Machine) : Machine :=
  mkMachine (data_store m) (lamports_store m) (borrow_flags m) [].

#[export] Instance same_stores_dec m1 m2 : Decision (same_stores m1 m2).
Proof. unfold same_stores. apply _. Defined.

#[export] Instance same_stores_equivalence : Equivalence same_stores.
Proof.
  split.
  - intros m. repeat split; reflexivity.
  - intros m1 m2 (Hd & Hl & Hb). repeat split; congruence.
  - intros m1 m2 m3 (Hd & Hl & Hb) (Hd' & Hl' & Hb'). repeat split; congruence.
Qed.

(** ** Relating two runs of a statement

    [prog_rel R] relates two statements that take [R]-related states to
    [R]-related states with equal results. *)
Section ProgRel.
Context {S E : Type} (R : relation S).

Definition prog_rel {A : Type} : relation (prog S E A) :=
  (R ==> prod_relation R eq)%signature.

Lemma pret_rel {A} (a : A) : prog_rel (pret a) (pret a).
Proof. intros s1 s2 Hs. split; [exact Hs | reflexivity]. Qed.

Lemma pfail_rel {A} (e : E) : prog_rel (A := A) (pfail e) (pfail e).
Proof. intros s1 s2 Hs. split; [exact Hs | reflexivity]. Qed.

Lemma plift_rel {A} (r : outcome E A) : prog_rel (plift r) (plift r).
Proof. intros s1 s2 Hs. split; [exact Hs | reflexivity]. Qed.

Lemma pmodify_rel (f : S -> S) :
  Proper (R ==> R) f -> prog_rel (pmodify f) (pmodify f).
Proof. intros Hf s1 s2 Hs. split; [apply Hf, Hs | reflexivity]. Qed.

#[export] Instance pbind_proper {A B} :
  Proper (prog_rel ==> pointwise_relation A prog_rel ==> prog_rel)
    (pbind (S := S) (E := E) (A := A) (B := B)).
Proof.
  intros p q Hp k h Hk s1 s2 Hs. unfold pbind.
  destruct (Hp s1 s2 Hs) as [Hst Hres].
  destruct (p s1) as [s1' r1], (q s2) as [s2' r2]; simpl in *; subst r2.
  destruct r1; [apply Hk, Hst | split; [exact Hst | reflexivity] ..].
Qed.

Lemma pbind_rel {A B} (p : prog S E A) (k : A -> prog S E B) :
  prog_rel p p -> (forall a, prog_rel (k a) (k a)) -> prog_rel (pbind p k) (pbind p k).
Proof. intros Hp Hk. apply pbind_proper; [exact Hp | exact Hk]. Qed.

End ProgRel.

(** A statement of the program that neither reads the log nor lets it
    decide what it stores or returns. *)
Definition log_blind {A : Type} (p : Prog A) : Prop :=
  Proper (prog_rel same_stores) p.

Existing Class log_blind.

#[export] Hint Resolve pret_rel pfail_rel plift_rel : hello.

(** Splits a statement built from binds into its parts. *)
Ltac blind_step :=
  match goal with
  | |- log_blind _ => unfold log_blind, Proper
  | |- prog_rel _ (pbind _ _) (pbind _ _) => apply pbind_rel
  | |- prog_rel _ (pret _) _ => apply pret_rel
  | |- prog_rel _ (pfail _) _ => apply pfail_rel
  | |- prog_rel _ (plift _) _ => apply plift_rel
  | |- prog_rel _ (if ?c then _ else _) _ => destruct c
  | |- prog_rel _ (match ?x with pair _ _ => _ end) _ => destruct x
  | |- forall _, _ => intros ?
  | |- prog_rel same_stores ?p ?p => change (log_blind p); solve [eauto with typeclass_instances]
  end.

Ltac solve_blind := repeat blind_step.

(** ** The operations of the runtime *)

#[export] Instance logged_proper s : Proper (same_stores ==> same_stores) (logged s).
Proof. intros m1 m2 (Hd & Hl & Hb). repeat split; assumption. Qed.

#[export] Instance stored_proper a buf :
  Proper (same_stores ==> same_stores) (stored a buf).
Proof. intros m1 m2 (Hd & Hl & Hb). repeat split; simpl; congruence. Qed.

#[export] Instance data_store_proper : Proper (same_stores ==> eq) data_store.
Proof. intros m1 m2 [Hd _]. exact Hd. Qed.

#[export] Instance lamports_store_proper : Proper (same_stores ==> eq) lamports_store.
Proof. intros m1 m2 (_ & Hl & _). exact Hl. Qed.

#[export] Instance flag_of_proper : Proper (same_stores ==> eq ==> eq) flag_of.
Proof. intros m1 m2 (_ & _ & Hb) l ? <-. unfold flag_of. rewrite Hb. reflexivity. Qed.

#[export] Instance account_valid_proper : Proper (same_stores ==> eq ==> iff) account_valid.
Proof. intros m1 m2 Hm a ? <-. unfold account_valid. rewrite Hm. reflexivity. Qed.

#[export] Instance counter_at_proper : Proper (same_stores ==> eq ==> eq) counter_at.
Proof. intros m1 m2 Hm l ? <-. unfold counter_at. rewrite Hm. reflexivity. Qed.

#[export] Instance msg_blind s : log_blind (msg s).
Proof. apply pmodify_rel, _. Qed.

#[export] Instance write_data_blind a buf : log_blind (write_data a buf).
Proof. apply pmodify_rel, _. Qed.

#[export] Instance borrow_data_blind a : log_blind (borrow_data a).
Proof.
  intros m1 m2 Hm. unfold borrow_data.
  rewrite (data_store_proper _ _ Hm), (flag_of_proper _ _ Hm _ _ eq_refl).
  destruct (data_store m2 !! data a); [case_decide|]; (split; [exact Hm | reflexivity]).
Qed.

#[export] Instance borrow_data_mut_blind a : log_blind (borrow_data_mut a).
Proof.
  intros m1 m2 Hm. unfold borrow_data_mut.
  rewrite (data_store_proper _ _ Hm), (flag_of_proper _ _ Hm _ _ eq_refl).
  destruct (data_store m2 !! data a); [case_decide|]; (split; [exact Hm | reflexivity]).
Qed.

(** ** The statements of the entry point *)

#[export] Instance check_owner_blind program_id account :
  log_blind (check_owner program_id account).
Proof. unfold check_owner. solve_blind. Qed.

#[export] Instance load_greeting_blind account : log_blind (load_greeting account).
Proof. unfold load_greeting. solve_blind. Qed.

#[export] Instance store_greeting_blind account g :
  log_blind (store_greeting account g).
Proof. unfold store_greeting. solve_blind. Qed.

#[export] Instance process_instruction_blind oc program_id accounts instruction_data :
  log_blind (process_instruction oc program_id accounts instruction_data).
Proof. unfold process_instruction. solve_blind. Qed.

#[export] Instance invoke_blind oc program_id c : log_blind (invoke oc program_id c).
Proof. unfold invoke. apply _. Qed.

Lemma same_stores_erase_log (m : Machine) : same_stores m (erase_log m).
Proof. repeat split; reflexivity. Qed.

Lemma erase_log_same_stores (m1 m2 : Machine) :
  same_stores m1 m2 <-> erase_log m1 = erase_log m2.
Proof.
  unfold same_stores, erase_log. split.
  - intros (-> & -> & ->). reflexivity.
  - intros H. injection H as Hd Hl Hb. repeat split; assumption.
Qed.

Lemma run_calls_blind (oc : bool) (program_id : Pubkey) (cs : list Call) :
  (same_stores ==> prod_relation same_stores eq)%signature
    (run_calls oc program_id cs) (run_calls oc program_id cs).
Proof.
  induction cs as [|c cs IH]; intros m1 m2 Hm; simpl.
  - split; [exact Hm | reflexivity].
  - destruct (invoke_blind oc program_id c m1 m2 Hm) as [Hst Hres].
    destruct (IH _ _ Hst) as [Hst' Hres']. split; simpl; [exact Hst' | congruence].
Qed.
