(* ===== verification/Phases.v ===== *)
(** * The entry point as a machine of phases

    [process_instruction] is straight-line code with early returns.  This
    file runs it one statement at a time: a configuration is the statement
    about to run (a [phase], with the local variables that are live there)
    and the machine; [step] runs that statement with the definitions of
    [Processor] and moves to the next phase, or to [Done] with the error or
    panic that ended the call.

    The theorems connect the three views of the entry point.  The sequences
    of steps from [Start] to [Done] are exactly the rules of [invocation]
    ([run] with eight steps of fuel, one for each statement, computes
    [process_instruction]); and an invariant of all configurations on the
    way, proved by induction over the steps, shows what the result alone
    cannot: the account buffers are untouched in every configuration before
    the counter is stored, and the lamports in all of them. *)

From Stdlib Require Import ZArith Lia List String Strings.Byte.
From stdpp Require Import base tactics option list gmap relations.
From S2P Require Import Prelude Word Runtime Instruction Greeting Processor.

(** The statement of [process_instruction] that runs next, with the
    variables it uses. *)
Inductive phase : Type :=
| Start
| Decode
| Accounts (instruction : HelloInstruction)
| Authorize (instruction : HelloInstruction) (account : AccountInfo)
| Load (instruction : HelloInstruction) (account : AccountInfo)
| Apply (instruction : HelloInstruction) (account : AccountInfo)
    (greeting_account : GreetingAccount)
| Serialize (account : AccountInfo) (greeting_account : GreetingAccount)
| Report (account : AccountInfo) (greeting_account : GreetingAccount)
| Done (result : outcome ProgramError unit).

Definition config : Type := phase * Machine.

(** The configuration after a statement: the next phase when it completed,
    [Done] with its error when it returned early or panicked. *)
Definition advance {A : Type} (r : Machine * outcome ProgramError A)
    (next : A -> phase) : config :=
  match snd r with
  | Ok a => (next a, fst r)
  | Err e => (Done (Err e), fst r)
  | Panic p => (Done (Panic p), fst r)
  end.

(** The statements left to run, counting the current one. *)
Definition rank (ph : phase) : nat :=
  match ph with
  | Start => 8
  | Decode => 7
  | Accounts _ => 6
  | Authorize _ _ => 5
  | Load _ _ => 4
  | Apply _ _ _ => 3
  | Serialize _ _ => 2
  | Report _ _ => 1
  | Done _ => 0
  end.

Definition is_done (c : config) : bool :=
  match fst c with Done _ => true | _ => false end.

(** The phases in which the counter has not been stored: every phase but
    [Report] and the successful end. *)
Definition before_store (ph : phase) : bool :=
  match ph with
  | Report _ _ | Done (Ok _) => false
  | _ => true
  end.

(** The integers a phase carries are [u32] values: the payload of the
    decoded instruction and the counter, before and after the arithmetic. *)
Definition phase_ok (ph : phase) : Prop :=
  match ph with
  | Accounts i | Authorize i _ | Load i _ => instruction_ok i
  | Apply i _ g => instruction_ok i /\ greeting_ok g
  | Serialize _ g | Report _ g => greeting_ok g
  | Start | Decode | Done _ => True
  end.

(** The account a phase works on: the variable [account], in the phases
    after [next_account_info] has returned it. *)
Definition phase_account (ph : phase) : option AccountInfo :=
  match ph with
  | Authorize _ a | Load _ a | Apply _ a _ | Serialize a _ | Report a _ => Some a
  | Accounts _ | Start | Decode | Done _ => None
  end.

(** The configuration in which a call ends with the result of [r]. *)
Definition finish (r : Machine * outcome ProgramError unit) : config :=
  (Done (snd r), fst r).

(** The part of the machine no statement of the entry point changes: the
    lamports and the borrow state of [m'] are those of [m] and its log
    extends the log of [m]. *)
Definition frame_inv (m m' : Machine) : Prop :=
  lamports_store m' = lamports_store m /\ borrow_flags m' = borrow_flags m /\
  exists lines, log m' = log m ++ lines.

Section Phases.
Context (oc : bool) (program_id : Pubkey) (accounts : list AccountInfo)
  (instruction_data : list byte).

(** One statement of the entry point. *)
Definition step (c : config) : option config :=
  let m := snd c in
  match fst c with
  | Start => Some (advance (msg MSG_ENTRYPOINT m) (fun _ => Decode))
  | Decode => Some (advance (plift (unpack instruction_data) m) Accounts)
  | Accounts i =>
      Some (advance (plift (next_account_info accounts) m) (fun ar => Authorize i (fst ar)))
  | Authorize i a => Some (advance (check_owner program_id a m) (fun _ => Load i a))
  | Load i a => Some (advance (load_greeting a m) (Apply i a))
  | Apply i a g => Some (advance (plift (apply_instruction oc i g) m) (Serialize a))
  | Serialize a g => Some (advance (store_greeting a g m) (fun _ => Report a g))
  | Report a g =>
      Some (advance (msg (greeted_message (counter g)) m) (fun _ => Done (Ok tt)))
  | Done _ => None
  end.

(** Runs statements until the call is done or the fuel is used up. *)
Fixpoint run (fuel : nat) (c : config) : config :=
  match fuel with
  | O => c
  | S n =>
      match step c with
      | Some c' => run n c'
      | None => c
      end
  end.

(** [c'] is the configuration after the statement of [c]. *)
Definition moves (c c' : config) : Prop := step c = Some c'.

(** What holds of the account buffers in a phase reached from [Start] on
    the machine [m]: they are those of [m] until the counter has been
    stored, and while the counter is live the buffer it was loaded from is
    in the store. *)
Definition data_inv (m : Machine) (ph : phase) (m' : Machine) : Prop :=
  match ph with
  | Apply _ a _ | Serialize a _ =>
      data_store m' = data_store m /\
      exists buf g, data_store m !! data a = Some buf /\
                    try_from_slice (A := GreetingAccount) buf = Ok g
  | Report a g => data_store m' = <[data a := serialize g]> (data_store m)
  | Done (Ok _) =>
      exists a g, data_store m' = <[data a := serialize g]> (data_store m)
  | _ => data_store m' = data_store m
  end.

(** The invariant of the configurations reached from [Start] on [m]. *)
Definition phase_inv (m : Machine) (c : config) : Prop :=
  frame_inv m (snd c) /\ data_inv m (fst c) (snd c).

(** ** Steps *)

Lemma step_none (c : config) : step c = None <-> is_done c = true.
Proof. destruct c as [[] m]; unfold step, is_done; simpl; split; intros; congruence. Qed.

Lemma advance_rank {A} (r : Machine * outcome ProgramError A) (next : A -> phase) (n : nat) :
  (forall a, rank (next a) <= n) -> rank (fst (advance r next)) <= n.
Proof. intros H. unfold advance. destruct (snd r); simpl; [apply H | lia ..]. Qed.

(** Every statement leaves fewer statements to run. *)
Lemma moves_rank (c c' : config) : moves c c' -> rank (fst c') < rank (fst c).
Proof.
  unfold moves, step. destruct c as [[] m]; simpl; intros H; simplify_eq;
    apply Nat.lt_succ_r, advance_rank; intros; simpl; lia.
Qed.

Lemma run_done (n : nat) (c : config) : is_done c = true -> run n c = c.
Proof. intros H%step_none. destruct n; simpl; [|rewrite H]; reflexivity. Qed.

Lemma run_moves (n : nat) (c c' : config) : moves c c' -> run (S n) c = run n c'.
Proof. unfold moves. intros H. simpl. rewrite H. reflexivity. Qed.

(** [run] follows the steps. *)
Lemma moves_run (n : nat) (c : config) : rtc moves c (run n c).
Proof.
  revert c. induction n as [|n IH]; intros c; simpl; [reflexivity|].
  destruct (step c) as [c'|] eqn:Hs; [|reflexivity].
  eapply rtc_l; [exact Hs | apply IH].
Qed.

(** A sequence of steps that ends in [Done] is the one [run] takes. *)
Lemma steps_run (n : nat) (c d : config) :
  rtc moves c d -> is_done d = true -> rank (fst c) <= n -> run n c = d.
Proof.
  intros Hs Hd. revert n. induction Hs as [c|c c' d Hm _ IH]; intros n Hr.
  - apply run_done, Hd.
  - pose proof (moves_rank _ _ Hm). destruct n as [|n]; [lia|].
    rewrite (run_moves _ _ _ Hm). apply IH; [exact Hd | lia].
Qed.

(** [run] on a statement followed by the rest of the block is the bind of
    the monad. *)
Lemma run_bind {A} (n : nat) (ph : phase) (p : Prog A) (next : A -> phase)
    (k : A -> Prog unit) (m : Machine) :
  step (ph, m) = Some (advance (p m) next) ->
  (forall a m', run n (next a, m') = finish (k a m')) ->
  run (S n) (ph, m) = finish (pbind p k m).
Proof.
  intros Hs Hk. simpl. rewrite Hs. unfold advance, pbind.
  destruct (p m) as [m' [a|e|q]]; simpl; [apply Hk | by apply run_done ..].
Qed.

Lemma run_start (m : Machine) :
  run 8 (Start, m) = finish (process_instruction oc program_id accounts instruction_data m).
Proof.
  unfold process_instruction.
  do 2 (eapply run_bind; [reflexivity | intros ? ?]).
  eapply run_bind; [reflexivity | intros [account accounts_iter] ?].
  do 5 (eapply run_bind; [reflexivity | intros ? ?]).
  reflexivity.
Qed.

(** ** The invariant *)

Lemma frame_inv_refl (m : Machine) : frame_inv m m.
Proof. split_and!; [reflexivity .. | exists []; by rewrite app_nil_r]. Qed.

Lemma frame_inv_logged (s : string) (m m' : Machine) :
  frame_inv m m' -> frame_inv m (logged s m').
Proof.
  intros (Hl & Hb & lines & Hg). split_and!; [exact Hl | exact Hb |].
  exists (lines ++ [s]). simpl. rewrite Hg. by rewrite app_assoc.
Qed.

Lemma frame_inv_stored (a : AccountInfo) (buf : list byte) (m m' : Machine) :
  frame_inv m m' -> frame_inv m (stored a buf m').
Proof. intros H. exact H. Qed.

(** The invariant after a statement, from what the statement returned. *)
Lemma advance_phase_inv {A} (m : Machine) (r : Machine * outcome ProgramError A)
    (next : A -> phase) :
  frame_inv m (fst r) ->
  (forall a, snd r = Ok a -> data_inv m (next a) (fst r)) ->
  (is_ok (snd r) = false -> data_store (fst r) = data_store m) ->
  phase_inv m (advance r next).
Proof.
  intros Hf Hok Herr. unfold advance, phase_inv.
  destruct (snd r) as [a|e|p]; simpl; split; auto.
Qed.

Lemma check_owner_data_store (a : AccountInfo) (m : Machine) :
  data_store (fst (check_owner program_id a m)) = data_store m.
Proof. unfold check_owner. case_decide; reflexivity. Qed.

Lemma check_owner_frame (a : AccountInfo) (m m' : Machine) :
  frame_inv m m' -> frame_inv m (fst (check_owner program_id a m')).
Proof.
  intros H. unfold check_owner. case_decide; [apply frame_inv_logged|]; exact H.
Qed.

Lemma store_greeting_phase_inv (m m1 : Machine) (a : AccountInfo) (g : GreetingAccount) :
  phase_inv m (Serialize a g, m1) ->
  phase_inv m (advance (store_greeting a g m1) (fun _ => Report a g)).
Proof.
  intros [Hf [Hd (buf & g0 & Hb & Hg)]]. simpl in Hf, Hd. rewrite <- Hd in Hb.
  destruct (decide (flag_of m1 (data a) = Unused)) as [Hu|Hu].
  - rewrite (store_greeting_decoded _ _ buf g0 g Hb Hu Hg).
    split; simpl; [exact Hf | by rewrite Hd].
  - rewrite (store_greeting_borrowed _ _ buf g Hb Hu). split; assumption.
Qed.

Lemma load_greeting_phase_inv (m m1 : Machine) (i : HelloInstruction) (a : AccountInfo) :
  phase_inv m (Load i a, m1) ->
  phase_inv m (advance (load_greeting a m1) (Apply i a)).
Proof.
  intros [Hf Hd]. simpl in Hf, Hd.
  apply advance_phase_inv; rewrite ?load_greeting_state; auto.
  intros g (buf & Hb & Hg & _)%load_greeting_ok. rewrite Hd in Hb.
  split; eauto.
Qed.

(** Every statement preserves the invariant. *)
Lemma moves_phase_inv (m : Machine) (c c' : config) :
  phase_inv m c -> moves c c' -> phase_inv m c'.
Proof.
  unfold moves, step. destruct c as [ph m1]. intros Hinv Hs.
  destruct ph; simpl in Hs; simplify_eq;
    [| | | |by apply load_greeting_phase_inv| |by apply store_greeting_phase_inv|];
    destruct Hinv as [Hf Hd]; simpl in Hf, Hd; apply advance_phase_inv;
    try solve [simpl; auto using frame_inv_logged | simpl; discriminate].
  - by apply check_owner_frame.
  - intros _ _. simpl. by rewrite check_owner_data_store.
  - intros _. by rewrite check_owner_data_store.
  - intros _. apply Hd.
  - intros _ _. simpl. eauto.
Qed.

Lemma steps_phase_inv (m : Machine) (c : config) :
  rtc moves (Start, m) c -> phase_inv m c.
Proof.
  revert c. apply rtc_ind_r.
  - split; [apply frame_inv_refl | reflexivity].
  - intros c c' _ Hm IH. exact (moves_phase_inv m c c' IH Hm).
Qed.

(** ** Typing *)

(** What holds of every end of a call and of the next phase when the
    statement completes holds after the statement. *)
Lemma advance_ind {A} (P : phase -> Prop) (r : Machine * outcome ProgramError A)
    (next : A -> phase) :
  (forall res, P (Done res)) -> (forall a, snd r = Ok a -> P (next a)) ->
  P (fst (advance r next)).
Proof. intros Hd H. unfold advance. destruct (snd r); simpl; auto. Qed.

Lemma advance_phase_ok {A} (r : Machine * outcome ProgramError A) (next : A -> phase) :
  (forall a, snd r = Ok a -> phase_ok (next a)) -> phase_ok (fst (advance r next)).
Proof. apply advance_ind. intros; exact I. Qed.

(** Every statement takes integers in range to integers in range, in
    either build. *)
Lemma moves_phase_ok (c c' : config) :
  phase_ok (fst c) -> moves c c' -> phase_ok (fst c').
Proof.
  unfold moves, step. destruct c as [ph m1]. intros Hok Hs.
  destruct ph; simpl in Hs, Hok; simplify_eq; apply advance_phase_ok; simpl;
    try solve [intros; eauto with hello].
  - intros g (buf & _ & Hg & _)%load_greeting_ok. eauto with hello.
  - intros g' Hg'. destruct Hok as [Hi Hg]. by eapply apply_instruction_greeting_ok.
Qed.

Lemma steps_phase_ok (m : Machine) (c : config) :
  rtc moves (Start, m) c -> phase_ok (fst c).
Proof.
  revert c. apply rtc_ind_r; [exact I|].
  intros c c' _ Hm IH. exact (moves_phase_ok c c' IH Hm).
Qed.

(** ** The account of a phase *)

(** The account a phase works on is the first of the accounts passed. *)
Lemma moves_phase_account (c c' : config) :
  (forall a, phase_account (fst c) = Some a -> head accounts = Some a) ->
  moves c c' -> forall a, phase_account (fst c') = Some a -> head accounts = Some a.
Proof.
  unfold moves, step. destruct c as [ph m1]. intros Hok Hs.
  destruct ph; simpl in Hs, Hok; simplify_eq;
    apply (advance_ind (fun ph => forall a, phase_account ph = Some a -> _));
    try discriminate; simpl; auto.
  intros [a rest] Hn%next_account_info_ok ? [= <-]. by rewrite Hn.
Qed.

Lemma steps_phase_account (m : Machine) (c : config) (a : AccountInfo) :
  rtc moves (Start, m) c -> phase_account (fst c) = Some a -> head accounts = Some a.
Proof.
  intros Hs. revert c Hs a. apply (rtc_ind_r (fun c => forall a, _ -> _)); [discriminate|].
  intros c c' _ Hm IH. exact (moves_phase_account c c' IH Hm).
Qed.

(** ** The three views agree *)

(** A sequence of steps from [Start] that ends has computed the entry
    point. *)
Lemma steps_done (m m' : Machine) (r : outcome ProgramError unit) :
  rtc moves (Start, m) (Done r, m') ->
  process_instruction oc program_id accounts instruction_data m = (m', r).
Proof.
  intros Hs. apply (steps_run 8) in Hs; [|reflexivity|reflexivity].
  rewrite run_start in Hs. unfold finish in Hs.
  destruct (process_instruction oc program_id accounts instruction_data m).
  by simplify_eq.
Qed.

(** C10: the sequences of steps from [Start] to [Done] are the rules of
    [invocation]: the call can end in [Done r] on the machine [m'] exactly
    when a rule gives the result [r] and the machine [m']. *)
Theorem steps_invocation (m m' : Machine) (r : outcome ProgramError unit) :
  rtc moves (Start, m) (Done r, m') <->
  invocation oc program_id accounts instruction_data m m' r.
Proof.
  split.
  - intros Hs. apply invocation_complete, steps_done, Hs.
  - intros Hi%invocation_sound.
    change (Done r, m') with (finish (m', r)). rewrite <- Hi, <- run_start.
    apply moves_run.
Qed.

(** C14: the entry point is well typed on the model's unbounded integers:
    in every configuration a call passes through, in either build, the
    payload of the instruction and the counter are [u32] values, and a
    configuration that is not [Done] can take its step. *)
Theorem steps_well_typed (m : Machine) (c : config) :
  rtc moves (Start, m) c ->
  phase_ok (fst c) /\ (is_done c = false -> exists c', moves c c').
Proof.
  intros Hs. split; [exact (steps_phase_ok m c Hs)|].
  intros Hd. destruct (step c) as [c'|] eqn:Hc; [by exists c'|].
  apply step_none in Hc. congruence.
Qed.

(** C13: in every configuration a call passes through, the lamports and
    the borrow state of the cells are those it started with and the log
    extends the log it started with; and
    until the counter has been stored (every phase before [Report], and
    every end with an error or a panic) the account buffers are those it
    started with: no statement before the final serialisation writes. *)
Theorem steps_keep_data_until_stored (m : Machine) (c : config) :
  rtc moves (Start, m) c ->
  lamports_store (snd c) = lamports_store m /\
  borrow_flags (snd c) = borrow_flags m /\
  (exists lines, log (snd c) = log m ++ lines) /\
  (before_store (fst c) = true -> data_store (snd c) = data_store m).
Proof.
  intros [(Hl & Hb & Hg) Hd]%steps_phase_inv.
  split_and!; [exact Hl | exact Hb | exact Hg |].
  destruct c as [[| | | | | | | |[]] m1]; simpl in *; try discriminate; intros _;
    first [exact Hd | apply Hd].
Qed.

End Phases.

Lemma steps_keep_data_until_stored_witness :
  let m := example_machine [xff; xff; xff; xff] in
  let c := run true Pubkey_default [example_account] [x00] 6 (Start, m) in
  lamports_store (snd c) = lamports_store m /\
  borrow_flags (snd c) = borrow_flags m /\
  (exists lines, log (snd c) = log m ++ lines) /\
  (before_store (fst c) = true -> data_store (snd c) = data_store m).
Proof.
  apply (steps_keep_data_until_stored true Pubkey_default [example_account] [x00]).
  apply moves_run.
Defined.

Lemma steps_well_typed_witness :
  let c := run true Pubkey_default [example_account] [x02; xff; xff; xff; xff] 6
             (Start, example_machine [x00; x00; x00; x00]) in
  phase_ok (fst c) /\
  (is_done c = false ->
   exists c', moves true Pubkey_default [example_account] [x02; xff; xff; xff; xff] c c').
Proof.
  apply (steps_well_typed true Pubkey_default [example_account]
           [x02; xff; xff; xff; xff] (example_machine [x00; x00; x00; x00])).
  apply moves_run.
Defined.
