(* ===== verification/Entrypoint.v ===== *)
(** * The exported entry point ([lib.rs], [entrypoint!(process_instruction)])

    The macro [entrypoint!] declares the symbol the runtime calls.  Its
    expansion parses the input buffer into the program id, the accounts and
    the instruction bytes, calls [process_instruction] and turns the result
    into the [u64] the runtime reads: [SUCCESS] for [Ok], the number of the
    error otherwise.  A panic aborts the program and returns nothing.

    The parsing of the input buffer is unsafe library code on raw memory
    and is not modelled: [entrypoint] takes the three arguments parsed.  The
    numbers of the errors are those of [solana_program::program_error]: a
    builtin error is its index shifted left by 32 bits, so that the low
    32 bits stay free for the custom errors of programs.

    [exit_code] is the table of the values the entry point returns, each
    with the condition on the arguments of the call under which it does;
    [entrypoint_exit_code] proves the table of the function. *)

From Stdlib Require Import ZArith Lia List String Strings.Byte.
From stdpp Require Import base tactics option list gmap.
From S2P Require Import Prelude Word Runtime Instruction Greeting Processor.

#[local] Open Scope Z_scope.

(** [entrypoint::SUCCESS]. *)
Definition SUCCESS : Z := 0.

(** [impl From<ProgramError> for u64], on the variants the program returns.
    The cause carried by [BorshIoError] is dropped. *)
Definition ProgramError_to_u64 (e : ProgramError) : Z :=
  match e with
  | InvalidInstructionData => Z.shiftl 3 32
  | IncorrectProgramId => Z.shiftl 7 32
  | NotEnoughAccountKeys => Z.shiftl 11 32
  | BorshIoError _ => Z.shiftl 15 32
  end.

(** What the runtime sees of a call: the value returned, or an abort. *)
Definition returned (r : outcome ProgramError unit) : outcome Empty_set Z :=
  match r with
  | Ok _ => Ok SUCCESS
  | Err error => Ok (ProgramError_to_u64 error)
  | Panic p => Panic p
  end.

Section Entrypoint.
Context (overflow_checks : bool).

(** [pub unsafe extern "C" fn entrypoint(input: *mut u8) -> u64], after the
    parsing of [input]. *)
Definition entrypoint (program_id : Pubkey) (accounts : list AccountInfo)
    (instruction_data : list byte) : prog Machine Empty_set Z :=
  fun m =>
    let r := process_instruction overflow_checks program_id accounts instruction_data m in
    (fst r, returned (snd r)).

End Entrypoint.

(** ** The value returned, from the arguments *)

Section Codes.
Context (oc : bool) (program_id : Pubkey) (accounts : list AccountInfo)
  (instruction_data : list byte) (m : Machine).

(** The table of the values the runtime can read, each with the condition
    on the arguments and the machine under which it is returned, in the
    order of the statements: the instruction does not decode; no account
    is passed; the first account is not owned by the program; its data is
    not four bytes long; the counter is stored. *)
Definition exit_code (v : Z) : Prop :=
  (v = 0x300000000 /\ unpack instruction_data = Err InvalidInstructionData) \/
  (v = 0xb00000000 /\ is_ok (unpack instruction_data) = true /\ accounts = []) \/
  (v = 0x700000000 /\ is_ok (unpack instruction_data) = true /\
     exists a rest, accounts = a :: rest /\ owner a <> program_id) \/
  (v = 0xf00000000 /\ is_ok (unpack instruction_data) = true /\
     exists a rest buf, accounts = a :: rest /\ owner a = program_id /\
       data_store m !! data a = Some buf /\ flag_of m (data a) <> Writing /\
       length buf <> 4%nat) \/
  (v = SUCCESS /\
     exists i a rest buf, unpack instruction_data = Ok i /\ accounts = a :: rest /\
       owner a = program_id /\ data_store m !! data a = Some buf /\
       flag_of m (data a) = Unused /\ length buf = 4%nat /\
       oc && overflows i (mkGreetingAccount (le_value buf)) = false).

(** A rule that returns gives a row of the table. *)
Lemma invocation_exit_code (m' : Machine) (r : outcome ProgramError unit) (v : Z) :
  invocation oc program_id accounts instruction_data m m' r ->
  returned r = Ok v -> exit_code v.
Proof.
  unfold exit_code.
  destruct 1 as [e He|i Hi Ha|i a rest Hi Ha Ho| | |i a rest buf e Hi Ha Ho Hd Hf Hg| |
                |i a rest buf g g' Hi Ha Ho Hd Hf Hg Hp];
    intros [= <-]; rewrite ?Hi.
  - pose proof He as [-> _]%unpack_err. left. by split.
  - right; left. by split_and!.
  - do 2 right; left. split_and!; [done..|by exists a, rest].
  - do 3 right; left. split_and!; [done..|]. exists a, rest, buf. split_and!; try done.
    intros Hl. by rewrite (greeting_try_from_slice_exact buf Hl) in Hg.
  - do 4 right. split; [done|]. exists i, a, rest, buf.
    pose proof (greeting_decoded_length _ _ Hg) as Hl.
    pose proof (greeting_decoded_ok _ _ Hg) as Hok.
    rewrite (greeting_try_from_slice_exact buf Hl) in Hg. inv_outcome.
    rewrite apply_instruction_eq in Hp by exact Hok.
    split_and!; try done. by destruct (oc && overflows i _).
Qed.

(** Every row of the table is the result of a rule. *)
Lemma exit_code_invocation (v : Z) :
  exit_code v ->
  exists m' r, invocation oc program_id accounts instruction_data m m' r /\
               returned r = Ok v.
Proof.
  intros [(-> & He)|[(-> & Hi & Ha)|[(-> & Hi & a & rest & Ha & Ho)
         |[(-> & Hi & a & rest & buf & Ha & Ho & Hd & Hf
            & [e He]%greeting_try_from_slice_bad_length)
          |(-> & i & a & rest & buf & Hi & Ha & Ho & Hd & Hf & Hl & Hov)]]]];
    try (destruct (unpack instruction_data) as [i| |] eqn:Hu; [clear Hi|done..]).
  - eauto with hello.
  - eauto with hello.
  - eauto with hello.
  - do 2 eexists. split; [by eapply inv_bad_data|done].
  - eexists _, (Ok tt). split; [|done].
    eapply inv_done; eauto using greeting_try_from_slice_exact.
    rewrite apply_instruction_eq, Hov; [done|].
    eapply greeting_decoded_ok, greeting_try_from_slice_exact, Hl.
Qed.

(** C25: what the runtime reads from the exported entry point, from the
    arguments of the call: the entry point returns a value exactly when the
    value and the arguments are a row of the table [exit_code].  It returns
    [0x3_0000_0000] when the instruction does not decode, whatever the
    accounts; [0xb_0000_0000] when it decodes and no account is passed;
    [0x7_0000_0000] when the first account is not owned by the program,
    whatever its data; [0xf_0000_0000] when the data of an owned account is
    not four bytes long; and [SUCCESS] when the data is four bytes that
    nothing borrows and the arithmetic does not overflow in a build that
    checks it.  In every other case the call is aborted by a panic. *)
Theorem entrypoint_exit_code (v : Z) :
  snd (entrypoint oc program_id accounts instruction_data m) = Ok v <-> exit_code v.
Proof.
  unfold entrypoint. cbn [snd]. split.
  - apply invocation_exit_code
      with (m' := fst (process_instruction oc program_id accounts instruction_data m)).
    apply run_invocation.
  - intros (m' & r & Hr%invocation_sound & Hv)%exit_code_invocation. by rewrite Hr.
Qed.

End Codes.
