(* ===== verification/Contract.v ===== *)
(** * The contract of the specification, and the program as its implementation

    The specification describes the entry point against three collaborator
    operations: reading the record of an account, writing it back, and the
    identity that owns an account.  [Storage] is that interface, with the
    laws the specification asks of it (a stored record is a 32-bit value; a
    record written over one that was read is the record read next).
    [Spec.process] is the entry point as the specification states it, in the
    order of its state machine: decode, authorize, apply, serialize.  It is
    partial: the specification assumes a target account and says nothing of
    an empty account list.

    The guarantees of [Spec.process] are proved against the interface, for
    every storage.  [machine_storage] is the storage of the program: reading
    is the load of [process_instruction], writing is its store, the identity
    is the owner of the account; its laws are discharged from the lemmas of
    [Processor].  The refinement theorem shows that every run of
    [process_instruction] that does not panic, in either build, is the run of
    [Spec.process] on that storage, up to the log. *)

From Stdlib Require Import ZArith Lia List String Strings.Byte.
From stdpp Require Import base tactics option list gmap.
From S2P Require Import Prelude Word Runtime Instruction Greeting Processor.
From S2P Require Import Ledger Observation.

(** The collaborator interface the core consumes. *)
Class Storage (St Handle Identity : Type) : Type := {
  read_record : St -> Handle -> option GreetingAccount;
  write_record : St -> Handle -> GreetingAccount -> option St;
  identity_of : Handle -> Identity;
  identity_eq_dec :: EqDecision Identity;
  read_record_ok : forall st h r, read_record st h = Some r -> greeting_ok r;
  write_read : forall st h r0 r st',
    read_record st h = Some r0 -> greeting_ok r ->
    write_record st h r = Some st' -> read_record st' h = Some r
}.

Module Spec.

(** The error taxonomy of the specification. *)
Inductive InvocationError : Type :=
| InvalidInstructionData
| NotAuthorized
| DeserializeError
| SerializeError.

#[export] Instance InvocationError_eq_dec : EqDecision InvocationError.
Proof. solve_decision. Defined.

Section Process.
Context {St Handle Identity : Type} `{Storage St Handle Identity}.

(** [process(invoking_identity, accounts, raw_instruction)]: the first
    account is the target; [None] where the specification is silent. *)
Definition process (invoking_identity : Identity) (accounts : list Handle)
    (raw_instruction : list byte) (st : St)
  : option (St * outcome InvocationError unit) :=
  match decode raw_instruction with
  | None => Some (st, Err InvalidInstructionData)
  | Some op =>
      match accounts with
      | [] => None
      | target :: _ =>
          if decide (identity_of target = invoking_identity) then
            match read_record st target with
            | None => Some (st, Err DeserializeError)
            | Some record =>
                match write_record st target (apply record op) with
                | Some st' => Some (st', Ok tt)
                | None => Some (st, Err SerializeError)
                end
            end
          else Some (st, Err NotAuthorized)
      end
  end.

End Process.

End Spec.

(** How the errors of the program appear in the taxonomy of the
    specification; [NotEnoughAccountKeys] has no counterpart. *)
Definition abs_error (e : ProgramError) : option Spec.InvocationError :=
  match e with
  | InvalidInstructionData => Some Spec.InvalidInstructionData
  | IncorrectProgramId => Some Spec.NotAuthorized
  | BorshIoError _ => Some Spec.DeserializeError
  | NotEnoughAccountKeys => None
  end.

(** The result [r] of the program is the result [r'] of the
    specification. *)
Definition result_refines (r : outcome ProgramError unit)
    (r' : outcome Spec.InvocationError unit) : Prop :=
  match r with
  | Ok _ => r' = Ok tt
  | Err e => exists e', abs_error e = Some e' /\ r' = Err e'
  | Panic _ => False
  end.

(** ** The storage of the program *)

(** [read_record]: the load of [process_instruction]. *)
Definition machine_read_record (m : Machine) (a : AccountInfo) : option GreetingAccount :=
  match snd (load_greeting a m) with
  | Ok g => Some g
  | _ => None
  end.

(** [write_record]: the store of [process_instruction]. *)
Definition machine_write_record (m : Machine) (a : AccountInfo) (g : GreetingAccount)
  : option Machine :=
  match snd (store_greeting a g m) with
  | Ok _ => Some (fst (store_greeting a g m))
  | _ => None
  end.

Lemma decode_instruction_ok (bytes : list byte) (op : HelloInstruction) :
  decode bytes = Some op -> instruction_ok op.
Proof. intros H%unpack_ok_decode. eauto with hello. Qed.

Lemma machine_read_record_some (m : Machine) (a : AccountInfo) (g : GreetingAccount) :
  machine_read_record m a = Some g <->
  exists buf, data_store m !! data a = Some buf /\ try_from_slice buf = Ok g /\
              flag_of m (data a) <> Writing.
Proof.
  rewrite <- load_greeting_ok. unfold machine_read_record.
  destruct (snd (load_greeting a m)); split; intros; simplify_eq; reflexivity.
Qed.

Lemma machine_read_record_eq (m : Machine) (a : AccountInfo) (buf : list byte) :
  data_store m !! data a = Some buf -> flag_of m (data a) <> Writing ->
  machine_read_record m a =
  match try_from_slice buf with Ok g => Some g | _ => None end.
Proof.
  intros Hb Hf. unfold machine_read_record. rewrite (load_greeting_eq a m buf Hb Hf).
  cbn [snd]. destruct (try_from_slice buf); reflexivity.
Qed.

(** Writing over a record that was read replaces the buffer by the
    encoding of the new record. *)
Lemma machine_write_record_read (m m' : Machine) (a : AccountInfo) (g0 g : GreetingAccount) :
  machine_read_record m a = Some g0 -> machine_write_record m a g = Some m' ->
  m' = stored a (serialize g) m.
Proof.
  intros (buf & Hb & Hg & _)%machine_read_record_some. unfold machine_write_record.
  destruct (snd (store_greeting a g m)) as [[]| |] eqn:Hs; [|discriminate..].
  apply store_greeting_ok in Hs as (buf' & Hb' & Hu).
  rewrite (store_greeting_decoded a m buf g0 g Hb Hu Hg). intros; simplify_eq. reflexivity.
Qed.

Lemma machine_write_record_eq (m : Machine) (a : AccountInfo) (buf : list byte)
    (g0 g : GreetingAccount) :
  data_store m !! data a = Some buf -> flag_of m (data a) = Unused ->
  try_from_slice buf = Ok g0 ->
  machine_write_record m a g = Some (stored a (serialize g) m).
Proof.
  intros Hb Hu Hg. unfold machine_write_record.
  rewrite (store_greeting_decoded a m buf g0 g Hb Hu Hg). reflexivity.
Qed.

Lemma machine_write_read (m : Machine) (a : AccountInfo) (g0 g : GreetingAccount)
    (m' : Machine) :
  machine_read_record m a = Some g0 -> greeting_ok g ->
  machine_write_record m a g = Some m' -> machine_read_record m' a = Some g.
Proof.
  intros Hr Hg Hw. rewrite (machine_write_record_read m m' a g0 g Hr Hw).
  apply machine_read_record_some in Hr as (buf & _ & _ & Hf).
  apply machine_read_record_some. exists (serialize g).
  split_and!; [apply lookup_insert_eq | by apply try_from_slice_serialize | exact Hf].
Qed.

Lemma machine_read_record_ok (m : Machine) (a : AccountInfo) (g : GreetingAccount) :
  machine_read_record m a = Some g -> greeting_ok g.
Proof. intros (buf & _ & Hg & _)%machine_read_record_some. eauto with hello. Qed.

(** Reading looks at the stores only. *)
Lemma machine_read_record_proper (m1 m2 : Machine) (a : AccountInfo) :
  same_stores m1 m2 -> machine_read_record m1 a = machine_read_record m2 a.
Proof.
  intros Hm. unfold machine_read_record.
  destruct (load_greeting_blind a m1 m2 Hm) as [_ ->]. reflexivity.
Qed.

(** The storage of the program implements the interface. *)
#[export] Instance machine_storage : Storage Machine AccountInfo Pubkey := {|
  read_record := machine_read_record;
  write_record := machine_write_record;
  identity_of := owner;
  read_record_ok := machine_read_record_ok;
  write_read := machine_write_read
|}.

(** ** The guarantees of the contract, for every storage *)

Section Guarantees.
Context {St Handle Identity : Type} `{Storage St Handle Identity}.
Context (invoking_identity : Identity) (accounts : list Handle)
  (raw_instruction : list byte) (st : St).

(** The ways [Spec.process] can end. *)
Lemma process_cases (st' : St) (r : outcome Spec.InvocationError unit) :
  Spec.process invoking_identity accounts raw_instruction st = Some (st', r) ->
  (st' = st /\ is_ok r = false) \/
  (exists target rest op record,
     accounts = target :: rest /\ decode raw_instruction = Some op /\
     identity_of target = invoking_identity /\
     read_record st target = Some record /\
     write_record st target (apply record op) = Some st' /\ r = Ok tt).
Proof.
  unfold Spec.process. intros Hp.
  destruct (decode raw_instruction) as [op|] eqn:Hop; [|left; by simplify_eq].
  destruct accounts as [|target rest]; [discriminate|].
  case_decide as Hid; [|left; by simplify_eq].
  destruct (read_record st target) as [record|] eqn:Hr; [|left; by simplify_eq].
  destruct (write_record st target (apply record op)) as [st2|] eqn:Hw;
    [|left; by simplify_eq].
  right. simplify_eq. eauto 10.
Qed.

(** What the specification promises of one invocation, over any storage
    that meets the interface: a failed invocation leaves the storage as it
    was; a successful one was authorized, and the record read from the
    target afterwards is the transition applied to the record read before,
    a 32-bit value. *)
Lemma process_guarantees (st' : St) (r : outcome Spec.InvocationError unit) :
  Spec.process invoking_identity accounts raw_instruction st = Some (st', r) ->
  (is_ok r = false -> st' = st) /\
  (r = Ok tt ->
   exists target rest op record,
     accounts = target :: rest /\ decode raw_instruction = Some op /\
     identity_of target = invoking_identity /\
     read_record st target = Some record /\
     read_record st' target = Some (apply record op) /\
     greeting_ok (apply record op)).
Proof.
  intros [[-> Hr] | (target & rest & op & record & Ha & Hop & Hid & Hrd & Hw & ->)]%process_cases.
  - split; [reflexivity | intros ->; discriminate].
  - split; [discriminate | intros _].
    assert (greeting_ok (apply record op)) as Hok
      by (apply apply_ok; exact (decode_instruction_ok _ _ Hop)).
    exists target, rest, op, record. split_and!; try done.
    exact (write_read st target record _ st' Hrd Hok Hw).
Qed.

End Guarantees.

(** ** The program refines the contract *)

Section Refinement.
Context (oc : bool) (program_id : Pubkey) (accounts : list AccountInfo)
  (instruction_data : list byte) (m : Machine).

(** The run of [Spec.process] that a rule of [invocation] stands for. *)
Lemma invocation_refines (m' : Machine) (r : outcome ProgramError unit) :
  invocation oc program_id accounts instruction_data m m' r ->
  is_panic r = false -> accounts <> [] ->
  exists st' r',
    Spec.process program_id accounts instruction_data m = Some (st', r') /\
    same_stores m' st' /\ result_refines r r'.
Proof.
  unfold Spec.process.
  destruct 1 as [e Hi | i Hi -> | i a rest Hi -> Ho | | | i a rest buf e Hi -> Ho Hd Hf Hg
                | | | i a rest buf g g' Hi -> Ho Hd Hf Hg Ha];
    try discriminate; intros _ Hne; try done.
  - apply unpack_err in Hi as [-> ->]. destruct accounts; [done|].
    eexists _, _. split_and!; [reflexivity | by repeat split | simpl; eauto].
  - apply unpack_ok_decode in Hi as ->. cbn [identity_of machine_storage].
    rewrite decide_False by exact Ho.
    eexists _, _. split_and!; [reflexivity | by repeat split | simpl; eauto].
  - apply unpack_ok_decode in Hi as ->. cbn [identity_of read_record machine_storage].
    rewrite decide_True, (machine_read_record_eq m a buf Hd Hf), Hg by exact Ho.
    eexists _, _. split_and!; [reflexivity | by repeat split | simpl; eauto].
  - pose proof Hi as Hop%unpack_ok_decode. rewrite Hop.
    cbn [identity_of read_record write_record machine_storage].
    assert (flag_of m (data a) <> Writing) as Hw by congruence.
    rewrite decide_True, (machine_read_record_eq m a buf Hd Hw), Hg by exact Ho.
    rewrite (apply_instruction_ok_apply oc i g g') in * by eauto with hello.
    rewrite (machine_write_record_eq m a buf g _ Hd Hf Hg).
    eexists _, _. split_and!; [reflexivity | by repeat split | reflexivity].
Qed.

(** C11: the program implements the contract: with a target account, a run
    of [process_instruction] that does not panic, in either build, returns
    the result of [Spec.process] on the storage of the program and leaves
    the store [Spec.process] leaves; the two machines differ in their logs
    only. *)
Theorem process_instruction_refines_process :
  accounts <> [] ->
  is_panic (snd (process_instruction oc program_id accounts instruction_data m)) = false ->
  exists st' r',
    Spec.process program_id accounts instruction_data m = Some (st', r') /\
    same_stores (fst (process_instruction oc program_id accounts instruction_data m)) st' /\
    result_refines (snd (process_instruction oc program_id accounts instruction_data m)) r'.
Proof.
  intros Hne Hp.
  exact (invocation_refines _ _ (run_invocation oc program_id accounts instruction_data m)
           Hp Hne).
Qed.

(** C16: the program keeps the promises of the contract, by refinement:
    what is proved of [Spec.process] over every storage holds of every run
    of [process_instruction] that has a target account and does not panic.
    A failed run leaves the store as it was; a successful one was
    authorized, and the record read from the target afterwards is the
    transition applied to the record read before, a 32-bit value. *)
Theorem process_contract :
  accounts <> [] ->
  is_panic (snd (process_instruction oc program_id accounts instruction_data m)) = false ->
  (is_ok (snd (process_instruction oc program_id accounts instruction_data m)) = false ->
   same_stores (fst (process_instruction oc program_id accounts instruction_data m)) m) /\
  (snd (process_instruction oc program_id accounts instruction_data m) = Ok tt ->
   exists target rest op record,
     accounts = target :: rest /\ decode instruction_data = Some op /\
     owner target = program_id /\
     machine_read_record m target = Some record /\
     machine_read_record
       (fst (process_instruction oc program_id accounts instruction_data m)) target
     = Some (apply record op) /\
     greeting_ok (apply record op)).
Proof.
  intros Hne Hp.
  destruct (invocation_refines _ _ (run_invocation oc program_id accounts instruction_data m)
              Hp Hne) as (st' & r' & Hspec & Hst & Hres).
  destruct (process_guarantees _ _ _ _ _ _ Hspec) as [Hfail Hok].
  destruct (snd (process_instruction oc program_id accounts instruction_data m))
    as [[]|e|p]; simpl in Hres; [subst r'| |done].
  - split; [discriminate | intros _].
    destruct (Hok eq_refl) as (target & rest & op & record & ? & ? & ? & ? & Hrd & ?).
    exists target, rest, op, record. split_and!; try done.
    rewrite (machine_read_record_proper _ _ target Hst). exact Hrd.
  - destruct Hres as (e' & _ & ->). split; [intros _|discriminate].
    rewrite Hst. by rewrite (Hfail eq_refl).
Qed.

End Refinement.

Lemma process_contract_witness :
  let m := example_machine [x07; x00; x00; x00] in
  (is_ok (snd (process_instruction true Pubkey_default [example_account] [x00] m)) = false ->
   same_stores (fst (process_instruction true Pubkey_default [example_account] [x00] m)) m) /\
  (snd (process_instruction true Pubkey_default [example_account] [x00] m) = Ok tt ->
   exists target rest op record,
     [example_account] = target :: rest /\ decode [x00] = Some op /\
     owner target = Pubkey_default /\
     machine_read_record m target = Some record /\
     machine_read_record
       (fst (process_instruction true Pubkey_default [example_account] [x00] m)) target
     = Some (apply record op) /\
     greeting_ok (apply record op)).
Proof.
  apply process_contract; [discriminate | reflexivity].
Defined.

Lemma process_instruction_refines_process_witness :
  exists st' r',
    Spec.process Pubkey_default [example_account] [x01]
      (example_machine [x00; x00; x00; x00]) = Some (st', r') /\
    same_stores
      (fst (process_instruction false Pubkey_default [example_account] [x01]
              (example_machine [x00; x00; x00; x00]))) st' /\
    result_refines
      (snd (process_instruction false Pubkey_default [example_account] [x01]
              (example_machine [x00; x00; x00; x00]))) r'.
Proof.
  apply process_instruction_refines_process; [discriminate | reflexivity].
Defined.
