(* ===== verification/Independence.v ===== *)
(** * Calls on different accounts

    What a call depends on.  Of its arguments the entry point reads the
    decoded instruction and the owner and data buffer of the first account
    ([target], [process_instruction_reads]).  Of the machine it reads one
    cell, the buffer of its first account ([first_cell]), and it writes that
    cell or nothing ([invocation_footprint]: the result of a call and what
    it writes are decided by that cell, whatever the rest of the machine
    holds).

    The consequence the runtime relies on when it orders the calls of
    different transactions: two calls whose first accounts refer to
    different buffers commute ([invoke_commute], [run_calls_swap]), and a
    list of calls on accounts that differ two by two ([separate]) returns
    the same results and leaves the same stores in every order
    ([run_calls_commute]), each call as if it ran alone on the start
    machine ([run_calls_separate]); only the order of the log lines
    differs.  On one account the order matters ([same_account_order]). *)

From Stdlib Require Import ZArith List String Strings.Byte Permutation.
From stdpp Require Import base tactics option list gmap.
From S2P Require Import Prelude Word Runtime Instruction Greeting Processor.
From S2P Require Import Ledger Observation.

(** The machines [m] and [m'] hold the same buffer in the cell [l], in the
    same borrow state. *)
Definition agree_on (l : loc) (m m' : Machine) : Prop :=
  data_store m' !! l = data_store m !! l /\ flag_of m' l = flag_of m l.

(** The data store after the write [w] of a call, if it wrote. *)
Definition patched (w : option (loc * list byte)) (d : gmap loc (list byte))
  : gmap loc (list byte) :=
  match w with
  | Some (l, buf) => <[l := buf]> d
  | None => d
  end.

(** The calls [c1] and [c2] have first accounts that refer to different
    buffers (or one of them has no account). *)
Definition disjoint_calls (c1 c2 : Call) : Prop :=
  forall a1 rest1 a2 rest2,
    call_accounts c1 = a1 :: rest1 -> call_accounts c2 = a2 :: rest2 ->
    data a1 <> data a2.

(** The buffer a call reads and may write: that of its first account. *)
Definition first_cell (c : Call) : option loc :=
  match call_accounts c with
  | a :: _ => Some (data a)
  | [] => None
  end.

(** The calls of the list are on different accounts, two by two. *)
Definition separate (cs : list Call) : Prop := NoDup (omap first_cell cs).

#[export] Instance separate_dec cs : Decision (separate cs).
Proof. unfold separate. apply _. Defined.

(** What the entry point reads of the accounts passed: the owner and the
    buffer of the first, if there is one. *)
Definition target (accounts : list AccountInfo) : option (Pubkey * loc) :=
  (fun a => (owner a, data a)) <$> head accounts.

(** A second account for the examples, with a buffer of its own, and a
    machine that holds the buffers of both. *)
Definition second_account : AccountInfo :=
  mkAccountInfo (mkPubkey [x02]) false true 3%positive 4%positive Pubkey_default false 0.

Definition two_cells : Machine :=
  mkMachine {[ 2%positive := [x07; x00; x00; x00]; 4%positive := [x05; x00; x00; x00] ]}
    {[ 1%positive := 0%Z; 3%positive := 0%Z ]} ∅ [].

#[export] Instance disjoint_calls_symmetric : Symmetric disjoint_calls.
Proof. intros c1 c2 H a1 r1 a2 r2 H1 H2 Heq. exact (H _ _ _ _ H2 H1 (eq_sym Heq)). Qed.

(** ** The footprint of one call *)

Lemma agree_on_refl (l : loc) (m : Machine) : agree_on l m m.
Proof. split; reflexivity. Qed.

Lemma agree_on_patched (l : loc) (m m1 : Machine) (w : option (loc * list byte)) :
  data_store m1 = patched w (data_store m) -> borrow_flags m1 = borrow_flags m ->
  (forall l' buf, w = Some (l', buf) -> l' <> l) ->
  agree_on l m m1.
Proof.
  intros Hd Hf Hw. split; [|unfold flag_of; by rewrite Hf].
  rewrite Hd. destruct w as [[l' buf]|]; [|reflexivity].
  apply lookup_insert_ne. eauto.
Qed.

Section Footprint.
Context {oc : bool} {program_id : Pubkey} {accounts : list AccountInfo}
  {instruction_data : list byte}.

(** Replays a rule on a machine that agrees on the cell of the first
    account. *)
Ltac replay Hag :=
  try match goal with
      | a : AccountInfo |- _ =>
          destruct (Hag a _ eq_refl) as [Hd' Hf']; rewrite <- ?Hd', <- ?Hf' in *
      end;
  eexists; split; [solve [eauto 10 with hello] | repeat split].

(** The result of a call and what it writes depend on the cell of its first
    account only. *)
Lemma invocation_footprint (m m1 : Machine) (r : outcome ProgramError unit) :
  invocation oc program_id accounts instruction_data m m1 r ->
  exists w,
    data_store m1 = patched w (data_store m) /\
    (forall l buf, w = Some (l, buf) -> exists a rest, accounts = a :: rest /\ l = data a) /\
    forall m', (forall a rest, accounts = a :: rest -> agree_on (data a) m m') ->
      exists m1', invocation oc program_id accounts instruction_data m' m1' r /\
                  data_store m1' = patched w (data_store m') /\
                  borrow_flags m1' = borrow_flags m' /\
                  lamports_store m1' = lamports_store m'.
Proof.
  destruct 1 as [ | | | | | | | |i a rest buf g g' Hi Ha Ho Hd Hf Hg Hp].
  1-8: exists None; split; [reflexivity|]; (split; [discriminate|]);
    intros m' Hag; subst; replay Hag.
  exists (Some (data a, serialize g')). split; [reflexivity|].
  split; [intros l b [= <- <-]; eauto|].
  intros m' Hag. subst. replay Hag.
Qed.

End Footprint.

(** ** What a call reads of its arguments *)

(** C22: the entry point reads three things of its arguments: the
    instruction that the bytes decode to, and the owner and the data buffer
    of the first account.  Calls that agree on these run alike on every
    machine: the key, the signer and writable flags, the lamports, the
    executable flag and the rent epoch of the first account, every other
    account, and the bytes that [unpack] ignores decide nothing.  In
    particular no signature is required to change a counter. *)
Theorem process_instruction_reads (oc : bool) (program_id : Pubkey)
    (accounts accounts' : list AccountInfo) (instruction_data instruction_data' : list byte)
    (m : Machine) :
  target accounts = target accounts' ->
  unpack instruction_data = unpack instruction_data' ->
  process_instruction oc program_id accounts instruction_data m
  = process_instruction oc program_id accounts' instruction_data' m.
Proof.
  intros Ht Hd. rewrite (process_instruction_decoded _ _ _ _ _ Hd).
  destruct accounts as [|[]], accounts' as [|[]]; simplify_eq/=; reflexivity.
Qed.

(** ** Two calls *)

Lemma patched_commute (w1 w2 : option (loc * list byte)) (d : gmap loc (list byte)) :
  (forall l1 b1 l2 b2, w1 = Some (l1, b1) -> w2 = Some (l2, b2) -> l1 <> l2) ->
  patched w2 (patched w1 d) = patched w1 (patched w2 d).
Proof.
  destruct w1 as [[l1 b1]|], w2 as [[l2 b2]|]; simpl; try reflexivity.
  intros H. apply insert_insert_ne. intros ->. exact (H _ _ _ _ eq_refl eq_refl eq_refl).
Qed.

Lemma patched_lookup_agree (w : option (loc * list byte)) (d d1 : gmap loc (list byte))
    (l : loc) :
  d !! l = d1 !! l -> patched w d !! l = patched w d1 !! l.
Proof.
  intros H. destruct w as [[l0 buf]|]; [|exact H]. simpl.
  destruct (decide (l0 = l)) as [->|Hne]; [by rewrite !lookup_insert_eq|].
  by rewrite !lookup_insert_ne.
Qed.

Lemma patched_lookup_ne (w : option (loc * list byte)) (d : gmap loc (list byte)) (l : loc) :
  (forall buf, w <> Some (l, buf)) -> patched w d !! l = d !! l.
Proof.
  intros H. destruct w as [[l0 buf]|]; [|reflexivity]. simpl.
  apply lookup_insert_ne. intros ->. by eapply H.
Qed.

Lemma first_cell_Some (c : Call) (l : loc) :
  first_cell c = Some l <-> exists a rest, call_accounts c = a :: rest /\ l = data a.
Proof.
  unfold first_cell. destruct (call_accounts c) as [|a rest]; split.
  - discriminate.
  - by intros (? & ? & ? & _).
  - intros [= <-]. eauto.
  - by intros (? & ? & [= <- _] & ->).
Qed.

(** The calls at two places of a list of calls on different accounts are on
    different cells. *)
Lemma separate_lookup (cs : list Call) (i j : nat) (ci cj : Call) (l : loc) :
  separate cs -> cs !! i = Some ci -> cs !! j = Some cj -> i <> j ->
  first_cell ci = Some l -> first_cell cj <> Some l.
Proof.
  unfold separate. revert i j. induction cs as [|c cs IH]; intros i j Hnd Hi Hj Hij Hl Hl';
    [done|].
  assert (Hin : forall k ck, cs !! k = Some ck -> first_cell ck = Some l ->
                  l ∈ omap first_cell cs).
  { intros k ck Hk Hck. apply list_elem_of_omap. exists ck.
    split; [by eapply list_elem_of_lookup_2 | done]. }
  destruct i as [|i], j as [|j]; simplify_eq/=; [| |eapply IH; eauto].
  - rewrite Hl in Hnd. apply NoDup_cons in Hnd as [Hn _]. eauto.
  - rewrite Hl' in Hnd. apply NoDup_cons in Hnd as [Hn _]. eauto.
  - destruct (first_cell c); [by apply NoDup_cons in Hnd as [_ ?]|done].
Qed.

Lemma separate_snoc (cs : list Call) (c : Call) :
  separate (cs ++ [c]) ->
  separate cs /\ forall l, first_cell c = Some l -> l ∉ omap first_cell cs.
Proof.
  unfold separate. rewrite omap_app, NoDup_app. intros (Hnd & Hdis & _).
  split; [exact Hnd|]. intros l Hl Hin. apply (Hdis l Hin). csimpl. rewrite Hl. left.
Qed.

Section Commute.
Context (oc : bool) (program_id : Pubkey).

(** The call [c] on [m] writes [w], a buffer for the cell of its first
    account or nothing, and does the same, with the same result, on every
    machine that agrees with [m] on that cell. *)
Definition footprint (c : Call) (m : Machine) (w : option (loc * list byte)) : Prop :=
  data_store (fst (invoke oc program_id c m)) = patched w (data_store m) /\
  (forall l buf, w = Some (l, buf) ->
     exists a rest, call_accounts c = a :: rest /\ l = data a) /\
  forall m', (forall a rest, call_accounts c = a :: rest -> agree_on (data a) m m') ->
    snd (invoke oc program_id c m') = snd (invoke oc program_id c m) /\
    data_store (fst (invoke oc program_id c m')) = patched w (data_store m') /\
    borrow_flags (fst (invoke oc program_id c m')) = borrow_flags m' /\
    lamports_store (fst (invoke oc program_id c m')) = lamports_store m'.

Lemma invoke_footprint (c : Call) (m : Machine) : exists w, footprint c m w.
Proof.
  pose proof (run_invocation oc program_id (call_accounts c) (call_data c) m) as H.
  destruct (invocation_footprint _ _ _ H) as (w & Hd & Hw & Hre).
  exists w. split_and!; [exact Hd | exact Hw |].
  intros m' Hag. destruct (Hre m' Hag) as (m1' & Hinv & Hrest).
  apply invocation_sound in Hinv. unfold invoke. rewrite Hinv. by split.
Qed.

(** The writes of two calls on different accounts go to different cells. *)
Lemma footprint_disjoint (c1 c2 : Call) (m : Machine) (w1 w2 : option (loc * list byte)) :
  disjoint_calls c1 c2 -> footprint c1 m w1 -> footprint c2 m w2 ->
  forall l1 b1 l2 b2, w1 = Some (l1, b1) -> w2 = Some (l2, b2) -> l1 <> l2.
Proof.
  intros Hdis (_ & Hw1 & _) (_ & Hw2 & _) l1 b1 l2 b2 -> ->.
  destruct (Hw1 _ _ eq_refl) as (a1 & rest1 & Ha1 & ->).
  destruct (Hw2 _ _ eq_refl) as (a2 & rest2 & Ha2 & ->).
  exact (Hdis _ _ _ _ Ha1 Ha2).
Qed.

(** One call after another that touches a different cell: the result and
    the write of the second are those it has on the machine before the
    first. *)
Lemma footprint_after (c1 c2 : Call) (m : Machine) (w1 w2 : option (loc * list byte)) :
  disjoint_calls c1 c2 -> footprint c1 m w1 -> footprint c2 m w2 ->
  let m12 := fst (invoke oc program_id c2 (fst (invoke oc program_id c1 m))) in
  snd (invoke oc program_id c2 (fst (invoke oc program_id c1 m)))
  = snd (invoke oc program_id c2 m) /\
  data_store m12 = patched w2 (patched w1 (data_store m)) /\
  borrow_flags m12 = borrow_flags m /\ lamports_store m12 = lamports_store m.
Proof.
  intros Hdis H1 H2.
  pose proof (footprint_disjoint _ _ _ _ _ Hdis H1 H2) as Hne.
  destruct H1 as (Hd1 & Hw1 & _), H2 as (_ & _ & Hre).
  pose proof (invoke_borrow_flags oc program_id c1 m) as Hf1.
  pose proof (process_keeps_lamports oc program_id (call_accounts c1) (call_data c1) m) as Hl1.
  destruct (Hre (fst (invoke oc program_id c1 m))) as (Hr & Hd12 & Hf12 & Hl12).
  { intros a2 rest2 Ha2. apply (agree_on_patched _ _ _ w1 Hd1 Hf1).
    intros l b ->. destruct (Hw1 _ _ eq_refl) as (a1 & rest1 & Ha1 & ->).
    exact (Hdis _ _ _ _ Ha1 Ha2). }
  cbv zeta. unfold invoke in *. split_and!; congruence.
Qed.

(** Two calls in either order: each returns the result it returns alone,
    and the two runs leave the same stores. *)
Lemma invoke_commute (c1 c2 : Call) (m : Machine) :
  disjoint_calls c1 c2 ->
  snd (invoke oc program_id c1 (fst (invoke oc program_id c2 m)))
  = snd (invoke oc program_id c1 m) /\
  snd (invoke oc program_id c2 (fst (invoke oc program_id c1 m)))
  = snd (invoke oc program_id c2 m) /\
  same_stores (fst (invoke oc program_id c2 (fst (invoke oc program_id c1 m))))
              (fst (invoke oc program_id c1 (fst (invoke oc program_id c2 m)))).
Proof.
  intros Hdis.
  destruct (invoke_footprint c1 m) as [w1 H1], (invoke_footprint c2 m) as [w2 H2].
  destruct (footprint_after c1 c2 m w1 w2 Hdis H1 H2) as (Hr2 & Hd12 & Hf12 & Hl12).
  destruct (footprint_after c2 c1 m w2 w1 (symmetry Hdis) H2 H1) as (Hr1 & Hd21 & Hf21 & Hl21).
  split_and!; [exact Hr1 | exact Hr2 |].
  repeat split; [|congruence..].
  rewrite Hd12, Hd21. apply patched_commute. eauto using footprint_disjoint.
Qed.

(** Two adjacent calls on different accounts, anywhere in a sequence: the
    sequence with the two swapped returns the same results, those of the
    two calls swapped and each the result the call returns when it is run
    alone after the calls before it, and leaves the same stores. *)
Lemma run_calls_swap (cs1 cs2 : list Call) (c1 c2 : Call) (m : Machine) :
  disjoint_calls c1 c2 ->
  let m1 := fst (run_calls oc program_id cs1 m) in
  let r1 := snd (invoke oc program_id c1 m1) in
  let r2 := snd (invoke oc program_id c2 m1) in
  exists rs2,
    snd (run_calls oc program_id (cs1 ++ c1 :: c2 :: cs2) m)
    = snd (run_calls oc program_id cs1 m) ++ r1 :: r2 :: rs2 /\
    snd (run_calls oc program_id (cs1 ++ c2 :: c1 :: cs2) m)
    = snd (run_calls oc program_id cs1 m) ++ r2 :: r1 :: rs2 /\
    same_stores (fst (run_calls oc program_id (cs1 ++ c1 :: c2 :: cs2) m))
                (fst (run_calls oc program_id (cs1 ++ c2 :: c1 :: cs2) m)).
Proof.
  intros Hdis m1 r1 r2. rewrite !run_calls_app. cbn [run_calls fst snd]. fold m1.
  destruct (invoke_commute c1 c2 m1 Hdis) as (Hr1 & Hr2 & Hs).
  destruct (run_calls_blind oc program_id cs2 _ _ Hs) as [Hst Hres].
  eexists. subst r1 r2. rewrite Hr1, Hr2, <- Hres. split_and!; [reflexivity.. | exact Hst].
Qed.

(** Adjacent calls of a list of calls on different accounts. *)
Lemma separate_adjacent (cs1 cs2 : list Call) (c1 c2 : Call) :
  separate (cs1 ++ c1 :: c2 :: cs2) -> disjoint_calls c1 c2.
Proof.
  unfold separate. rewrite omap_app, NoDup_app. intros (_ & _ & H).
  intros a1 rest1 a2 rest2 H1 H2 Heq. csimpl in H. unfold first_cell in H.
  rewrite H1, H2, Heq in H. apply NoDup_cons in H as [Hn _]. apply Hn. left.
Qed.

(** The calls of a list, each with the result it returned. *)
Definition results (cs : list Call) (m : Machine)
  : list (Call * outcome ProgramError unit) :=
  zip cs (snd (run_calls oc program_id cs m)).

Lemma results_swap (cs1 cs2 : list Call) (c1 c2 : Call) (m : Machine) :
  disjoint_calls c1 c2 ->
  results (cs1 ++ c1 :: c2 :: cs2) m ≡ₚ results (cs1 ++ c2 :: c1 :: cs2) m.
Proof.
  intros Hdis. destruct (run_calls_swap cs1 cs2 c1 c2 m Hdis) as (rs2 & H12 & H21 & _).
  unfold results. rewrite H12, H21.
  rewrite !zip_with_app by (by rewrite run_calls_length). cbn [zip_with].
  apply Permutation_app_head, perm_swap.
Qed.

(** C20: calls on different accounts can be run in any order: when the
    first accounts of the calls of a list refer to different buffers, two
    by two, every permutation of the list leaves the same buffers, lamports
    and borrow states, and every call returns the same result in both
    runs; only the order of the log lines differs. *)
Theorem run_calls_commute (cs cs' : list Call) (m : Machine) :
  separate cs -> cs ≡ₚ cs' ->
  same_stores (fst (run_calls oc program_id cs m)) (fst (run_calls oc program_id cs' m)) /\
  results cs m ≡ₚ results cs' m.
Proof.
  intros Hsep Hperm. revert cs cs' Hperm m Hsep.
  apply (Permutation_ind_transp
           (fun cs cs' => forall m, separate cs ->
              same_stores (fst (run_calls oc program_id cs m))
                          (fst (run_calls oc program_id cs' m)) /\
              results cs m ≡ₚ results cs' m)).
  - intros cs m _. split; reflexivity.
  - intros c2 c1 cs1 cs2 m Hsep. apply separate_adjacent in Hsep.
    split; [|by apply results_swap].
    by destruct (run_calls_swap cs1 cs2 c1 c2 m Hsep) as (rs2 & _ & _ & Hs).
  - intros cs cs' cs'' Hp IH Hp' IH' m Hsep.
    assert (Hsep' : separate cs') by (unfold separate; by rewrite <- Hp).
    destruct (IH m Hsep), (IH' m Hsep'). split; etransitivity; eauto.
Qed.

(** The calls of a list of calls on different accounts run as if each
    were alone: every call returns what it returns on the start machine and
    leaves in the cell of its first account what it leaves there when run
    alone; no other cell changes. *)
Lemma run_calls_separate (cs : list Call) (m : Machine) :
  separate cs ->
  let m' := fst (run_calls oc program_id cs m) in
  snd (run_calls oc program_id cs m) = (fun c => snd (invoke oc program_id c m)) <$> cs /\
  lamports_store m' = lamports_store m /\ borrow_flags m' = borrow_flags m /\
  (forall c l, c ∈ cs -> first_cell c = Some l ->
     data_store m' !! l = data_store (fst (invoke oc program_id c m)) !! l) /\
  (forall l, l ∉ omap first_cell cs -> data_store m' !! l = data_store m !! l).
Proof.
  induction cs as [|c cs IH] using rev_ind; intros Hsep; cbv zeta.
  { split_and!; try done. by intros c l ?%elem_of_nil. }
  apply separate_snoc in Hsep as [Hsep Hc].
  destruct (IH Hsep) as (Hr & Hl & Hf & Hown & Hfr). clear IH.
  rewrite run_calls_app. cbn [run_calls fst snd].
  destruct (invoke_footprint c m) as (w & Hd & Hw & Hre).
  assert (Hwc : forall l buf, w = Some (l, buf) -> l ∉ omap first_cell cs).
  { intros l buf Hwl. apply Hc, first_cell_Some. eauto. }
  destruct (Hre (fst (run_calls oc program_id cs m))) as (Hres & Hd' & Hf' & Hl').
  { intros a rest Ha. split; [|unfold flag_of; by rewrite Hf].
    apply Hfr, Hc, first_cell_Some. eauto. }
  rewrite fmap_app, Hr, Hres, Hd'. split_and!; [done | congruence | congruence | |].
  - intros c0 l [Hin | ->%list_elem_of_singleton]%elem_of_app Hl0.
    + rewrite patched_lookup_ne; [eauto|]. intros buf Hwl. apply (Hwc _ _ Hwl).
      apply list_elem_of_omap. eauto.
    + rewrite Hd. apply patched_lookup_agree, Hfr, Hc, Hl0.
  - intros l Hl0. rewrite omap_app, not_elem_of_app in Hl0. destruct Hl0 as [Hl0 Hl1].
    rewrite patched_lookup_ne; [eauto|]. intros buf Hwl. apply Hl1.
    destruct (Hw _ _ Hwl) as (a & rest & Ha & ->). csimpl. unfold first_cell.
    rewrite Ha. left.
Qed.

End Commute.

(** The calls must be on different accounts: on one account, setting the
    counter after incrementing it and incrementing it after setting it
    leave different counters. *)
Example same_account_order :
  counter_at (fst (run_calls true Pubkey_default
                     [mkCall [example_account] [x00];
                      mkCall [example_account] [x02; x0a; x00; x00; x00]]
                     (example_machine [x07; x00; x00; x00]))) 2%positive = Some 10%Z /\
  counter_at (fst (run_calls true Pubkey_default
                     [mkCall [example_account] [x02; x0a; x00; x00; x00];
                      mkCall [example_account] [x00]]
                     (example_machine [x07; x00; x00; x00]))) 2%positive = Some 11%Z.
Proof. split; vm_compute; reflexivity. Qed.

Lemma run_calls_commute_witness :
  same_stores
    (fst (run_calls true Pubkey_default
            [mkCall [example_account] [x00]; mkCall [second_account] [x01];
             mkCall [] [x00]] two_cells))
    (fst (run_calls true Pubkey_default
            [mkCall [] [x00]; mkCall [second_account] [x01];
             mkCall [example_account] [x00]] two_cells)) /\
  results true Pubkey_default
    [mkCall [example_account] [x00]; mkCall [second_account] [x01]; mkCall [] [x00]]
    two_cells
  ≡ₚ results true Pubkey_default
       [mkCall [] [x00]; mkCall [second_account] [x01]; mkCall [example_account] [x00]]
       two_cells.
Proof.
  apply run_calls_commute; [compute_done|].
  apply Permutation_rev.
Defined.

Lemma process_instruction_reads_witness :
  process_instruction true Pubkey_default [example_account] [x00; xff]
    (example_machine [x07; x00; x00; x00])
  = process_instruction true Pubkey_default
      [mkAccountInfo (mkPubkey [x09]) true false 5%positive 2%positive Pubkey_default
         true 3; second_account]
      [x00] (example_machine [x07; x00; x00; x00]).
Proof. by apply process_instruction_reads. Defined.
