(* ===== verification/Interleaving.v ===== *)
(** * Calls that run at the same time

    The runtime may run the calls of different transactions in parallel.
    This file runs several calls of the entry point on one store, one
    statement at a time, in any order a scheduler may choose: a [thread] is
    a call with the statement it is about to run ([Phases.phase]), a
    scheduler step ([sched_step]) runs the next statement of one thread.

    Every statement reads and writes at most the buffer of the first
    account of its call ([step_footprint]).  So when the calls are on
    different accounts, two by two, every thread sees in every
    interleaving what it would see running alone ([pool_inv]), and an
    interleaving that ends leaves the results and the stores of the calls
    run one after the other ([interleaving_serializable]).

    The scheduler is no part of the program or of its specification, which
    leaves the order of invocations to the runtime: it stands for whatever
    the runtime may do, and the theorem holds of all its schedules.  Calls
    on one account are not covered: the specification assumes that the
    runtime gives a call exclusive access to its account. *)

From Stdlib Require Import ZArith Lia List String Strings.Byte.
From stdpp Require Import base tactics option list gmap relations.
From S2P Require Import Prelude Word Runtime Instruction Greeting Processor.
From S2P Require Import Ledger Observation Phases Independence.

(** A call in progress: the call and the statement it is about to run. *)
Record thread : Type := mkThread {
  th_call : Call;
  th_phase : phase
}.

(** The calls in progress. *)
Abbreviation pool := (list thread).

(** Every call about to run its first statement. *)
Definition spawn (cs : list Call) : pool := (fun c => mkThread c Start) <$> cs.

(** The call of the thread has returned. *)
Definition thread_done (t : thread) : bool :=
  match th_phase t with Done _ => true | _ => false end.

Section Interleaving.
Context (oc : bool) (program_id : Pubkey).

(** The thread [t] is where its call gets when it runs alone from the
    machine [m0], and [m1] is the machine it has then. *)
Definition solo (m0 : Machine) (t : thread) (m1 : Machine) : Prop :=
  rtc (moves oc program_id (call_accounts (th_call t)) (call_data (th_call t)))
    (Start, m0) (th_phase t, m1).

(** On the machine [m] the thread [t] is where it would be alone, and the
    cell of its first account holds what it would hold. *)
Definition thread_inv (m0 m : Machine) (t : thread) : Prop :=
  exists m1, solo m0 t m1 /\
    forall l, first_cell (th_call t) = Some l -> data_store m !! l = data_store m1 !! l.

(** The invariant of the interleavings of the calls [cs] from [m0]: the
    threads are those of the calls, each is where it would be alone, and
    nothing else has changed in the stores. *)
Definition pool_inv (cs : list Call) (m0 : Machine) (s : pool * Machine) : Prop :=
  th_call <$> fst s = cs /\
  lamports_store (snd s) = lamports_store m0 /\
  borrow_flags (snd s) = borrow_flags m0 /\
  (forall l, l ∉ omap first_cell cs -> data_store (snd s) !! l = data_store m0 !! l) /\
  Forall (thread_inv m0 (snd s)) (fst s).

(** The next statement of the thread [t]. *)
Definition thread_step (t : thread) (m : Machine) : option (thread * Machine) :=
  c ← step oc program_id (call_accounts (th_call t)) (call_data (th_call t))
        (th_phase t, m);
  Some (mkThread (th_call t) (fst c), snd c).

(** The scheduler runs the next statement of the thread [i]. *)
Definition sched_step (i : nat) (s : pool * Machine) : option (pool * Machine) :=
  t ← fst s !! i;
  r ← thread_step t (snd s);
  Some (<[i := fst r]> (fst s), snd r).

(** Runs the threads in the order of the schedule; an entry of the schedule
    that names no thread, or a thread whose call has returned, does
    nothing. *)
Fixpoint run_schedule (sched : list nat) (s : pool * Machine) : pool * Machine :=
  match sched with
  | [] => s
  | i :: sched' => run_schedule sched' (default s (sched_step i s))
  end.

(** One statement of some thread. *)
Definition interleaves (s s' : pool * Machine) : Prop :=
  exists i, sched_step i s = Some s'.

(** ** The footprint of a statement *)

(** A statement that returns the same on two machines moves to the same
    phase on both. *)
Lemma advance_agree {A} (r r1 : Machine * outcome ProgramError A) (next : A -> phase) :
  snd r1 = snd r -> advance r1 next = (fst (advance r next), fst r1).
Proof. intros H. unfold advance. rewrite H. by destruct (snd r). Qed.

(** The load reads the cell of its account only. *)
Lemma load_greeting_agree (a : AccountInfo) (m m1 : Machine) :
  agree_on (data a) m m1 -> snd (load_greeting a m1) = snd (load_greeting a m).
Proof.
  intros [Hd Hf]. unfold load_greeting, pbind, borrow_data. rewrite Hd, Hf.
  destruct (data_store m !! data a); [case_decide|]; reflexivity.
Qed.

(** The store reads and writes the cell of its account only. *)
Lemma store_greeting_footprint (a : AccountInfo) (g : GreetingAccount) (m : Machine) :
  exists w,
    (forall l buf, w = Some (l, buf) -> l = data a) /\
    forall m1, agree_on (data a) m m1 ->
      snd (store_greeting a g m1) = snd (store_greeting a g m) /\
      data_store (fst (store_greeting a g m1)) = patched w (data_store m1) /\
      borrow_flags (fst (store_greeting a g m1)) = borrow_flags m1 /\
      lamports_store (fst (store_greeting a g m1)) = lamports_store m1.
Proof.
  unfold store_greeting, pbind, borrow_data_mut.
  destruct (data_store m !! data a) as [buf|] eqn:Hb;
    [destruct (decide (flag_of m (data a) = Unused)) as [Hu|Hu]|].
  - exists (Some (data a, fst (serialize_into g buf))).
    split; [by intros ? ? [= <- _]|]. intros m1 [Hd Hf].
    rewrite Hd, Hb, Hf, decide_True by done.
    by destruct (snd (serialize_into g buf)).
  - exists None. split; [done|]. intros m1 [Hd Hf].
    by rewrite Hd, Hb, Hf, decide_False.
  - exists None. split; [done|]. intros m1 [Hd Hf]. by rewrite Hd, Hb.
Qed.

Lemma check_owner_agree (a : AccountInfo) (m m1 : Machine) :
  snd (check_owner program_id a m1) = snd (check_owner program_id a m).
Proof. unfold check_owner. by case_decide. Qed.

Lemma check_owner_stores (a : AccountInfo) (m : Machine) :
  data_store (fst (check_owner program_id a m)) = data_store m /\
  borrow_flags (fst (check_owner program_id a m)) = borrow_flags m /\
  lamports_store (fst (check_owner program_id a m)) = lamports_store m.
Proof. unfold check_owner. by case_decide. Qed.

Section Statement.
Context (accounts : list AccountInfo) (instruction_data : list byte).

(** A statement reads the cell of the account of its phase, if it reads
    any, and writes that cell or nothing: on every machine that agrees on
    that cell it moves to the same phase and writes the same. *)
Lemma step_footprint (ph : phase) (m : Machine) (c' : config) :
  step oc program_id accounts instruction_data (ph, m) = Some c' ->
  exists w,
    (forall l buf, w = Some (l, buf) -> exists a, phase_account ph = Some a /\ l = data a) /\
    forall m1, (forall a, phase_account ph = Some a -> agree_on (data a) m m1) ->
      exists m1',
        step oc program_id accounts instruction_data (ph, m1) = Some (fst c', m1') /\
        data_store m1' = patched w (data_store m1) /\
        borrow_flags m1' = borrow_flags m1 /\ lamports_store m1' = lamports_store m1.
Proof.
  unfold step. destruct ph as [| | i | i a | i a | i a g | a g | a g | r];
    simpl; intros Hs; simplify_eq.
  7: { destruct (store_greeting_footprint a g m) as (w & Hw & Hre). exists w.
       split; [intros l buf ->%Hw; eauto|]. intros m1 Hag.
       destruct (Hre m1 (Hag a eq_refl)) as (Hr & Hrest).
       rewrite (advance_agree _ _ _ Hr). eauto. }
  all: exists None; (split; [done|]); intros m1 Hag; eexists;
    (split; [f_equal; apply advance_agree|]);
    first [ reflexivity | apply check_owner_agree | apply check_owner_stores
          | by apply load_greeting_agree, Hag
          | by rewrite load_greeting_state | done ].
Qed.

End Statement.

(** ** Threads on different accounts *)

Lemma solo_account (m0 m1 : Machine) (t : thread) (a : AccountInfo) :
  solo m0 t m1 -> phase_account (th_phase t) = Some a ->
  first_cell (th_call t) = Some (data a).
Proof.
  intros Hs Ha. pose proof (steps_phase_account _ _ _ _ _ (_, _) a Hs Ha) as Hh.
  unfold first_cell. destruct (call_accounts (th_call t)); by simplify_eq/=.
Qed.

Lemma solo_step (m0 m1 m1' : Machine) (t t' : thread) :
  solo m0 t m1 -> thread_step t m1 = Some (t', m1') -> solo m0 t' m1'.
Proof.
  unfold solo, thread_step. intros Hs Ht.
  destruct (step _ _ _ _ _) as [[ph' m'']|] eqn:Hst; simplify_eq/=.
  eapply rtc_r; [exact Hs | exact Hst].
Qed.

Lemma solo_borrow_flags (m0 m1 : Machine) (t : thread) :
  solo m0 t m1 -> borrow_flags m1 = borrow_flags m0.
Proof. by intros [(_ & Hb & _) _]%steps_phase_inv. Qed.

(** The footprint of the next statement of a thread, in terms of its
    call. *)
Lemma thread_step_footprint (t t' : thread) (m m' : Machine) :
  thread_step t m = Some (t', m') ->
  (forall a, phase_account (th_phase t) = Some a -> first_cell (th_call t) = Some (data a)) ->
  th_call t' = th_call t /\
  exists w,
    (forall l buf, w = Some (l, buf) -> first_cell (th_call t) = Some l) /\
    forall m1, (forall l, first_cell (th_call t) = Some l -> agree_on l m m1) ->
      exists m1', thread_step t m1 = Some (t', m1') /\
        data_store m1' = patched w (data_store m1) /\
        borrow_flags m1' = borrow_flags m1 /\ lamports_store m1' = lamports_store m1.
Proof.
  unfold thread_step. intros Ht Hwf.
  destruct (step _ _ _ _ (th_phase t, m)) as [c|] eqn:Hs; simplify_eq/=.
  split; [done|]. destruct (step_footprint _ _ _ _ _ Hs) as (w & Hw & Hre).
  exists w. split; [intros l buf (a & Ha & ->)%Hw; auto|].
  intros m1 Hag. destruct (Hre m1) as (m1' & -> & Hrest); [by auto|].
  by exists m1'.
Qed.

(** The thread that runs stays where it would be alone, and writes the
    cell of its call or nothing. *)
Lemma thread_inv_step (m0 m m' : Machine) (t t' : thread) :
  thread_inv m0 m t -> borrow_flags m = borrow_flags m0 ->
  thread_step t m = Some (t', m') ->
  th_call t' = th_call t /\ thread_inv m0 m' t' /\
  exists w,
    (forall l buf, w = Some (l, buf) -> first_cell (th_call t) = Some l) /\
    data_store m' = patched w (data_store m) /\
    borrow_flags m' = borrow_flags m /\ lamports_store m' = lamports_store m.
Proof.
  intros (m1 & Hs & Hag) Hb Ht.
  destruct (thread_step_footprint _ _ _ _ Ht (fun a => solo_account m0 m1 t a Hs))
    as (Hc & w & Hw & Hre).
  destruct (Hre m) as (m'' & Ht' & Hd & Hf & Hl); [intros; apply agree_on_refl|].
  rewrite Ht in Ht'. simplify_eq.
  destruct (Hre m1) as (m1' & Ht1 & Hd1 & _).
  { intros l Hl0. split; [symmetry; auto|].
    unfold flag_of. by rewrite (solo_borrow_flags _ _ _ Hs), Hb. }
  split_and!; [done | | by exists w].
  exists m1'. split; [by eapply solo_step|]. intros l Hl0. rewrite Hc in Hl0.
  rewrite Hd, Hd1. apply patched_lookup_agree, Hag, Hl0.
Qed.

(** The threads that do not run stay where they would be alone when the
    cell of their call is not written. *)
Lemma thread_inv_frame (m0 m m' : Machine) (t : thread) :
  thread_inv m0 m t ->
  (forall l, first_cell (th_call t) = Some l -> data_store m' !! l = data_store m !! l) ->
  thread_inv m0 m' t.
Proof.
  intros (m1 & Hs & Hag) Hfr. exists m1. split; [done|].
  intros l Hl. rewrite Hfr; auto.
Qed.

Lemma pool_inv_spawn (cs : list Call) (m0 : Machine) : pool_inv cs m0 (spawn cs, m0).
Proof.
  unfold spawn. split_and!; try done; simpl.
  - rewrite <- list_fmap_compose. apply list_fmap_id.
  - apply Forall_fmap, Forall_true. intros c. exists m0. split; [apply rtc_refl | done].
Qed.

(** Every statement of every thread preserves the invariant, when the
    calls are on different accounts. *)
Lemma pool_inv_step (cs : list Call) (m0 : Machine) (s s' : pool * Machine) :
  separate cs -> pool_inv cs m0 s -> interleaves s s' -> pool_inv cs m0 s'.
Proof.
  destruct s as [p m]. intros Hsep (Hcs & Hl & Hb & Hfr & Hth) [i Hi].
  apply bind_Some in Hi as (t & Hpi & ([t' m'] & Ht & ?)%bind_Some). simplify_eq/=.
  destruct (thread_inv_step m0 m m' t t') as (Hc & Hinv' & w & Hw & Hd & Hf' & Hl');
    [by eapply Forall_lookup_1 | done..|].
  assert (Hci : (th_call <$> p) !! i = Some (th_call t))
    by (by rewrite list_lookup_fmap, Hpi).
  split_and!; simpl; [|congruence|congruence| |].
  - rewrite list_fmap_insert, Hc. by apply list_insert_id.
  - intros l Hl0. rewrite Hd, patched_lookup_ne; [auto|]. intros buf Hwl. apply Hl0.
    apply list_elem_of_omap. exists (th_call t).
    split; [by eapply list_elem_of_lookup_2 | eauto].
  - apply Forall_lookup. intros j tj [(-> & -> & _)|[Hij Hj]]%list_lookup_insert_Some;
      [done|].
    eapply thread_inv_frame; [by eapply Forall_lookup_1|].
    intros l Hl0. rewrite Hd. apply patched_lookup_ne. intros buf Hwl.
    eapply (separate_lookup (th_call <$> p) i j); eauto.
    by rewrite list_lookup_fmap, Hj.
Qed.

Lemma pool_inv_steps (cs : list Call) (m0 : Machine) (s : pool * Machine) :
  separate cs -> rtc interleaves (spawn cs, m0) s -> pool_inv cs m0 s.
Proof.
  intros Hsep. revert s. apply rtc_ind_r; [apply pool_inv_spawn|].
  intros s s' _ Hi IH. by eapply pool_inv_step.
Qed.

(** A thread that has returned where it would alone has the result and
    the cell of its call run alone. *)
Lemma thread_inv_done (m0 m : Machine) (t : thread) :
  thread_inv m0 m t -> thread_done t = true ->
  th_phase t = Done (snd (invoke oc program_id (th_call t) m0)) /\
  forall l, first_cell (th_call t) = Some l ->
    data_store m !! l = data_store (fst (invoke oc program_id (th_call t) m0)) !! l.
Proof.
  unfold thread_done, invoke. intros (m1 & Hs & Hag) Hd. unfold solo in Hs.
  destruct (th_phase t) as [| | | | | | | |r]; try discriminate.
  apply steps_done in Hs. by rewrite Hs.
Qed.

(** ** Schedules *)

(** The schedules run the interleavings, and every interleaving is run by
    a schedule. *)
Lemma run_schedule_interleaves (sched : list nat) (s : pool * Machine) :
  rtc interleaves s (run_schedule sched s).
Proof.
  revert s. induction sched as [|i sched IH]; intros s; simpl; [reflexivity|].
  destruct (sched_step i s) as [s'|] eqn:Hs; simpl; [|apply IH].
  eapply rtc_l; [by exists i | apply IH].
Qed.

Lemma interleaves_run_schedule (s s' : pool * Machine) :
  rtc interleaves s s' -> exists sched, s' = run_schedule sched s.
Proof.
  induction 1 as [s|s s1 s' [i Hi] _ [sched ->]]; [by exists []|].
  exists (i :: sched). simpl. by rewrite Hi.
Qed.

(** ** Interleavings of calls on different accounts *)

(** An interleaving that has ended has the results and the stores of the
    calls run one after the other. *)
Lemma interleaving_sequential (cs : list Call) (m0 : Machine) (s : pool * Machine) :
  separate cs -> rtc interleaves (spawn cs, m0) s ->
  Forall (fun t => thread_done t = true) (fst s) ->
  th_phase <$> fst s = Done <$> snd (run_calls oc program_id cs m0) /\
  same_stores (snd s) (fst (run_calls oc program_id cs m0)).
Proof.
  intros Hsep (Hcs & Hl & Hb & Hfr & Hth)%pool_inv_steps Hdone; [|done].
  destruct (run_calls_separate oc program_id cs m0 Hsep) as (Hr & Hl' & Hb' & Hown & Hfr').
  assert (Hall : forall t, t ∈ fst s ->
             th_phase t = Done (snd (invoke oc program_id (th_call t) m0)) /\
             forall l, first_cell (th_call t) = Some l ->
               data_store (snd s) !! l
               = data_store (fst (invoke oc program_id (th_call t) m0)) !! l).
  { rewrite Forall_forall in Hth, Hdone. intros t Ht. apply thread_inv_done; auto. }
  split.
  - rewrite Hr, <- Hcs, <- !list_fmap_compose. apply Forall_fmap_ext_1, Forall_forall.
    intros t Ht. by destruct (Hall t Ht) as [-> _].
  - split_and!; [|congruence..]. apply map_eq. intros l.
    destruct (decide (l ∈ omap first_cell cs)) as [Hin|Hnin]; [|by rewrite Hfr, Hfr'].
    apply list_elem_of_omap in Hin as (c & Hc & Hl0). rewrite (Hown c l Hc Hl0).
    rewrite <- Hcs in Hc. apply list_elem_of_fmap in Hc as (t & -> & Ht).
    by apply Hall.
Qed.

(** C21: calls on different accounts can run at the same time: when the
    first accounts of the calls refer to different buffers, two by two,
    however a scheduler interleaves their statements, once every call has
    returned each has the result it has when the calls run one after the
    other, and the buffers, lamports and borrow states are those the
    sequential run leaves. *)
Theorem interleaving_serializable (cs : list Call) (m0 : Machine) (sched : list nat) :
  separate cs ->
  Forall (fun t => thread_done t = true) (fst (run_schedule sched (spawn cs, m0))) ->
  th_phase <$> fst (run_schedule sched (spawn cs, m0))
  = Done <$> snd (run_calls oc program_id cs m0) /\
  same_stores (snd (run_schedule sched (spawn cs, m0)))
              (fst (run_calls oc program_id cs m0)).
Proof.
  intros Hsep Hdone.
  exact (interleaving_sequential cs m0 _ Hsep (run_schedule_interleaves _ _) Hdone).
Qed.

End Interleaving.

Lemma interleaving_serializable_witness :
  th_phase <$> fst (run_schedule true Pubkey_default
                      [0; 1; 1; 0; 0; 0; 1; 1; 1; 0; 0; 1; 0; 1; 1; 0; 1; 0]
                      (spawn [mkCall [example_account] [x00];
                              mkCall [second_account] [x01]], two_cells))
  = Done <$> snd (run_calls true Pubkey_default
                    [mkCall [example_account] [x00]; mkCall [second_account] [x01]]
                    two_cells) /\
  same_stores
    (snd (run_schedule true Pubkey_default
            [0; 1; 1; 0; 0; 0; 1; 1; 1; 0; 0; 1; 0; 1; 1; 0; 1; 0]
            (spawn [mkCall [example_account] [x00];
                    mkCall [second_account] [x01]], two_cells)))
    (fst (run_calls true Pubkey_default
            [mkCall [example_account] [x00]; mkCall [second_account] [x01]]
            two_cells)).
Proof. apply interleaving_serializable; compute_done. Defined.
