(* ===== verification/Trace.v ===== *)
(** * What the log records

    The entry point writes three kinds of line with [msg!]: the entry line
    at its start, the line that reports a wrong owner, and the line with the
    new counter at its end.  This file reads the log as a trace of events
    ([line]): [print_line] is the text of an event, and the three texts can
    be told apart although two of them begin alike ([print_line_inj]).

    A call appends the events [call_events] gives for its result, and a
    list of calls the events of its calls in order ([run_calls_logs]).  So
    the text of the log determines, call by call, whether the call was
    refused for its owner, failed otherwise, or succeeded, and with which
    counter. *)

From Stdlib Require Import ZArith Lia List String Strings.Byte Strings.Ascii.
From stdpp Require Import base tactics option list gmap strings pretty.
From S2P Require Import Prelude Word Runtime Instruction Greeting Processor Ledger.

(** What a line of the log reports. *)
Inductive line : Type :=
| Entered
| WrongOwner
| Greeted (counter : Z).

#[export] Instance line_eq_dec : EqDecision line.
Proof. solve_decision. Defined.

(** The text of a line, as the three [msg!] of [process_instruction] write
    it. *)
Definition print_line (e : line) : string :=
  match e with
  | Entered => MSG_ENTRYPOINT
  | WrongOwner => MSG_WRONG_OWNER
  | Greeted counter => greeted_message counter
  end.

(** The counter in the buffer of the first account, if it holds one. *)
Definition stored_counter (accounts : list AccountInfo) (m : Machine) : option Z :=
  a ← head accounts; counter_at m (data a).

(** The lines of one call, from what it returned and the counter it left:
    the entry line, then the report of a wrong owner or, on success, the
    new counter. *)
Definition call_events (r : outcome ProgramError unit) (stored : option Z) : list line :=
  Entered ::
  match r, stored with
  | Ok _, Some counter => [Greeted counter]
  | Err IncorrectProgramId, _ => [WrongOwner]
  | _, _ => []
  end.

(** Whether a line reports a success. *)
Definition is_greeted (e : line) : bool :=
  match e with Greeted _ => true | _ => false end.

Section Trace.
Context (oc : bool) (program_id : Pubkey).

(** The lines of a list of calls run in order from [m]. *)
Fixpoint calls_events (cs : list Call) (m : Machine) : list line :=
  match cs with
  | [] => []
  | c :: cs' =>
      let r := invoke oc program_id c m in
      call_events (snd r) (stored_counter (call_accounts c) (fst r))
      ++ calls_events cs' (fst r)
  end.

End Trace.

(** ** Strings *)

Lemma string_length_app (s t : string) :
  String.length (s +:+ t) = String.length s + String.length t.
Proof. induction s as [|c s IH]; simpl; [reflexivity | by rewrite IH]. Qed.

Lemma string_app_inj_r (t s1 s2 : string) : s1 +:+ t = s2 +:+ t -> s1 = s2.
Proof.
  revert s2. induction s1 as [|c1 s1 IH]; intros [|c2 s2] H; simpl in H.
  - reflexivity.
  - apply (f_equal String.length) in H. rewrite ?string_length_app in H. simpl in H.
    rewrite ?string_length_app in H. lia.
  - apply (f_equal String.length) in H. rewrite ?string_length_app in H. simpl in H.
    rewrite ?string_length_app in H. lia.
  - injection H as -> H. f_equal. by apply IH.
Qed.

(** ** The three texts *)

Lemma greeted_message_inj : Inj (=) (=) greeted_message.
Proof.
  intros v v' H. unfold greeted_message in H.
  apply String.app_inj, string_app_inj_r in H. by apply pretty_Z_inj.
Qed.

(** The report of a wrong owner begins like the line with the counter, and
    is none: it ends otherwise. *)
Lemma greeted_message_not_wrong_owner (v : Z) : greeted_message v <> MSG_WRONG_OWNER.
Proof.
  unfold greeted_message.
  change MSG_WRONG_OWNER
    with ("Greeted " +:+ "account does not have the correct program id").
  intros H%String.app_inj.
  pose proof (f_equal String.length H) as Hlen. rewrite string_length_app in Hlen.
  pose proof (append_correct2 (pretty v) " time(s)!" 8) as Hget.
  rewrite H in Hget. simpl in Hlen.
  replace (String.length (pretty v)) with 35 in Hget by lia. discriminate.
Qed.

Lemma greeted_message_not_entry (v : Z) : greeted_message v <> MSG_ENTRYPOINT.
Proof. discriminate. Qed.

(** The text of a line tells which line it is. *)
#[export] Instance print_line_inj : Inj (=) (=) print_line.
Proof.
  intros [| |v] [| |v'] H; simpl in H; try reflexivity; try discriminate;
    try (by apply greeted_message_not_wrong_owner in H);
    try (symmetry in H; by apply greeted_message_not_wrong_owner in H).
  f_equal. by apply greeted_message_inj.
Qed.

(** ** The lines of a call *)

Section Calls.
Context (oc : bool) (program_id : Pubkey).

(** The lines a rule of [invocation] appends; a call that succeeds leaves
    a counter in the buffer of its first account. *)
Lemma invocation_events (accounts : list AccountInfo) (instruction_data : list byte)
    (m m' : Machine) (r : outcome ProgramError unit) :
  invocation oc program_id accounts instruction_data m m' r ->
  log m' = log m ++ (print_line <$> call_events r (stored_counter accounts m')) /\
  (is_ok r = true -> is_Some (stored_counter accounts m')).
Proof.
  destruct 1 as [e He| | | | | | |
                |i a rest buf g g' Hi Ha Ho Hd Hf Hg Hp];
    cbn [logged stored log]; rewrite <- ?app_assoc; try (split; [reflexivity|discriminate]).
  - apply unpack_err in He as [-> _]. by split.
  - subst accounts. unfold stored_counter. cbn [head mbind option_bind].
    rewrite counter_at_logged, counter_at_stored_eq; [by split|].
    eapply apply_instruction_greeting_ok; eauto with hello.
Qed.

(** A call logs one entry line, and reports a success exactly when it
    returns [Ok]. *)
Lemma call_events_count (r : outcome ProgramError unit) (stored : option Z) :
  (is_ok r = true -> is_Some stored) ->
  length (filter (fun e => e = Entered) (call_events r stored)) = 1%nat /\
  length (filter (fun e => is_greeted e = true) (call_events r stored))
  = (if is_ok r then 1 else 0)%nat.
Proof.
  destruct r as [[]|[]|], stored; simpl; intros H; try done.
  by destruct (H eq_refl).
Qed.

Lemma calls_events_app (cs1 cs2 : list Call) (m : Machine) :
  calls_events oc program_id (cs1 ++ cs2) m
  = calls_events oc program_id cs1 m
    ++ calls_events oc program_id cs2 (fst (run_calls oc program_id cs1 m)).
Proof.
  revert m. induction cs1 as [|c cs1 IH]; intros m; [reflexivity|].
  cbn [app calls_events run_calls fst]. by rewrite IH, app_assoc.
Qed.

(** C32: the log is a record of the calls.  A list of calls appends to the
    log the lines of its calls in order: for each call the entry line, then
    the report of a wrong owner if that is what it returned, or the line
    with the counter it stored if it succeeded.  The texts of the lines tell
    them apart, so the text of the log determines these lines; it has one
    entry line for each call and one line with a counter for each call
    that returned [Ok]. *)
Theorem run_calls_logs (cs : list Call) (m : Machine) :
  log (fst (run_calls oc program_id cs m))
  = log m ++ (print_line <$> calls_events oc program_id cs m) /\
  (forall es, print_line <$> es = print_line <$> calls_events oc program_id cs m ->
     es = calls_events oc program_id cs m) /\
  length (filter (fun e => e = Entered) (calls_events oc program_id cs m)) = length cs /\
  length (filter (fun e => is_greeted e = true) (calls_events oc program_id cs m))
  = length (filter (fun r => is_ok r = true) (snd (run_calls oc program_id cs m))).
Proof.
  split_and!; [| intros es; apply (inj (fmap print_line)) | |];
    revert m; induction cs as [|c cs IH]; intros m; cbn [calls_events run_calls fst snd];
    try (by rewrite ?app_nil_r);
    destruct (invocation_events _ _ _ _ _
                (run_invocation oc program_id (call_accounts c) (call_data c) m))
      as [Hlog Hst];
    destruct (call_events_count _ _ Hst) as [Hent Hgr]; fold (invoke oc program_id c m) in *.
  - by rewrite IH, Hlog, fmap_app, app_assoc.
  - rewrite filter_app, length_app, IH, Hent. reflexivity.
  - rewrite filter_app, length_app, IH, Hgr, filter_cons.
    destruct (snd (invoke oc program_id c m)) as [[]| |]; reflexivity.
Qed.

End Calls.

Lemma run_calls_logs_example :
  log (fst (run_calls true Pubkey_default
              [mkCall [example_account] [x00]; mkCall [example_account] [];
               mkCall [example_account] [x01]]
              (example_machine [x07; x00; x00; x00])))
  = print_line <$> [Entered; Greeted 8; Entered; Entered; Greeted 7].
Proof. vm_compute. reflexivity. Qed.
