(* ===== verification/Tests.v ===== *)
(** * The unit test of the repository ([lib.rs], [mod test])

    [test_sanity] builds one account of four zero bytes owned by the program,
    checks that the counter reads 0, invokes the entry point with an empty
    instruction buffer and expects the counter to read 1, then 2.  The test
    is modelled as it is written: [unwrap] panics on an [Err], [assert_eq!]
    panics on a mismatch.

    With the decoder of [instruction.rs] the empty buffer is rejected, so the
    first [unwrap] panics: the test as written fails.  The test passes
    exactly with the instruction buffers that decode to [Increment]
    ([test_sanity_passes_iff]). *)

From Stdlib Require Import ZArith Lia List String Strings.Byte.
From stdpp Require Import base tactics option list gmap strings.
From S2P Require Import Prelude Word Runtime Instruction Greeting Processor.

#[local] Open Scope prog_scope.

(** [r.unwrap()]. *)
Definition unwrap {E E' A} (r : outcome E A) : outcome E' A :=
  match r with
  | Ok a => Ok a
  | Err _ => Panic UnwrapOnErr
  | Panic p => Panic p
  end.

(** Runs a statement and unwraps its result. *)
Definition unwrapped {S E A} (c : prog S E A) : prog S E A :=
  fun s => (fst (c s), unwrap (snd (c s))).

(** [assert_eq!(a, b)] on integers. *)
Definition assert_eq {S E} (a b : Z) : prog S E unit :=
  plift (if decide (a = b) then Ok tt else Panic AssertionFailed).

(** [let program_id = Pubkey::default();] *)
Definition sanity_program_id : Pubkey := Pubkey_default.

(** The cells that [&mut lamports] and [&mut data] refer to. *)
Definition sanity_lamports_loc : loc := 1%positive.
Definition sanity_data_loc : loc := 2%positive.

(** [let key = Pubkey::default();] and [let owner = Pubkey::default();] *)
Definition sanity_key : Pubkey := Pubkey_default.
Definition sanity_owner : Pubkey := Pubkey_default.

(** [AccountInfo::new(&key, false, true, &mut lamports, &mut data, &owner,
    false, Epoch::default())]. *)
Definition sanity_account : AccountInfo :=
  mkAccountInfo sanity_key false true sanity_lamports_loc sanity_data_loc
    sanity_owner false 0.

(** [let accounts = vec![account];] *)
Definition sanity_accounts : list AccountInfo := [sanity_account].

(** [lamports = 0] and [data = vec![0; mem::size_of::<u32>()]], in cells
    that nothing borrows. *)
Definition sanity_machine : Machine :=
  mkMachine {[ sanity_data_loc := replicate 4 x00 ]}
            {[ sanity_lamports_loc := 0%Z ]} ∅ [].

(** [let instruction_data: Vec<u8> = Vec::new();] *)
Definition sanity_instruction_data : list byte := [].

(** [GreetingAccount::try_from_slice(&accounts[0].data.borrow()).unwrap().counter];
    [accounts] is not empty in the test. *)
Definition sanity_counter (accounts : list AccountInfo) : Prog Z :=
  match accounts with
  | a :: _ => do? g <- unwrapped (load_greeting a) ;; pret (counter g)
  | [] => plift (Panic SliceIndexOutOfRange)
  end.

(** The body of the test, for a given instruction buffer. *)
Definition test_sanity_with (oc : bool) (instruction_data : list byte) : Prog unit :=
  let accounts := sanity_accounts in
  do? c <- sanity_counter accounts ;;
  assert_eq c 0 ;;;
  unwrapped (process_instruction oc sanity_program_id accounts instruction_data) ;;;
  do? c <- sanity_counter accounts ;;
  assert_eq c 1 ;;;
  unwrapped (process_instruction oc sanity_program_id accounts instruction_data) ;;;
  do? c <- sanity_counter accounts ;;
  assert_eq c 2.

(** [fn test_sanity()]. *)
Definition test_sanity (oc : bool) : Machine * outcome ProgramError unit :=
  test_sanity_with oc sanity_instruction_data sanity_machine.

(** ** Steps of the test *)

Lemma sanity_counter_reads (a : AccountInfo) (rest : list AccountInfo) (m : Machine)
    (buf : list byte) (g : GreetingAccount) :
  data_store m !! data a = Some buf -> flag_of m (data a) <> Writing ->
  try_from_slice buf = Ok g ->
  sanity_counter (a :: rest) m = (m, Ok (counter g)).
Proof.
  intros Hd Hf Hg. unfold sanity_counter, unwrapped, pbind.
  rewrite (load_greeting_eq a m buf Hd Hf), Hg. reflexivity.
Qed.

(** The test looks at the instruction bytes through [unpack] only. *)
Lemma test_sanity_with_decoded (oc : bool) (data1 data2 : list byte) :
  unpack data1 = unpack data2 -> test_sanity_with oc data1 = test_sanity_with oc data2.
Proof.
  intros H. unfold test_sanity_with.
  rewrite (process_instruction_decoded oc _ _ data1 data2 H). reflexivity.
Qed.

(** With an instruction that sets the counter to a value other than 1, the
    first call succeeds and the assertion after it fails. *)
Lemma test_sanity_set (oc : bool) (data : list byte) (v : Z) :
  unpack data = Ok (Set_ v) -> v <> 1%Z ->
  snd (test_sanity_with oc data sanity_machine) = Panic AssertionFailed.
Proof.
  intros Hu Hv. unfold test_sanity_with.
  pose proof (process_stores oc sanity_program_id sanity_accounts data sanity_machine
                (Set_ v) sanity_account [] (replicate 4 x00)) as Hrun.
  cbn zeta in Hrun. rewrite andb_false_r in Hrun.
  specialize (Hrun eq_refl Hu eq_refl eq_refl eq_refl eq_refl eq_refl).
  rewrite (pbind_ok _ _ sanity_machine sanity_machine 0%Z) by reflexivity.
  rewrite (pbind_ok _ _ sanity_machine sanity_machine tt) by reflexivity.
  erewrite pbind_ok by (unfold unwrapped; rewrite Hrun; reflexivity).
  erewrite pbind_ok.
  2: { eapply (sanity_counter_reads _ _ _ (serialize (mkGreetingAccount v))).
       - apply lookup_insert_eq.
       - by vm_compute.
       - apply try_from_slice_serialize. exact (unpack_ok_instruction_ok _ _ Hu). }
  erewrite pbind_panic; [reflexivity|].
  unfold assert_eq, plift. cbn [counter]. rewrite decide_False by exact Hv. reflexivity.
Qed.

(** C19: the test passes exactly with the instruction buffers that decode to
    [Increment], in either build: with every other buffer the first
    [unwrap] or one of the assertions panics. *)
Theorem test_sanity_passes_iff (oc : bool) (instruction_data : list byte) :
  snd (test_sanity_with oc instruction_data sanity_machine) = Ok tt <->
  unpack instruction_data = Ok Increment.
Proof.
  split.
  - destruct (unpack instruction_data) as [[| |v]|e|p] eqn:Hu; [done| | | |]; intros Hrun;
      exfalso; revert Hrun.
    + rewrite (test_sanity_with_decoded oc instruction_data [x01] Hu).
      destruct oc; vm_compute; discriminate.
    + destruct (decide (v = 1%Z)) as [-> | Hv].
      * rewrite (test_sanity_with_decoded oc instruction_data [x02; x01; x00; x00; x00] Hu).
        destruct oc; vm_compute; discriminate.
      * rewrite (test_sanity_set oc instruction_data v Hu Hv). discriminate.
    + assert (e = InvalidInstructionData) as ->
        by (case_unpack (unpack_cases instruction_data); congruence).
      rewrite (test_sanity_with_decoded oc instruction_data [] Hu).
      destruct oc; vm_compute; discriminate.
    + destruct (unpack_not_panic _ _ Hu).
  - intros Hu. rewrite (test_sanity_with_decoded oc instruction_data [x00] Hu).
    destruct oc; vm_compute; reflexivity.
Qed.

(** The same test passes when the instruction buffer holds the tag of
    [Increment], and leaves the counter at 2. *)
Theorem test_sanity_passes_with_increment (oc : bool) :
  snd (test_sanity_with oc [x00] sanity_machine) = Ok tt /\
  data_store (fst (test_sanity_with oc [x00] sanity_machine)) !! sanity_data_loc
  = Some [x02; x00; x00; x00].
Proof. destruct oc; vm_compute; split; reflexivity. Qed.

(** The test as the repository has it: its buffer is empty, which [unpack]
    rejects, so it does not pass. *)
Lemma test_sanity_passes_iff_witness :
  (snd (test_sanity true) = Ok tt <-> unpack sanity_instruction_data = Ok Increment) /\
  unpack sanity_instruction_data = Err InvalidInstructionData.
Proof. split; [apply test_sanity_passes_iff | reflexivity]. Defined.
